(** * kafka-pixy: message streams, broker executors and the graceful producer

    A shallow embedding of
    - [consumer/msgstream/msgstream.go]: the stream factory, the per-partition
      message stream event loop and the per-broker executor;
    - [pixy/kafkaproducer.go]: the dispatcher and the merger of the graceful
      producer, and the representation of keys and values in its log;
    followed by the properties of the specification that were checked
    against them, and by further properties of the code.

    Conventions.  Go's fixed-width integers are [Z] with the wrap-around
    written out ([wrap32], [wrap64]).  A goroutine that is a [select] loop is
    a step function over the arms of the [select]: an event names the arm
    that fires together with what the environment supplies there (the value
    received, the clock reading, whether a non-blocking send finds room).  A
    nil-able channel variable is an [option] or a [bool] that says whether the
    arm is enabled.  What a goroutine sends on a channel is appended to a log
    kept in the state. *)

From Stdlib Require Import ZArith List Bool Lia.
From stdpp Require Import gmap strings list fin_maps sorting pretty.

Local Open Scope Z_scope.

(** ** Machine integers and time *)

Module Machine.

(** Two's complement wrap-around of a signed [w]-bit integer. *)
Definition wrap (w : Z) (x : Z) : Z :=
  (x + 2 ^ (w - 1)) mod 2 ^ w - 2 ^ (w - 1).

Definition wrap32 : Z -> Z := wrap 32.
Definition wrap64 : Z -> Z := wrap 64.

Definition MaxInt32 : Z := 2 ^ 31 - 1.
Definition MinInt32 : Z := - 2 ^ 31.
Definition MaxInt64 : Z := 2 ^ 63 - 1.
Definition MinInt64 : Z := - 2 ^ 63.

Definition int32 (x : Z) : Prop := MinInt32 <= x <= MaxInt32.
Definition int64 (x : Z) : Prop := MinInt64 <= x <= MaxInt64.

(** [time.Time] as nanoseconds since the zero time; [time.Duration] is an
    int64 count of nanoseconds. *)
Abbreviation Time := Z.
Abbreviation Duration := Z.

(** Modelled from the spec: [t.Sub(u)] of Go's [time] package, which the
    sources only call; the spec speaks of the time elapsed since a
    failure.  It is the difference, saturated to the range of [Duration]. *)
Definition Sub (t u : Time) : Duration :=
  Z.max MinInt64 (Z.min MaxInt64 (t - u)).

End Machine.
Import Machine.

(** ** The parts of sarama the code relies on

    The sarama library is vendored with the repository but is not among its
    sources here; the code under study only uses the declarations below. *)

Module sarama.

(** Modelled from the spec: the two sentinel offsets, [sarama.OffsetNewest]
    and [sarama.OffsetOldest], whose declarations are missing.  The spec
    names them (Newest, Oldest) without their values; these are sarama's,
    both outside the offsets of a log. *)
Definition OffsetNewest : Z := -1.
Definition OffsetOldest : Z := -2.

(** Modelled from the spec: the error values of its taxonomy whose
    declarations are missing (sarama's [KError] codes of a broker,
    [ErrIncompleteResponse], [ErrMessageTooLarge], [ConfigurationError])
    and, as [OtherError], any other error such as one of the network.
    Go's [nil] error is [None] of [option error]. *)
Inductive error : Type :=
| KError (code : Z)
| ErrIncompleteResponse
| ErrMessageTooLarge
| ConfigurationError (msg : string)
| OtherError (msg : string).

#[global] Instance error_eq_dec : EqDecision error.
Proof. solve_decision. Defined.

Definition ErrNoError : Z := 0.
Definition ErrOffsetOutOfRange : error := KError 1.

(** Modelled from the spec: the configuration values it lists as consumed,
    the fields of [sarama.Config] that the code reads. *)
Record Config : Type := {
  Consumer_Fetch_Min : Z;
  Consumer_Fetch_Default : Z;
  Consumer_Fetch_Max : Z;
  Consumer_MaxWaitTime : Duration;
  Consumer_Retry_Backoff : Duration;
  Consumer_Return_Errors : bool;
  ChannelBufferSize : Z
}.

(** Modelled from the spec: [GetOffset(topic, partition, kind)] of the
    cluster client contract, the one method of [sarama.Client] that matters
    to the factory.  It is the cluster as the client sees it at the time of
    the call. *)
Record Client : Type := {
  GetOffset : string -> Z -> Z -> error + Z
}.

(** Modelled from the spec: the raw response block of a FetchRes, by the
    fields of sarama's [FetchResponse], [FetchResponseBlock], [MessageSet],
    [MessageBlock] and [Message] that [parseFetchResult] reads.  First, a
    message as it sits in a fetch response. *)
Record Msg : Type := {
  msg_Offset : Z;
  msg_Key : list Byte.byte;
  msg_Value : list Byte.byte
}.

(** [MessageBlock]: one message, or a compressed wrapper carrying a set. *)
Record MessageBlock : Type := {
  mb_Msg : Msg;
  mb_Set : option (list Msg)
}.

(** Modelled from the spec: the method [Messages()] of a message block,
    missing from the sources: the messages of the set a compressed wrapper
    carries, or else the block's own message. *)
Definition Messages (msb : MessageBlock) : list Msg :=
  match mb_Set msb with
  | Some inner => inner
  | None => [mb_Msg msb]
  end.

Record MessageSet : Type := {
  PartialTrailingMessage : bool;
  set_Messages : list MessageBlock
}.

Record FetchResponseBlock : Type := {
  block_Err : Z;
  HighWaterMarkOffset : Z;
  MsgSet : MessageSet
}.

(** Modelled from the spec: [FetchResponse] with its method
    [GetBlock(topic, partition)]: the block of that partition, if any. *)
Record FetchResponse : Type := {
  Blocks : gmap (string * Z) FetchResponseBlock
}.

Definition GetBlock (r : FetchResponse) (topic : string) (partition : Z)
  : option FetchResponseBlock :=
  Blocks r !! (topic, partition).

(** Modelled from the spec: the wire-level fetch request with one block
    per (topic, partition, offset, maxBytes), as [AddBlock] adds them. *)
Record FetchRequestBlock : Type := {
  rb_Topic : string;
  rb_Partition : Z;
  rb_Offset : Z;
  rb_MaxBytes : Z
}.

Record FetchRequest : Type := {
  MinBytes : Z;
  MaxWaitTime : Z;
  req_blocks : list FetchRequestBlock
}.

End sarama.

(** ** consumer/msgstream/msgstream.go *)

Module msgstream.

Import sarama.

(** [instanceID{topic, partition}]. *)
Abbreviation instanceID := (string * Z)%type.

(** A [*msgStream] is an index into the store of allocated streams. *)
Abbreviation ptr := nat.

(** The identity of a channel (a reply channel, an executor's input). *)
Abbreviation chan := nat.

Record Message : Type := {
  Topic : string;
  Partition : Z;
  Key : list Byte.byte;
  Value : list Byte.byte;
  Offset : Z;
  HighWaterMark : Z
}.

Record Err : Type := {
  err_Topic : string;
  err_Partition : Z;
  err_Err : error
}.

Record fetchReq : Type := {
  fr_Topic : string;
  fr_Partition : Z;
  fr_Offset : Z;
  fr_MaxBytes : Z;
  fr_Lag : Z;
  ReplyToCh : chan
}.

Record fetchRes : Type := {
  Response : option FetchResponse;
  res_Err : option error
}.

(** The fields of [msgStream] that its loop and the factory touch.
    [messagesCh], [errorsCh] hold what was sent on them so far;
    [closingCh] says whether [Stop] has closed it; [reassigns] counts the
    sends on the mapper's [WorkerReassign] channel. *)
Record msgStream : Type := {
  id : instanceID;
  fetchSize : Z;
  offset : Z;
  lag : Z;
  messagesCh : list Message;
  errorsCh : list Err;
  closingCh : bool;
  assignedBrokerRequestCh : option chan;
  nilOrBrokerRequestsCh : option chan;
  nilOrReassignRetryTimerCh : option Time;
  lastReassignTime : Time;
  reassigns : nat
}.

(** The factory together with what it shares with its surroundings: the
    allocated streams ([streams], indexed by [ptr]) and the mapper's
    [WorkerSpawned] and [WorkerStopped] channels as logs. *)
Record factory : Type := {
  saramaCfg : Config;
  client : Client;
  children : gmap instanceID ptr;
  streams : list msgStream;
  WorkerSpawned : list ptr;
  WorkerStopped : list ptr
}.

Definition SpawnFactory (cfg : Config) (c : Client) : factory :=
  {| saramaCfg := cfg; client := c; children := ∅; streams := [];
     WorkerSpawned := []; WorkerStopped := [] |}.

(** [chooseStartingOffset]: the offset and the error ([None] is nil). *)
Definition chooseStartingOffset (f : factory) (topic : string)
    (partition : Z) (offset : Z) : Z * option error :=
  match GetOffset (client f) topic partition OffsetNewest with
  | inl err => (0, Some err)
  | inr newestOffset =>
    match GetOffset (client f) topic partition OffsetOldest with
    | inl err => (0, Some err)
    | inr oldestOffset =>
      if bool_decide (offset = OffsetNewest) || (newestOffset <? offset)
      then (newestOffset, None)
      else if bool_decide (offset = OffsetOldest) || (offset <? oldestOffset)
      then (oldestOffset, None)
      else (offset, None)
    end
  end.

(** [spawnMsgStream]: the freshly built stream (its loop is started). *)
Definition spawnMsgStream (f : factory) (i : instanceID) (off : Z)
  : msgStream :=
  {| id := i;
     fetchSize := Consumer_Fetch_Default (saramaCfg f);
     offset := off;
     lag := 0;
     messagesCh := [];
     errorsCh := [];
     closingCh := false;
     assignedBrokerRequestCh := None;
     nilOrBrokerRequestsCh := None;
     nilOrReassignRetryTimerCh := None;
     lastReassignTime := 0;
     reassigns := 0 |}.

Definition AlreadyConsuming : error :=
  ConfigurationError "That topic/partition is already being consumed".

(** [SpawnMessageStream]: the factory afterwards, the stream (nil is
    [None]), the offset and the error. *)
Definition SpawnMessageStream (f : factory) (topic : string)
    (partition : Z) (offset : Z)
  : factory * option ptr * Z * option error :=
  match chooseStartingOffset f topic partition offset with
  | (_, Some err) => (f, None, OffsetNewest, Some err)
  | (concreteOffset, None) =>
    let i : instanceID := (topic, partition) in
    match children f !! i with
    | Some _ => (f, None, OffsetNewest, Some AlreadyConsuming)
    | None =>
      let ms := length (streams f) in
      ({| saramaCfg := saramaCfg f;
          client := client f;
          children := <[i := ms]> (children f);
          streams := streams f ++ [spawnMsgStream f i concreteOffset];
          WorkerSpawned := WorkerSpawned f ++ [ms];
          WorkerStopped := WorkerStopped f |},
       Some ms, concreteOffset, None)
    end
  end.

(** What ties the mapper's two channels to the allocated streams: every
    stream was sent once on [WorkerSpawned], in the order of allocation, and
    [WorkerStopped] holds, once each, the streams whose [closingCh] is
    closed. *)
Definition mapper_informed (f : factory) : Prop :=
  WorkerSpawned f = seq 0 (length (streams f)) /\
  NoDup (WorkerStopped f) /\
  (forall p, p ∈ WorkerStopped f <->
             exists m, streams f !! p = Some m /\ closingCh m = true).

(** *** The message stream loop *)

(** Field updates of [msgStream]. *)
Definition set_fetchSize (v : Z) (ms : msgStream) : msgStream :=
  {| id := id ms; fetchSize := v; offset := offset ms; lag := lag ms;
     messagesCh := messagesCh ms; errorsCh := errorsCh ms;
     closingCh := closingCh ms;
     assignedBrokerRequestCh := assignedBrokerRequestCh ms;
     nilOrBrokerRequestsCh := nilOrBrokerRequestsCh ms;
     nilOrReassignRetryTimerCh := nilOrReassignRetryTimerCh ms;
     lastReassignTime := lastReassignTime ms; reassigns := reassigns ms |}.

Definition set_offset (v : Z) (ms : msgStream) : msgStream :=
  {| id := id ms; fetchSize := fetchSize ms; offset := v; lag := lag ms;
     messagesCh := messagesCh ms; errorsCh := errorsCh ms;
     closingCh := closingCh ms;
     assignedBrokerRequestCh := assignedBrokerRequestCh ms;
     nilOrBrokerRequestsCh := nilOrBrokerRequestsCh ms;
     nilOrReassignRetryTimerCh := nilOrReassignRetryTimerCh ms;
     lastReassignTime := lastReassignTime ms; reassigns := reassigns ms |}.

Definition set_lag (v : Z) (ms : msgStream) : msgStream :=
  {| id := id ms; fetchSize := fetchSize ms; offset := offset ms; lag := v;
     messagesCh := messagesCh ms; errorsCh := errorsCh ms;
     closingCh := closingCh ms;
     assignedBrokerRequestCh := assignedBrokerRequestCh ms;
     nilOrBrokerRequestsCh := nilOrBrokerRequestsCh ms;
     nilOrReassignRetryTimerCh := nilOrReassignRetryTimerCh ms;
     lastReassignTime := lastReassignTime ms; reassigns := reassigns ms |}.

Definition set_messagesCh (v : list Message) (ms : msgStream) : msgStream :=
  {| id := id ms; fetchSize := fetchSize ms; offset := offset ms;
     lag := lag ms; messagesCh := v; errorsCh := errorsCh ms;
     closingCh := closingCh ms;
     assignedBrokerRequestCh := assignedBrokerRequestCh ms;
     nilOrBrokerRequestsCh := nilOrBrokerRequestsCh ms;
     nilOrReassignRetryTimerCh := nilOrReassignRetryTimerCh ms;
     lastReassignTime := lastReassignTime ms; reassigns := reassigns ms |}.

Definition set_errorsCh (v : list Err) (ms : msgStream) : msgStream :=
  {| id := id ms; fetchSize := fetchSize ms; offset := offset ms;
     lag := lag ms; messagesCh := messagesCh ms; errorsCh := v;
     closingCh := closingCh ms;
     assignedBrokerRequestCh := assignedBrokerRequestCh ms;
     nilOrBrokerRequestsCh := nilOrBrokerRequestsCh ms;
     nilOrReassignRetryTimerCh := nilOrReassignRetryTimerCh ms;
     lastReassignTime := lastReassignTime ms; reassigns := reassigns ms |}.

Definition set_closingCh (v : bool) (ms : msgStream) : msgStream :=
  {| id := id ms; fetchSize := fetchSize ms; offset := offset ms;
     lag := lag ms; messagesCh := messagesCh ms; errorsCh := errorsCh ms;
     closingCh := v;
     assignedBrokerRequestCh := assignedBrokerRequestCh ms;
     nilOrBrokerRequestsCh := nilOrBrokerRequestsCh ms;
     nilOrReassignRetryTimerCh := nilOrReassignRetryTimerCh ms;
     lastReassignTime := lastReassignTime ms; reassigns := reassigns ms |}.

Definition set_assignedBrokerRequestCh (v : option chan) (ms : msgStream)
  : msgStream :=
  {| id := id ms; fetchSize := fetchSize ms; offset := offset ms;
     lag := lag ms; messagesCh := messagesCh ms; errorsCh := errorsCh ms;
     closingCh := closingCh ms;
     assignedBrokerRequestCh := v;
     nilOrBrokerRequestsCh := nilOrBrokerRequestsCh ms;
     nilOrReassignRetryTimerCh := nilOrReassignRetryTimerCh ms;
     lastReassignTime := lastReassignTime ms; reassigns := reassigns ms |}.

Definition set_nilOrBrokerRequestsCh (v : option chan) (ms : msgStream)
  : msgStream :=
  {| id := id ms; fetchSize := fetchSize ms; offset := offset ms;
     lag := lag ms; messagesCh := messagesCh ms; errorsCh := errorsCh ms;
     closingCh := closingCh ms;
     assignedBrokerRequestCh := assignedBrokerRequestCh ms;
     nilOrBrokerRequestsCh := v;
     nilOrReassignRetryTimerCh := nilOrReassignRetryTimerCh ms;
     lastReassignTime := lastReassignTime ms; reassigns := reassigns ms |}.

Definition set_nilOrReassignRetryTimerCh (v : option Time) (ms : msgStream)
  : msgStream :=
  {| id := id ms; fetchSize := fetchSize ms; offset := offset ms;
     lag := lag ms; messagesCh := messagesCh ms; errorsCh := errorsCh ms;
     closingCh := closingCh ms;
     assignedBrokerRequestCh := assignedBrokerRequestCh ms;
     nilOrBrokerRequestsCh := nilOrBrokerRequestsCh ms;
     nilOrReassignRetryTimerCh := v;
     lastReassignTime := lastReassignTime ms; reassigns := reassigns ms |}.

(** [ms.lastReassignTime = now] followed by the send on [WorkerReassign]. *)
Definition reassign_at (now : Time) (ms : msgStream) : msgStream :=
  {| id := id ms; fetchSize := fetchSize ms; offset := offset ms;
     lag := lag ms; messagesCh := messagesCh ms; errorsCh := errorsCh ms;
     closingCh := closingCh ms;
     assignedBrokerRequestCh := assignedBrokerRequestCh ms;
     nilOrBrokerRequestsCh := nilOrBrokerRequestsCh ms;
     nilOrReassignRetryTimerCh := nilOrReassignRetryTimerCh ms;
     lastReassignTime := now; reassigns := S (reassigns ms) |}.

(** The send on [WorkerReassign] alone (the retry timer's arm). *)
Definition reassign_again (ms : msgStream) : msgStream :=
  reassign_at (lastReassignTime ms) ms.

(** The state of [run]: the stream, the local variables, the requests sent
    to executors so far (with the channel each went to), and whether the
    loop has left for [done] (both output channels closed). *)
Record loop : Type := {
  ms : msgStream;
  fetchResultCh : chan;
  nilOrFetchResultsCh : bool;
  nilOrMessagesCh : bool;
  fetchedMessages : list Message;
  currMessage : option Message;
  currMessageIdx : nat;
  requestsSent : list (chan * fetchReq);
  done_ : bool
}.

Definition with_ms (v : msgStream) (s : loop) : loop :=
  {| ms := v; fetchResultCh := fetchResultCh s;
     nilOrFetchResultsCh := nilOrFetchResultsCh s;
     nilOrMessagesCh := nilOrMessagesCh s;
     fetchedMessages := fetchedMessages s; currMessage := currMessage s;
     currMessageIdx := currMessageIdx s; requestsSent := requestsSent s;
     done_ := done_ s |}.

(** The arms of the [select] in [run], with what the environment supplies:
    the value received, the reading of the clock, and for a fetch result
    whether a send on [errorsCh] would find room. *)
Inductive event : Type :=
| assignment (bw : option chan) (now : Time)
| requestSent
| fetchResult (result : fetchRes) (now : Time) (room : bool)
| messageSent
| retryTimer (now : Time)
| closing.

Section stream.

Variable cfg : Config.

(** [reportError]: gated by [Consumer.Return.Errors], and the send does
    not block: without [room] the error is dropped. *)
Definition reportError (m : msgStream) (err : error) (room : bool)
  : msgStream :=
  if negb (Consumer_Return_Errors cfg) then m
  else if room
  then set_errorsCh
         (errorsCh m ++
          [{| err_Topic := (id m).1; err_Partition := (id m).2;
              err_Err := err |}]) m
  else m.

Definition triggerOrScheduleReassign (m : msgStream) (now : Time)
  : msgStream :=
  let m1 := set_assignedBrokerRequestCh None m in
  let m2 :=
    if Consumer_Retry_Backoff cfg <? Sub now (lastReassignTime m1)
    then reassign_at now m1 else m1 in
  set_nilOrReassignRetryTimerCh (Some (now + Consumer_Retry_Backoff cfg)) m2.

Definition consumerMessage (m : msgStream) (block : FetchResponseBlock)
    (msg : Msg) : Message :=
  {| Topic := (id m).1; Partition := (id m).2;
     Key := msg_Key msg; Value := msg_Value msg;
     Offset := msg_Offset msg;
     HighWaterMark := HighWaterMarkOffset block |}.

(** The body of the two nested [for] loops of [parseFetchResult], for one
    message; the accumulator is [fetchedMessages] and the stream. *)
Definition parseMsg (block : FetchResponseBlock)
    (acc : list Message * msgStream) (msg : Msg)
  : list Message * msgStream :=
  let '(fetched, m) := acc in
  if msg_Offset msg <? offset m then (fetched, m)
  else (fetched ++ [consumerMessage m block msg],
        set_lag (wrap64 (HighWaterMarkOffset block - msg_Offset msg)) m).

(** [parseFetchResult]: the stream afterwards, the messages (a nil slice
    is [[]]) and the error. *)
Definition parseFetchResult (m : msgStream) (fetchResult : fetchRes)
    (room : bool) : msgStream * list Message * option error :=
  match res_Err fetchResult with
  | Some err => (m, [], Some err)
  | None =>
    match Response fetchResult with
    | None => (m, [], Some ErrIncompleteResponse)
    | Some response =>
      match GetBlock response (id m).1 (id m).2 with
      | None => (m, [], Some ErrIncompleteResponse)
      | Some block =>
        if negb (block_Err block =? ErrNoError)
        then (m, [], Some (KError (block_Err block)))
        else if (length (set_Messages (MsgSet block)) =? 0)%nat
        then
          if PartialTrailingMessage (MsgSet block)
          then
            if (0 <? Consumer_Fetch_Max cfg)
               && (fetchSize m =? Consumer_Fetch_Max cfg)
            then
              let m1 := reportError m ErrMessageTooLarge room in
              (set_offset (wrap64 (offset m1 + 1)) m1, [], None)
            else
              let m1 := set_fetchSize (wrap32 (fetchSize m * 2)) m in
              let m2 :=
                if (0 <? Consumer_Fetch_Max cfg)
                   && (Consumer_Fetch_Max cfg <? fetchSize m1)
                then set_fetchSize (Consumer_Fetch_Max cfg) m1
                else m1 in
              (m2, [], None)
          else (m, [], None)
        else
          let m1 := set_fetchSize (Consumer_Fetch_Default cfg) m in
          let '(fetched, m2) :=
            fold_left (parseMsg block)
                      (flat_map Messages (set_Messages (MsgSet block)))
                      ([], m1) in
          if (length fetched =? 0)%nat
          then (m2, [], Some ErrIncompleteResponse)
          else (m2, fetched, None)
      end
    end
  end.

(** [goto done]: both output channels are closed, the loop is over. *)
Definition finish (s : loop) : loop :=
  {| ms := ms s; fetchResultCh := fetchResultCh s;
     nilOrFetchResultsCh := nilOrFetchResultsCh s;
     nilOrMessagesCh := nilOrMessagesCh s;
     fetchedMessages := fetchedMessages s; currMessage := currMessage s;
     currMessageIdx := currMessageIdx s; requestsSent := requestsSent s;
     done_ := true |}.

(** One turn of the [select] of [run]; [None] when the arm cannot fire
    (its channel is nil, or the loop is over). *)
Definition step (s : loop) (e : event) : option loop :=
  if done_ s then None else
  match e with
  | assignment None now =>
    Some (with_ms (triggerOrScheduleReassign (ms s) now) s)
  | assignment (Some requestsCh) now =>
    let m1 := set_assignedBrokerRequestCh (Some requestsCh) (ms s) in
    let m2 := set_nilOrReassignRetryTimerCh None m1 in
    let m3 :=
      if negb (nilOrFetchResultsCh s) && negb (nilOrMessagesCh s)
      then set_nilOrBrokerRequestsCh (assignedBrokerRequestCh m2) m2
      else m2 in
    Some (with_ms m3 s)
  | requestSent =>
    match nilOrBrokerRequestsCh (ms s) with
    | None => None
    | Some ch =>
      let req :=
        {| fr_Topic := (id (ms s)).1; fr_Partition := (id (ms s)).2;
           fr_Offset := offset (ms s); fr_MaxBytes := fetchSize (ms s);
           fr_Lag := lag (ms s); ReplyToCh := fetchResultCh s |} in
      Some {| ms := set_nilOrBrokerRequestsCh None (ms s);
              fetchResultCh := fetchResultCh s;
              nilOrFetchResultsCh := true;
              nilOrMessagesCh := nilOrMessagesCh s;
              fetchedMessages := fetchedMessages s;
              currMessage := currMessage s;
              currMessageIdx := currMessageIdx s;
              requestsSent := requestsSent s ++ [(ch, req)];
              done_ := false |}
    end
  | fetchResult result now room =>
    if negb (nilOrFetchResultsCh s) then None else
    let '(m1, fetched, err) := parseFetchResult (ms s) result room in
    match err with
    | Some e =>
      let m2 := reportError m1 e room in
      let s1 :=
        {| ms := m2; fetchResultCh := fetchResultCh s;
           nilOrFetchResultsCh := false;
           nilOrMessagesCh := nilOrMessagesCh s;
           fetchedMessages := fetched;
           currMessage := currMessage s;
           currMessageIdx := currMessageIdx s;
           requestsSent := requestsSent s; done_ := false |} in
      if bool_decide (e = ErrOffsetOutOfRange)
      then Some (finish s1)
      else Some (with_ms (triggerOrScheduleReassign m2 now) s1)
    | None =>
      if (length fetched =? 0)%nat
      then
        Some {| ms := set_nilOrBrokerRequestsCh
                        (assignedBrokerRequestCh m1) m1;
                fetchResultCh := fetchResultCh s;
                nilOrFetchResultsCh := false;
                nilOrMessagesCh := nilOrMessagesCh s;
                fetchedMessages := fetched;
                currMessage := currMessage s;
                currMessageIdx := currMessageIdx s;
                requestsSent := requestsSent s; done_ := false |}
      else
        Some {| ms := m1; fetchResultCh := fetchResultCh s;
                nilOrFetchResultsCh := false;
                nilOrMessagesCh := true;
                fetchedMessages := fetched;
                currMessage := fetched !! 0%nat;
                currMessageIdx := 0;
                requestsSent := requestsSent s; done_ := false |}
    end
  | messageSent =>
    if negb (nilOrMessagesCh s) then None else
    match currMessage s with
    | None => None
    | Some cm =>
      let m1 :=
        set_offset (wrap64 (Offset cm + 1))
                   (set_messagesCh (messagesCh (ms s) ++ [cm]) (ms s)) in
      let idx := S (currMessageIdx s) in
      if (idx <? length (fetchedMessages s))%nat
      then
        Some {| ms := m1; fetchResultCh := fetchResultCh s;
                nilOrFetchResultsCh := nilOrFetchResultsCh s;
                nilOrMessagesCh := true;
                fetchedMessages := fetchedMessages s;
                currMessage := fetchedMessages s !! idx;
                currMessageIdx := idx;
                requestsSent := requestsSent s; done_ := false |}
      else
        Some {| ms := set_nilOrBrokerRequestsCh
                        (assignedBrokerRequestCh m1) m1;
                fetchResultCh := fetchResultCh s;
                nilOrFetchResultsCh := nilOrFetchResultsCh s;
                nilOrMessagesCh := false;
                fetchedMessages := fetchedMessages s;
                currMessage := currMessage s;
                currMessageIdx := idx;
                requestsSent := requestsSent s; done_ := false |}
    end
  | retryTimer now =>
    match nilOrReassignRetryTimerCh (ms s) with
    | None => None
    | Some deadline =>
      if deadline <=? now
      then
        Some (with_ms
                (set_nilOrReassignRetryTimerCh
                   (Some (now + Consumer_Retry_Backoff cfg))
                   (reassign_again (ms s))) s)
      else None
    end
  | closing => Some (finish (with_ms (set_closingCh true (ms s)) s))
  end.

(** A run of the loop: the events that fired, in order. *)
Fixpoint run (s : loop) (evs : list event) : option loop :=
  match evs with
  | [] => Some s
  | e :: evs' =>
    match step s e with
    | Some s' => run s' evs'
    | None => None
    end
  end.

End stream.

(** The loop as [actor.Spawn] starts it on a fresh stream. *)
Definition start (m : msgStream) (resultCh : chan) : loop :=
  {| ms := m; fetchResultCh := resultCh;
     nilOrFetchResultsCh := false; nilOrMessagesCh := false;
     fetchedMessages := []; currMessage := None; currMessageIdx := 0;
     requestsSent := []; done_ := false |}.

(** [(ms *msgStream) Stop()], seen from the factory: [closingCh] is
    closed, the loop is awaited, the entry of the stream's id is deleted
    from [children] and the stream goes to [WorkerStopped].  [None] is the
    panic of closing a closed channel (or a pointer that was never
    allocated). *)
Definition msgStream_Stop (f : factory) (p : ptr) : option factory :=
  match streams f !! p with
  | None => None
  | Some m =>
    if closingCh m then None
    else
      Some {| saramaCfg := saramaCfg f;
              client := client f;
              children := delete (id m) (children f);
              streams := <[p := set_closingCh true m]> (streams f);
              WorkerSpawned := WorkerSpawned f;
              WorkerStopped := WorkerStopped f ++ [p] |}
  end.

(** What can happen to a factory: a spawn, the stop of a stream, and the
    cluster moving on (the client answers differently afterwards). *)
Inductive factory_op : Type :=
| op_spawn (topic : string) (partition : Z) (offset : Z)
| op_stop (p : ptr)
| op_cluster (c : Client).

Definition apply_op (f : factory) (o : factory_op) : option factory :=
  match o with
  | op_spawn topic partition off =>
    Some (SpawnMessageStream f topic partition off).1.1.1
  | op_stop p => msgStream_Stop f p
  | op_cluster c =>
    Some {| saramaCfg := saramaCfg f; client := c;
            children := children f; streams := streams f;
            WorkerSpawned := WorkerSpawned f;
            WorkerStopped := WorkerStopped f |}
  end.

Fixpoint apply_ops (f : factory) (os : list factory_op) : option factory :=
  match os with
  | [] => Some f
  | o :: os' =>
    match apply_op f o with
    | Some f' => apply_ops f' os'
    | None => None
    end
  end.

(** A stream is live from its spawn until its [Stop]. *)
Definition live (f : factory) (p : ptr) : Prop :=
  exists m, streams f !! p = Some m /\ closingCh m = false.

Definition stream_id (f : factory) (p : ptr) : option instanceID :=
  id <$> streams f !! p.

(** An offset that is neither of the two sentinels. *)
Definition literal (offset : Z) : Prop :=
  offset <> OffsetNewest /\ offset <> OffsetOldest.

(** What ties [children] to the allocated streams: an entry points to a
    live stream of that id, and every live stream is the entry of its id. *)
Definition registry_ok (f : factory) : Prop :=
  (forall i p, children f !! i = Some p ->
     exists m, streams f !! p = Some m /\ id m = i /\ closingCh m = false)
  /\
  (forall p m, streams f !! p = Some m -> closingCh m = false ->
     children f !! id m = Some p).

(** The messages of a block, in the order the two nested loops visit them,
    and those of them that [parseFetchResult] keeps for a stream at [off]. *)
Definition block_messages (block : FetchResponseBlock) : list Msg :=
  flat_map Messages (set_Messages (MsgSet block)).

Definition keep (off : Z) (msg : Msg) : bool := negb (msg_Offset msg <? off).

Definition retained (off : Z) (block : FetchResponseBlock) : list Msg :=
  List.filter (keep off) (block_messages block).

(** A fetch result that carries a block for the stream, without error. *)
Definition result_block (m : msgStream) (result : fetchRes)
    (block : FetchResponseBlock) : Prop :=
  res_Err result = None /\
  exists r, Response result = Some r /\
            GetBlock r (id m).1 (id m).2 = Some block /\
            block_Err block = ErrNoError.

(** No messages, but a partial trailing one. *)
Definition empty_partial (block : FetchResponseBlock) : Prop :=
  set_Messages (MsgSet block) = [] /\
  PartialTrailingMessage (MsgSet block) = true.

(** The loop is waiting for the reply to its request. *)
Definition awaiting (s : loop) : Prop :=
  done_ s = false /\ nilOrFetchResultsCh s = true /\
  nilOrMessagesCh s = false /\ nilOrBrokerRequestsCh (ms s) = None.

(** The loop is pushing the fetched messages to the user: [currMessage] is
    the one at [currMessageIdx]. *)
Definition draining (s : loop) : Prop :=
  done_ s = false /\ nilOrMessagesCh s = true /\
  currMessage s = fetchedMessages s !! currMessageIdx s /\
  (currMessageIdx s < length (fetchedMessages s))%nat.

(** The messages fetched and not yet pushed. *)
Definition pending (s : loop) : list Message :=
  if nilOrMessagesCh s then drop (currMessageIdx s) (fetchedMessages s)
  else [].

(** What is assumed of the broker for a stream of [i] in a run of [N]
    events: the messages of a block come in strictly ascending offset order
    (the order of the log), and offsets stay [N + 1] below [MaxInt64]. *)
Definition wf_block (N : Z) (block : FetchResponseBlock) : Prop :=
  StronglySorted Z.lt (map msg_Offset (block_messages block)) /\
  Forall (fun msg => MinInt64 <= msg_Offset msg /\
                     msg_Offset msg + 1 + N <= MaxInt64)
         (block_messages block).

Definition wf_event (i : instanceID) (N : Z) (e : event) : Prop :=
  match e with
  | fetchResult result _ _ =>
    forall r block,
      Response result = Some r -> GetBlock r i.1 i.2 = Some block ->
      wf_block N block
  | _ => True
  end.

(** The arms that move neither the offset nor the messages. *)
Definition control (e : event) : Prop :=
  match e with
  | fetchResult _ _ _ | messageSent => False
  | _ => True
  end.

(** The invariant of the loop of a stream of [i], with [n] events still to
    come of a run of [N]: the messages sent are in ascending order below
    [offset], those pending are in ascending order from [offset] on, and of
    the three arms (request, result, message) at most one is enabled. *)
Definition stream_inv (i : instanceID) (N : Z) (n : nat) (s : loop) : Prop :=
  id (ms s) = i /\
  Z.of_nat n <= N /\
  MinInt64 <= offset (ms s) /\
  offset (ms s) + Z.of_nat n <= MaxInt64 /\
  StronglySorted Z.lt (map Offset (messagesCh (ms s))) /\
  Forall (fun m => Offset m < offset (ms s)) (messagesCh (ms s)) /\
  StronglySorted Z.lt (map Offset (pending s)) /\
  Forall (fun m => offset (ms s) <= Offset m /\
                   Offset m + 1 + N <= MaxInt64) (pending s) /\
  (nilOrMessagesCh s = true ->
   currMessage s = fetchedMessages s !! currMessageIdx s /\
   (currMessageIdx s < length (fetchedMessages s))%nat) /\
  (nilOrFetchResultsCh s = true ->
   nilOrMessagesCh s = false /\ nilOrBrokerRequestsCh (ms s) = None) /\
  (nilOrMessagesCh s = true -> nilOrBrokerRequestsCh (ms s) = None).

(** The error that [parseFetchResult] returns before it looks at the
    messages, if any: the error of the result, a missing response or block,
    or the error code of the block. *)
Definition early_error (i : instanceID) (result : fetchRes) : option error :=
  match res_Err result with
  | Some err => Some err
  | None =>
    match Response result with
    | None => Some ErrIncompleteResponse
    | Some response =>
      match GetBlock response i.1 i.2 with
      | None => Some ErrIncompleteResponse
      | Some block =>
        if negb (block_Err block =? ErrNoError)
        then Some (KError (block_Err block)) else None
      end
    end
  end.

(** How many of the three arms that carry the fetch cycle (request, result,
    message) are enabled. *)
Definition arms (s : loop) : nat :=
  (match nilOrBrokerRequestsCh (ms s) with Some _ => 1 | None => 0 end)
  + (if nilOrFetchResultsCh s then 1 else 0)
  + (if nilOrMessagesCh s then 1 else 0).

(** The fetch results among the events of a run. *)
Definition fetch_results (evs : list event) : nat :=
  length (List.filter
            (fun e => match e with fetchResult _ _ _ => true | _ => false end)
            evs).

(** What the stream of [i] with reply channel [ch] puts its name on. *)
Definition own_message (i : instanceID) (m : Message) : Prop :=
  Topic m = i.1 /\ Partition m = i.2.

Definition own_error (i : instanceID) (e : Err) : Prop :=
  err_Topic e = i.1 /\ err_Partition e = i.2.

Definition own_request (i : instanceID) (ch : chan) (r : chan * fetchReq)
  : Prop :=
  fr_Topic r.2 = i.1 /\ fr_Partition r.2 = i.2 /\ ReplyToCh r.2 = ch.

Definition own_all (i : instanceID) (ch : chan) (s : loop) : Prop :=
  id (ms s) = i /\ fetchResultCh s = ch /\
  Forall (own_message i) (messagesCh (ms s)) /\
  Forall (own_message i) (fetchedMessages s) /\
  (forall cm, currMessage s = Some cm -> own_message i cm) /\
  Forall (own_request i ch) (requestsSent s) /\
  Forall (own_error i) (errorsCh (ms s)).

(** The fetch results of a run that would have found room on [errorsCh],
    and the executors assigned along it. *)
Definition with_room (evs : list event) : nat :=
  length (List.filter
            (fun e => match e with fetchResult _ _ room => room | _ => false end)
            evs).

Definition assigned_to (e : event) : list chan :=
  match e with assignment (Some c) _ => [c] | _ => [] end.

(** The executor channels the loop holds, and those it sent requests to,
    are among [cs]. *)
Definition sends_within (cs : list chan) (s : loop) : Prop :=
  (forall c, assignedBrokerRequestCh (ms s) = Some c -> c ∈ cs) /\
  (forall c, nilOrBrokerRequestsCh (ms s) = Some c -> c ∈ cs) /\
  Forall (fun r => r.1 ∈ cs) (requestsSent s).

(** *** The broker executor *)

(** The local variables of [runExecutor]. *)
Record sender : Type := {
  lastErr : option error;
  lastErrTime : Time
}.

(** What [be.conn.Fetch(req)] returns. *)
Definition fetchOutcome : Type := (option FetchResponse * option error)%type.

Section executor.

Variable config : Config.

Definition reply (res : option FetchResponse) (err : option error)
    (fr : fetchReq) : chan * fetchRes :=
  (ReplyToCh fr, {| Response := res; res_Err := err |}).

Definition block_of (fr : fetchReq) : FetchRequestBlock :=
  {| rb_Topic := fr_Topic fr; rb_Partition := fr_Partition fr;
     rb_Offset := fr_Offset fr; rb_MaxBytes := fr_MaxBytes fr |}.

(** The [sarama.FetchRequest] that [runExecutor] composes for a batch. *)
Definition fetchRequest_for (fetchRequests : list fetchReq) : FetchRequest :=
  {| MinBytes := Consumer_Fetch_Min config;
     MaxWaitTime := wrap32 (Z.quot (Consumer_MaxWaitTime config) 1000000);
     req_blocks := map block_of fetchRequests |}.

(** The body of the [range] loop of [runExecutor] for one batch: [now]
    is the clock at the top, [fetch] what the connection answers, and
    [errNow] the clock when the error is recorded.  The result is the
    local variables afterwards, the wire requests issued and the replies
    sent, in order. *)
Definition execute (st : sender) (fetchRequests : list fetchReq)
    (now : Time) (fetch : FetchRequest -> fetchOutcome) (errNow : Time)
  : sender * list FetchRequest * list (chan * fetchRes) :=
  if Sub now (lastErrTime st) <? Consumer_Retry_Backoff config
  then (st, [], map (reply None (lastErr st)) fetchRequests)
  else
    let req := fetchRequest_for fetchRequests in
    let '(res, err) := fetch req in
    let st' :=
      {| lastErr := err;
         lastErrTime :=
           match err with
           | Some _ => errNow
           | None => lastErrTime st
           end |} in
    (st', [req], map (reply res err) fetchRequests).

(** One batch as the environment presents it to the sender. *)
Record batchEvent : Type := {
  be_requests : list fetchReq;
  be_now : Time;
  be_fetch : FetchRequest -> fetchOutcome;
  be_errNow : Time
}.

(** The sender over a sequence of batches: the wire requests and the
    replies of each batch. *)
Fixpoint runExecutor (st : sender) (batches : list batchEvent)
  : sender * list (list FetchRequest * list (chan * fetchRes)) :=
  match batches with
  | [] => (st, [])
  | b :: rest =>
    let '(st', wire, replies) :=
      execute st (be_requests b) (be_now b) (be_fetch b) (be_errNow b) in
    let '(st'', out) := runExecutor st' rest in
    (st'', (wire, replies) :: out)
  end.

(** The executor: [requestsCh] and [batchRequestsCh] (both unbuffered;
    only whether they are closed is state), the aggregator's locals, the
    sender's locals and the batch it is working on, and the logs: the
    requests the aggregator accepted, the wire requests, the replies. *)
Record brokerExecutor : Type := {
  requestsCh_closed : bool;
  batchRequestsCh_closed : bool;
  aggr_running : bool;
  nilOrBatchRequestCh : bool;
  batchRequest : list fetchReq;
  exec_running : bool;
  exec_batch : option (list fetchReq);
  exec_vars : sender;
  accepted : list fetchReq;
  wire : list FetchRequest;
  replies : list (chan * fetchRes)
}.

(** [SpawnExecutor]: both loops started, nothing received yet. *)
Definition SpawnExecutor : brokerExecutor :=
  {| requestsCh_closed := false; batchRequestsCh_closed := false;
     aggr_running := true; nilOrBatchRequestCh := false;
     batchRequest := [];
     exec_running := true; exec_batch := None;
     exec_vars := {| lastErr := None; lastErrTime := 0 |};
     accepted := []; wire := []; replies := [] |}.

(** What moves the executor: the two arms of the aggregator's [select]
    (the receive either yields a request or finds the channel closed),
    [Stop] closing [requestsCh], the sender's receive of a batch, the
    body of its loop, and its [range] finding the batch channel closed. *)
Inductive be_event : Type :=
| aggr_recv (fr : fetchReq)
| aggr_recv_closed
| be_Stop
| hand_over
| exec_body (now : Time) (fetch : FetchRequest -> fetchOutcome)
            (errNow : Time)
| exec_range_closed.

Definition be_step (b : brokerExecutor) (e : be_event)
  : option brokerExecutor :=
  match e with
  | aggr_recv fr =>
    if aggr_running b && negb (requestsCh_closed b)
    then
      Some {| requestsCh_closed := requestsCh_closed b;
              batchRequestsCh_closed := batchRequestsCh_closed b;
              aggr_running := true;
              nilOrBatchRequestCh := true;
              batchRequest := batchRequest b ++ [fr];
              exec_running := exec_running b;
              exec_batch := exec_batch b;
              exec_vars := exec_vars b;
              accepted := accepted b ++ [fr];
              wire := wire b; replies := replies b |}
    else None
  | aggr_recv_closed =>
    if aggr_running b && requestsCh_closed b
    then
      Some {| requestsCh_closed := true;
              batchRequestsCh_closed := true;
              aggr_running := false;
              nilOrBatchRequestCh := nilOrBatchRequestCh b;
              batchRequest := batchRequest b;
              exec_running := exec_running b;
              exec_batch := exec_batch b;
              exec_vars := exec_vars b;
              accepted := accepted b;
              wire := wire b; replies := replies b |}
    else None
  | be_Stop =>
    if requestsCh_closed b then None
    else
      Some {| requestsCh_closed := true;
              batchRequestsCh_closed := batchRequestsCh_closed b;
              aggr_running := aggr_running b;
              nilOrBatchRequestCh := nilOrBatchRequestCh b;
              batchRequest := batchRequest b;
              exec_running := exec_running b;
              exec_batch := exec_batch b;
              exec_vars := exec_vars b;
              accepted := accepted b;
              wire := wire b; replies := replies b |}
  | hand_over =>
    if aggr_running b && nilOrBatchRequestCh b && exec_running b
       && bool_decide (exec_batch b = None)
    then
      Some {| requestsCh_closed := requestsCh_closed b;
              batchRequestsCh_closed := batchRequestsCh_closed b;
              aggr_running := true;
              nilOrBatchRequestCh := false;
              batchRequest := [];
              exec_running := true;
              exec_batch := Some (batchRequest b);
              exec_vars := exec_vars b;
              accepted := accepted b;
              wire := wire b; replies := replies b |}
    else None
  | exec_body now fetch errNow =>
    match exec_batch b with
    | Some fetchRequests =>
      let '(st', w, r) :=
        execute (exec_vars b) fetchRequests now fetch errNow in
      Some {| requestsCh_closed := requestsCh_closed b;
              batchRequestsCh_closed := batchRequestsCh_closed b;
              aggr_running := aggr_running b;
              nilOrBatchRequestCh := nilOrBatchRequestCh b;
              batchRequest := batchRequest b;
              exec_running := exec_running b;
              exec_batch := None;
              exec_vars := st';
              accepted := accepted b;
              wire := wire b ++ w; replies := replies b ++ r |}
    | None => None
    end
  | exec_range_closed =>
    if exec_running b && batchRequestsCh_closed b
       && bool_decide (exec_batch b = None)
    then
      Some {| requestsCh_closed := requestsCh_closed b;
              batchRequestsCh_closed := true;
              aggr_running := aggr_running b;
              nilOrBatchRequestCh := nilOrBatchRequestCh b;
              batchRequest := batchRequest b;
              exec_running := false;
              exec_batch := None;
              exec_vars := exec_vars b;
              accepted := accepted b;
              wire := wire b; replies := replies b |}
    else None
  end.

Fixpoint be_run (b : brokerExecutor) (evs : list be_event)
  : option brokerExecutor :=
  match evs with
  | [] => Some b
  | e :: evs' =>
    match be_step b e with
    | Some b' => be_run b' evs'
    | None => None
    end
  end.

(** Both loops have returned ([be.wg.Wait()] comes back). *)
Definition be_exited (b : brokerExecutor) : bool :=
  negb (aggr_running b) && negb (exec_running b).

(** The number of replies sent so far on a reply channel. *)
Definition replies_on (b : brokerExecutor) (ch : chan) : nat :=
  length (List.filter (fun r => bool_decide (r.1 = ch)) (replies b)).

(** The requests the sender has taken and not yet answered. *)
Definition in_flight (b : brokerExecutor) : list fetchReq :=
  default [] (exec_batch b).

(** Every accepted request is answered once, in order, or is with the
    sender, or is still in the aggregator's buffer. *)
Definition be_inv (b : brokerExecutor) : Prop :=
  map ReplyToCh (accepted b)
  = map fst (replies b) ++ map ReplyToCh (in_flight b)
    ++ map ReplyToCh (batchRequest b)
  /\ (exec_running b = false -> exec_batch b = None).

End executor.

(** The order in which the two loops of an executor end: the aggregator
    only once [requestsCh] is closed, closing [batchRequestsCh] as it
    returns, and the sender only after that, with no batch in hand. *)
Definition be_order (b : brokerExecutor) : Prop :=
  (requestsCh_closed b = false -> aggr_running b = true) /\
  batchRequestsCh_closed b = negb (aggr_running b) /\
  (exec_running b = false ->
   batchRequestsCh_closed b = true /\ exec_batch b = None).

(** The aggregator offers its batch exactly when it holds a request; the
    batch with the sender and the wire requests issued are not empty. *)
Definition be_batches (b : brokerExecutor) : Prop :=
  (nilOrBatchRequestCh b = true <-> batchRequest b <> []) /\
  (forall l, exec_batch b = Some l -> l <> []) /\
  Forall (fun w => req_blocks w <> []) (wire b).

(** The requests accepted so far that ask for the reply on [ch]. *)
Definition asked_on (b : brokerExecutor) (ch : chan) : nat :=
  length (List.filter (fun fr => bool_decide (ReplyToCh fr = ch))
                      (accepted b)).

(** The requests accepted and not answered: those with the sender and
    those in the aggregator's buffer. *)
Definition unanswered (b : brokerExecutor) : list fetchReq :=
  in_flight b ++ batchRequest b.

(** A bound on the turns the two loops can still take once [requestsCh] is
    closed: the aggregator's return, a hand-over of its buffer with the
    sender's work on it, the sender's work on the batch it holds and its
    return. *)
Definition be_left (b : brokerExecutor) : nat :=
  (if aggr_running b then 1 else 0)
  + (if aggr_running b && nilOrBatchRequestCh b then 2 else 0)
  + (if exec_running b then 1 else 0)
  + (match exec_batch b with Some _ => 1 | None => 0 end).

End msgstream.

(** ** pixy/kafkaproducer.go *)

Module pixy.

Import sarama.

Abbreviation chan := nat.

(** [sarama.ProducerMessage]; [Metadata] is either nil or the reply
    channel ([chan error]) that [Produce] puts there. *)
Record ProducerMessage : Type := {
  pm_Topic : string;
  pm_Key : list Byte.byte;
  pm_Value : list Byte.byte;
  Metadata : option chan
}.

Record ProduceResult : Type := {
  Msg : ProducerMessage;
  Err : option error
}.

(** Where [dispatcher] is: in its first loop, in the loop under the label
    [gracefulShutdown], in the [range] under [shutdownNow], or returned. *)
Inductive phase : Type :=
| normal
| gracefulShutdown
| shutdownNow
| returned.

#[global] Instance phase_eq_dec : EqDecision phase.
Proof. solve_decision. Defined.

(** The local variables of [dispatcher] and, as logs, what it sent: to the
    input of the sarama producer, on reply channels, on [deadMessageCh];
    [asyncClose] counts the calls of [AsyncClose]. *)
Record dispatcher : Type := {
  at_ : phase;
  nilOrDispatcherCh : bool;
  nilOrProdInputCh : bool;
  prodMsg : option ProducerMessage;
  pendingMsgCount : Z;
  Input : list ProducerMessage;
  replyCh : list (chan * option error);
  deadMessageCh : list ProduceResult;
  asyncClose : nat
}.

(** The arms of the three [select]s and of the final [range], with the
    value received. *)
Inductive event : Type :=
| dispatcherCh_recv (m : ProducerMessage)
| dispatcherCh_closed
| input_sent
| resultCh_recv (r : ProduceResult)
| shutdownTimeout
| resultCh_closed.

Section producer.

(** Whether [kp.deadMessageCh] is not nil. *)
Variable deadMessageCh_set : bool.

(** [handleProduceResult]. *)
Definition handleProduceResult (d : dispatcher) (result : ProduceResult)
  : dispatcher :=
  let replies :=
    match Metadata (Msg result) with
    | Some ch => replyCh d ++ [(ch, Err result)]
    | None => replyCh d
    end in
  let dead :=
    match Err result with
    | None => deadMessageCh d
    | Some _ =>
      if deadMessageCh_set then deadMessageCh d ++ [result]
      else deadMessageCh d
    end in
  {| at_ := at_ d; nilOrDispatcherCh := nilOrDispatcherCh d;
     nilOrProdInputCh := nilOrProdInputCh d; prodMsg := prodMsg d;
     pendingMsgCount := pendingMsgCount d; Input := Input d;
     replyCh := replies; deadMessageCh := dead;
     asyncClose := asyncClose d |}.

Definition set_pendingMsgCount (v : Z) (d : dispatcher) : dispatcher :=
  {| at_ := at_ d; nilOrDispatcherCh := nilOrDispatcherCh d;
     nilOrProdInputCh := nilOrProdInputCh d; prodMsg := prodMsg d;
     pendingMsgCount := v; Input := Input d;
     replyCh := replyCh d; deadMessageCh := deadMessageCh d;
     asyncClose := asyncClose d |}.

(** The label [shutdownNow]: [AsyncClose] is called and the [range] over
    [resultCh] begins. *)
Definition goto_shutdownNow (d : dispatcher) : dispatcher :=
  {| at_ := shutdownNow; nilOrDispatcherCh := nilOrDispatcherCh d;
     nilOrProdInputCh := nilOrProdInputCh d; prodMsg := prodMsg d;
     pendingMsgCount := pendingMsgCount d; Input := Input d;
     replyCh := replyCh d; deadMessageCh := deadMessageCh d;
     asyncClose := S (asyncClose d) |}.

(** The head of [for pendingMsgCount > 0]: stay in the drain loop or fall
    through to [shutdownNow]. *)
Definition drain_head (d : dispatcher) : dispatcher :=
  if 0 <? pendingMsgCount d
  then
    {| at_ := gracefulShutdown; nilOrDispatcherCh := nilOrDispatcherCh d;
       nilOrProdInputCh := nilOrProdInputCh d; prodMsg := prodMsg d;
       pendingMsgCount := pendingMsgCount d; Input := Input d;
       replyCh := replyCh d; deadMessageCh := deadMessageCh d;
       asyncClose := asyncClose d |}
  else goto_shutdownNow d.

(** One turn of [dispatcher]; [None] when the arm cannot fire there. *)
Definition step (d : dispatcher) (e : event) : option dispatcher :=
  match at_ d, e with
  | normal, dispatcherCh_recv m =>
    if nilOrDispatcherCh d
    then
      Some {| at_ := normal; nilOrDispatcherCh := false;
              nilOrProdInputCh := true; prodMsg := Some m;
              pendingMsgCount := wrap64 (pendingMsgCount d + 1);
              Input := Input d; replyCh := replyCh d;
              deadMessageCh := deadMessageCh d;
              asyncClose := asyncClose d |}
    else None
  | normal, dispatcherCh_closed =>
    if nilOrDispatcherCh d
    then
      Some (drain_head
              {| at_ := normal;
                 nilOrDispatcherCh := nilOrDispatcherCh d;
                 nilOrProdInputCh := nilOrProdInputCh d;
                 prodMsg := None;
                 pendingMsgCount := pendingMsgCount d;
                 Input := Input d; replyCh := replyCh d;
                 deadMessageCh := deadMessageCh d;
                 asyncClose := asyncClose d |})
    else None
  | normal, input_sent =>
    match nilOrProdInputCh d, prodMsg d with
    | true, Some m =>
      Some {| at_ := normal; nilOrDispatcherCh := true;
              nilOrProdInputCh := false; prodMsg := prodMsg d;
              pendingMsgCount := pendingMsgCount d;
              Input := Input d ++ [m]; replyCh := replyCh d;
              deadMessageCh := deadMessageCh d;
              asyncClose := asyncClose d |}
    | _, _ => None
    end
  | normal, resultCh_recv r =>
    Some (handleProduceResult
            (set_pendingMsgCount (wrap64 (pendingMsgCount d - 1)) d) r)
  | gracefulShutdown, shutdownTimeout => Some (goto_shutdownNow d)
  | gracefulShutdown, resultCh_recv r =>
    Some (drain_head
            (handleProduceResult
               (set_pendingMsgCount (wrap64 (pendingMsgCount d - 1)) d)
               r))
  | shutdownNow, resultCh_recv r => Some (handleProduceResult d r)
  | shutdownNow, resultCh_closed =>
    Some {| at_ := returned; nilOrDispatcherCh := nilOrDispatcherCh d;
            nilOrProdInputCh := nilOrProdInputCh d; prodMsg := prodMsg d;
            pendingMsgCount := pendingMsgCount d; Input := Input d;
            replyCh := replyCh d; deadMessageCh := deadMessageCh d;
            asyncClose := asyncClose d |}
  | _, _ => None
  end.

Fixpoint run (d : dispatcher) (evs : list event) : option dispatcher :=
  match evs with
  | [] => Some d
  | e :: evs' =>
    match step d e with
    | Some d' => run d' evs'
    | None => None
    end
  end.

(** What one handled result puts on reply channels and on the dead
    message channel. *)
Definition acks (r : ProduceResult) : list (chan * option error) :=
  match Metadata (Msg r) with
  | Some ch => [(ch, Err r)]
  | None => []
  end.

Definition dead_letters (r : ProduceResult) : list ProduceResult :=
  match Err r with
  | Some _ => if deadMessageCh_set then [r] else []
  | None => []
  end.

(** Along a run: the submissions accepted, the results handled, and the
    results handled before the loop reached [shutdownNow]. *)
Definition accepted_of (e : event) : list ProducerMessage :=
  match e with dispatcherCh_recv m => [m] | _ => [] end.

Definition result_of (e : event) : list ProduceResult :=
  match e with resultCh_recv r => [r] | _ => [] end.

Fixpoint drained (d : dispatcher) (evs : list event) : list ProduceResult :=
  match evs with
  | [] => []
  | e :: evs' =>
    match step d e with
    | Some d' =>
      (if bool_decide (at_ d = shutdownNow) then [] else result_of e)
        ++ drained d' evs'
    | None => []
    end
  end.

(** The submission accepted but not yet passed on (second stroke). *)
Definition in_hand (d : dispatcher) : list ProducerMessage :=
  match nilOrProdInputCh d, prodMsg d with
  | true, Some m => [m]
  | _, _ => []
  end.

(** The number of sends on a reply channel, and the number of results
    received for submissions that carry that reply channel. *)
Definition replies_on (ch : chan) (l : list (chan * option error)) : nat :=
  length (List.filter (fun a => bool_decide (a.1 = ch)) l).


(** The two strokes: exactly one of the two channel variables is enabled,
    a submission is in hand when it is the input's turn, and once the
    dispatcher channel is closed nothing is in hand. *)
Definition stroke_ok (d : dispatcher) : Prop :=
  nilOrProdInputCh d = negb (nilOrDispatcherCh d) /\
  (nilOrProdInputCh d = true -> is_Some (prodMsg d)) /\
  (at_ d <> normal -> nilOrProdInputCh d = false).

End producer.

(** [dispatcher] as [SpawnKafkaProducer] starts it. *)
Definition start : dispatcher :=
  {| at_ := normal; nilOrDispatcherCh := true; nilOrProdInputCh := false;
     prodMsg := None; pendingMsgCount := 0; Input := []; replyCh := [];
     deadMessageCh := []; asyncClose := 0 |}.

(** The order of the places of [dispatcher]: control only moves down. *)
Definition phase_rank (p : phase) : nat :=
  match p with
  | normal => 0
  | gracefulShutdown => 1
  | shutdownNow => 2
  | returned => 3
  end.

(** [AsyncClose] has been called exactly once when control is past the
    label [shutdownNow], and not before; and the drain loop is only entered
    or re-entered with results still pending. *)
Definition closes_once (d : dispatcher) : Prop :=
  asyncClose d
  = match at_ d with
    | normal | gracefulShutdown => 0%nat
    | shutdownNow | returned => 1%nat
    end /\
  (at_ d = gracefulShutdown -> 0 < pendingMsgCount d).

(** The message that [Produce] sends on [dispatcherCh]; [replyCh] is the
    channel it makes for the reply, on which it then waits.  And the one
    that [AsyncProduce] sends. *)
Definition Produce (topic : string) (key message : list Byte.byte)
    (replyCh : chan) : ProducerMessage :=
  {| pm_Topic := topic; pm_Key := key; pm_Value := message;
     Metadata := Some replyCh |}.

Definition AsyncProduce (topic : string) (key message : list Byte.byte)
  : ProducerMessage :=
  {| pm_Topic := topic; pm_Key := key; pm_Value := message;
     Metadata := None |}.

(** *** The merger *)

(** What arrives on the [Errors()] channel of the sarama producer. *)
Record ProducerError : Type := {
  pe_Msg : ProducerMessage;
  pe_Err : option error
}.

(** The local variables of [merger], what it sent on [resultCh], and
    whether it has closed [resultCh] (and returned). *)
Record mergerState : Type := {
  nilOrProdSuccessesCh : bool;
  nilOrProdErrorsCh : bool;
  channelsOpened : Z;
  resultCh : list ProduceResult;
  resultCh_closed_ : bool
}.

(** The two arms of the [select] of [merger]; each receive yields a value
    or finds the channel closed. *)
Inductive merger_event : Type :=
| successes_recv (ackedMsg : ProducerMessage)
| successes_closed
| errors_recv (prodErr : ProducerError)
| errors_closed.

(** The head of [for channelsOpened := 2; channelsOpened > 0;]: go on, or
    leave the loop and close [resultCh]. *)
Definition merge_head (m : mergerState) : mergerState :=
  if 0 <? channelsOpened m then m
  else
    {| nilOrProdSuccessesCh := nilOrProdSuccessesCh m;
       nilOrProdErrorsCh := nilOrProdErrorsCh m;
       channelsOpened := channelsOpened m;
       resultCh := resultCh m; resultCh_closed_ := true |}.

Definition send_result (r : ProduceResult) (m : mergerState) : mergerState :=
  {| nilOrProdSuccessesCh := nilOrProdSuccessesCh m;
     nilOrProdErrorsCh := nilOrProdErrorsCh m;
     channelsOpened := channelsOpened m;
     resultCh := resultCh m ++ [r];
     resultCh_closed_ := resultCh_closed_ m |}.

(** One turn of [merger]; [None] when the arm cannot fire (its channel
    variable is nil, or the merger has returned). *)
Definition merger_step (m : mergerState) (e : merger_event)
  : option mergerState :=
  if resultCh_closed_ m then None else
  match e with
  | successes_recv ackedMsg =>
    if nilOrProdSuccessesCh m
    then Some (merge_head
                 (send_result {| Msg := ackedMsg; Err := None |} m))
    else None
  | successes_closed =>
    if nilOrProdSuccessesCh m
    then Some (merge_head
                 {| nilOrProdSuccessesCh := false;
                    nilOrProdErrorsCh := nilOrProdErrorsCh m;
                    channelsOpened := wrap64 (channelsOpened m - 1);
                    resultCh := resultCh m;
                    resultCh_closed_ := resultCh_closed_ m |})
    else None
  | errors_recv prodErr =>
    if nilOrProdErrorsCh m
    then Some (merge_head
                 (send_result {| Msg := pe_Msg prodErr;
                                 Err := pe_Err prodErr |} m))
    else None
  | errors_closed =>
    if nilOrProdErrorsCh m
    then Some (merge_head
                 {| nilOrProdSuccessesCh := nilOrProdSuccessesCh m;
                    nilOrProdErrorsCh := false;
                    channelsOpened := wrap64 (channelsOpened m - 1);
                    resultCh := resultCh m;
                    resultCh_closed_ := resultCh_closed_ m |})
    else None
  end.

Fixpoint merger_run (m : mergerState) (evs : list merger_event)
  : option mergerState :=
  match evs with
  | [] => Some m
  | e :: evs' =>
    match merger_step m e with
    | Some m' => merger_run m' evs'
    | None => None
    end
  end.

(** [merger] as [SpawnKafkaProducer] starts it. *)
Definition merger_start : mergerState :=
  {| nilOrProdSuccessesCh := true; nilOrProdErrorsCh := true;
     channelsOpened := 2; resultCh := []; resultCh_closed_ := false |}.

(** The result that an event of the sarama producer stands for, and the
    two events that tell of a closed channel. *)
Definition merged (e : merger_event) : list ProduceResult :=
  match e with
  | successes_recv ackedMsg => [{| Msg := ackedMsg; Err := None |}]
  | errors_recv prodErr =>
    [{| Msg := pe_Msg prodErr; Err := pe_Err prodErr |}]
  | _ => []
  end.

Definition successes_done (e : merger_event) : bool :=
  match e with successes_closed => true | _ => false end.

Definition errors_done (e : merger_event) : bool :=
  match e with errors_closed => true | _ => false end.

(** The channels of the sarama producer that [merger] still reads, counted
    as [channelsOpened] counts them. *)
Definition merger_ok (m : mergerState) : Prop :=
  channelsOpened m
  = (if nilOrProdSuccessesCh m then 1 else 0)
    + (if nilOrProdErrorsCh m then 1 else 0) /\
  resultCh_closed_ m
  = negb (nilOrProdSuccessesCh m) && negb (nilOrProdErrorsCh m).

(** *** The representation of keys and values in the log *)

(** [sarama.Encoder], by the cases that [encoderRepr] tells apart: a
    [StringEncoder] is its string (a Go string is a sequence of bytes), a
    [ByteEncoder] is its bytes, and any other encoder is taken by what
    [fmt.Sprint] prints for it. *)
Inductive Encoder : Type :=
| StringEncoder (s : list Byte.byte)
| ByteEncoder (b : list Byte.byte)
| OtherEncoder (sprint : list Byte.byte).

Definition maxEncoderReprLength : nat := 4096.

(** The bytes of a string literal. *)
Definition bytes (s : string) : list Byte.byte :=
  String.list_byte_of_string s.

(** The verb [%X] of Go's [fmt] on a byte slice: two upper-case
    hexadecimal digits for each byte. *)
Definition hex_digit (n : N) : Byte.byte :=
  nth (N.to_nat n) (bytes "0123456789ABCDEF") Byte.x30.

Definition sprintf_X (b : list Byte.byte) : list Byte.byte :=
  flat_map (fun x => [hex_digit (Byte.to_N x / 16);
                      hex_digit (Byte.to_N x mod 16)]) b.

(** [encoderRepr]; [len(repr)] counts bytes, [repr[:n]] cuts bytes, and
    [%d] prints the count in decimal. *)
Definition encoderRepr (e : Encoder) : list Byte.byte :=
  let repr :=
    match e with
    | StringEncoder s => s
    | ByteEncoder b => sprintf_X b
    | OtherEncoder sprint => sprint
    end in
  let length_ := length repr in
  if (maxEncoderReprLength <? length_)%nat
  then take maxEncoderReprLength repr ++ bytes "... ("
       ++ bytes (pretty (length_ - maxEncoderReprLength)%nat)
       ++ bytes " bytes more)"
  else repr.

(** What a string of hexadecimal digits stands for: the value of a digit,
    and the bytes that a string of pairs of digits spells. *)
Definition hex_value (c : Byte.byte) : N :=
  let n := Byte.to_N c in
  (if (48 <=? n) && (n <=? 57) then n - 48
   else if (65 <=? n) && (n <=? 70) then n - 55
   else 0)%N.

Fixpoint unhex (s : list Byte.byte) : list Byte.byte :=
  match s with
  | hi :: lo :: rest =>
    default Byte.x00 (Byte.of_N (16 * hex_value hi + hex_value lo))
    :: unhex rest
  | _ => []
  end.

End pixy.

(** ** Concrete inputs *)

Module inputs.

Import sarama msgstream.

(** A cluster with oldest 100 and newest 200, and one that does not answer. *)
Definition cluster_up : Client :=
  {| GetOffset := fun _ _ kind =>
       if bool_decide (kind = OffsetNewest) then inr 200 else inr 100 |}.

Definition cluster_down : Client :=
  {| GetOffset := fun _ _ _ => inl (OtherError "kafka: broker not connected") |}.

Definition cfg0 : Config :=
  {| Consumer_Fetch_Min := 1; Consumer_Fetch_Default := 32768;
     Consumer_Fetch_Max := 0; Consumer_MaxWaitTime := 250000000;
     Consumer_Retry_Backoff := 2000000000; Consumer_Return_Errors := false;
     ChannelBufferSize := 256 |}.

(** A response with one block for the partition. *)
Definition response_for (i : instanceID) (block : FetchResponseBlock)
  : fetchRes :=
  {| Response := Some {| Blocks := {[ i := block ]} |}; res_Err := None |}.

Definition plain (o : Z) : MessageBlock :=
  {| mb_Msg := {| msg_Offset := o; msg_Key := []; msg_Value := [] |};
     mb_Set := None |}.

Definition records (hwm : Z) (offsets : list Z) : FetchResponseBlock :=
  {| block_Err := ErrNoError; HighWaterMarkOffset := hwm;
     MsgSet := {| PartialTrailingMessage := false;
                  set_Messages := map plain offsets |} |}.

Definition partial : FetchResponseBlock :=
  {| block_Err := ErrNoError; HighWaterMarkOffset := 0;
     MsgSet := {| PartialTrailingMessage := true; set_Messages := [] |} |}.

(** A stream of ("t", 0) at offset 100 under a given configuration. *)
Definition stream_at (cfg : Config) (off : Z) : msgStream :=
  spawnMsgStream (SpawnFactory cfg cluster_up) ("t", 0) off.

(** Configurations: the maximum equal to the default (errors not returned),
    no maximum with a default of 1 GiB, and a maximum of [MaxInt32]. *)
Definition cfg_at_max : Config :=
  {| Consumer_Fetch_Min := 1; Consumer_Fetch_Default := 32768;
     Consumer_Fetch_Max := 32768; Consumer_MaxWaitTime := 250000000;
     Consumer_Retry_Backoff := 2000000000; Consumer_Return_Errors := false;
     ChannelBufferSize := 256 |}.

Definition cfg_unbounded : Config :=
  {| Consumer_Fetch_Min := 1; Consumer_Fetch_Default := 1073741824;
     Consumer_Fetch_Max := 0; Consumer_MaxWaitTime := 250000000;
     Consumer_Retry_Backoff := 2000000000; Consumer_Return_Errors := true;
     ChannelBufferSize := 256 |}.

Definition cfg_max_int32 : Config :=
  {| Consumer_Fetch_Min := 1; Consumer_Fetch_Default := 1073741824;
     Consumer_Fetch_Max := 2147483647; Consumer_MaxWaitTime := 250000000;
     Consumer_Retry_Backoff := 2000000000; Consumer_Return_Errors := true;
     ChannelBufferSize := 256 |}.

(** A maximum of four times the default. *)
Definition cfg_bounded : Config :=
  {| Consumer_Fetch_Min := 1; Consumer_Fetch_Default := 32768;
     Consumer_Fetch_Max := 131072; Consumer_MaxWaitTime := 250000000;
     Consumer_Retry_Backoff := 2000000000; Consumer_Return_Errors := false;
     ChannelBufferSize := 256 |}.

(** The loop of a stream of ("t", 0) at [off], assigned the executor whose
    input is channel 7 and with its first request sent. *)
Definition requested (cfg : Config) (off : Z) : loop :=
  default (start (stream_at cfg off) 9)
          (run cfg (start (stream_at cfg off) 9)
               [assignment (Some 7%nat) 0; requestSent]).

(** That loop after a batch of three messages arrived and the first of them
    was pushed. *)
Definition pushing : loop :=
  default (requested cfg0 100)
          (run cfg0 (requested cfg0 100)
               [fetchResult
                  (response_for ("t", 0) (records 105 [100; 101; 102]))
                  0 true;
                messageSent]).

(** Two requests of different streams, an answer without error, and a clock
    reading (in nanoseconds since the zero time). *)
Definition request1 : fetchReq :=
  {| fr_Topic := "t"; fr_Partition := 0; fr_Offset := 100;
     fr_MaxBytes := 32768; fr_Lag := 0; ReplyToCh := 1%nat |}.

Definition request2 : fetchReq :=
  {| fr_Topic := "t"; fr_Partition := 1; fr_Offset := 7;
     fr_MaxBytes := 32768; fr_Lag := 0; ReplyToCh := 2%nat |}.

Definition fetch_ok : FetchRequest -> fetchOutcome :=
  fun _ => (Some {| Blocks := ∅ |}, None).

Definition fetch_fails : FetchRequest -> fetchOutcome :=
  fun _ => (None, Some (OtherError "EOF")).

Definition today : Time := 63900000000000000000.

(** A synchronous submission (reply channel 5), an asynchronous one, and
    their results. *)
Definition sync_msg : pixy.ProducerMessage :=
  {| pixy.pm_Topic := "t"; pixy.pm_Key := []; pixy.pm_Value := [];
     pixy.Metadata := Some 5%nat |}.

Definition async_msg : pixy.ProducerMessage :=
  {| pixy.pm_Topic := "t"; pixy.pm_Key := []; pixy.pm_Value := [];
     pixy.Metadata := None |}.

Definition sync_ok : pixy.ProduceResult :=
  {| pixy.Msg := sync_msg; pixy.Err := None |}.

Definition async_failed : pixy.ProduceResult :=
  {| pixy.Msg := async_msg; pixy.Err := Some (OtherError "EOF") |}.

(** What the sarama producer reports for the two submissions, and then
    the close of both of its channels. *)
Definition reports : list pixy.merger_event :=
  [pixy.successes_recv sync_msg;
   pixy.errors_recv {| pixy.pe_Msg := async_msg;
                       pixy.pe_Err := Some (OtherError "EOF") |};
   pixy.successes_closed; pixy.errors_closed].

(** The dispatcher in its drain loop, with one result pending. *)
Definition waiting_for_one : pixy.dispatcher :=
  default pixy.start
          (pixy.run true pixy.start
                    [pixy.dispatcherCh_recv sync_msg; pixy.input_sent;
                     pixy.dispatcherCh_closed]).

End inputs.

(** * Properties *)

Import sarama.

(** ** The stream factory *)

Section factory_properties.

Import msgstream inputs.

Lemma chooseStartingOffset_ok (f : factory) topic partition off v :
  chooseStartingOffset f topic partition off = (v, None) ->
  exists newest oldest,
    GetOffset (client f) topic partition OffsetNewest = inr newest /\
    GetOffset (client f) topic partition OffsetOldest = inr oldest /\
    v = (if bool_decide (off = OffsetNewest) || (newest <? off) then newest
         else if bool_decide (off = OffsetOldest) || (off <? oldest)
              then oldest else off).
Proof.
  unfold chooseStartingOffset.
  destruct (GetOffset _ _ _ OffsetNewest) as [e|newest]; [discriminate|].
  destruct (GetOffset _ _ _ OffsetOldest) as [e|oldest]; [discriminate|].
  intros H. exists newest, oldest. repeat split.
  destruct (bool_decide (off = OffsetNewest) || (newest <? off)).
  - congruence.
  - destruct (bool_decide (off = OffsetOldest) || (off <? oldest));
      congruence.
Qed.

Lemma chooseStartingOffset_err (f : factory) topic partition off v e :
  chooseStartingOffset f topic partition off = (v, Some e) -> v = 0.
Proof.
  unfold chooseStartingOffset.
  destruct (GetOffset _ _ _ OffsetNewest) as [?|newest]; [congruence|].
  destruct (GetOffset _ _ _ OffsetOldest) as [?|oldest]; [congruence|].
  repeat case_match; congruence.
Qed.

(** The three ways out of [SpawnMessageStream]. *)
Lemma SpawnMessageStream_cases (f : factory) topic partition off :
  (exists v e, chooseStartingOffset f topic partition off = (v, Some e) /\
     SpawnMessageStream f topic partition off
     = (f, None, OffsetNewest, Some e))
  \/
  (exists v p, chooseStartingOffset f topic partition off = (v, None) /\
     children f !! (topic, partition) = Some p /\
     SpawnMessageStream f topic partition off
     = (f, None, OffsetNewest, Some AlreadyConsuming))
  \/
  (exists v, chooseStartingOffset f topic partition off = (v, None) /\
     children f !! (topic, partition) = None /\
     SpawnMessageStream f topic partition off
     = ({| saramaCfg := saramaCfg f; client := client f;
           children := <[(topic, partition) := length (streams f)]>
                         (children f);
           streams := streams f
                      ++ [spawnMsgStream f (topic, partition) v];
           WorkerSpawned := WorkerSpawned f ++ [length (streams f)];
           WorkerStopped := WorkerStopped f |},
        Some (length (streams f)), v, None)).
Proof.
  unfold SpawnMessageStream.
  destruct (chooseStartingOffset f topic partition off) as [v [e|]].
  - left. eauto.
  - destruct (children f !! (topic, partition)) as [p|] eqn:Hc.
    + right; left. eauto.
    + right; right. eauto.
Qed.

(** C1.  Every spawn that succeeds obtained both boundaries from the
    cluster and returns the offset resolved against them, which is also
    the offset the new stream starts from: with boundaries
    [0 <= oldest <= newest], the Oldest sentinel or a literal below
    [oldest] gives [oldest], the Newest sentinel or a literal above
    [newest] gives [newest], and a literal within the two is returned as
    it is. *)
Theorem spawn_resolves_offset (f f' : factory) (topic : string)
    (partition off actual : Z) (t : option ptr) :
  SpawnMessageStream f topic partition off = (f', t, actual, None) ->
  exists newest oldest p m,
    GetOffset (client f) topic partition OffsetNewest = inr newest /\
    GetOffset (client f) topic partition OffsetOldest = inr oldest /\
    t = Some p /\ streams f' !! p = Some m /\ offset m = actual /\
    (0 <= oldest <= newest ->
     (off = OffsetOldest \/ (literal off /\ off < oldest) ->
      actual = oldest) /\
     (off = OffsetNewest \/ (literal off /\ newest < off) ->
      actual = newest) /\
     (literal off -> oldest <= off <= newest -> actual = off)).
Proof.
  intros Hs.
  destruct (SpawnMessageStream_cases f topic partition off)
    as [(v & e & _ & H) | [(v & p & _ & _ & H) | (v & Hc & _ & H)]];
    rewrite H in Hs; try discriminate.
  injection Hs as <- <- <-.
  apply chooseStartingOffset_ok in Hc as (newest & oldest & Hn & Ho & ->).
  exists newest, oldest, (length (streams f)),
    (spawnMsgStream f (topic, partition)
       (if bool_decide (off = OffsetNewest) || (newest <? off) then newest
        else if bool_decide (off = OffsetOldest) || (off <? oldest)
             then oldest else off)).
  repeat split; try assumption.
  - cbn. apply list_lookup_middle. reflexivity.
  - intros [-> | [[Hl1 Hl2] Hlt]].
    + rewrite bool_decide_eq_false_2 by (unfold OffsetOldest, OffsetNewest; lia).
      replace (newest <? OffsetOldest) with false
        by (symmetry; apply Z.ltb_ge; unfold OffsetOldest; lia).
      rewrite bool_decide_eq_true_2 by reflexivity. reflexivity.
    + rewrite bool_decide_eq_false_2 by assumption.
      replace (newest <? off) with false by (symmetry; apply Z.ltb_ge; lia).
      cbn. replace (off <? oldest) with true
        by (symmetry; apply Z.ltb_lt; lia).
      rewrite orb_true_r. reflexivity.
  - intros [-> | [[Hl1 Hl2] Hlt]].
    + rewrite bool_decide_eq_true_2 by reflexivity. reflexivity.
    + replace (newest <? off) with true by (symmetry; apply Z.ltb_lt; lia).
      rewrite orb_true_r. reflexivity.
  - intros [Hl1 Hl2] Hr.
    rewrite !bool_decide_eq_false_2 by assumption.
    replace (newest <? off) with false by (symmetry; apply Z.ltb_ge; lia).
    replace (off <? oldest) with false by (symmetry; apply Z.ltb_ge; lia).
    reflexivity.
Qed.

Lemma spawn_error_offset (f f' : factory) topic partition off actual t err :
  SpawnMessageStream f topic partition off = (f', t, actual, Some err) ->
  actual = OffsetNewest /\ t = None /\ f' = f /\
  ((chooseStartingOffset f topic partition off = (0, Some err))
   \/ (is_Some (children f !! (topic, partition)) /\ err = AlreadyConsuming)).
Proof.
  intros Hs.
  destruct (SpawnMessageStream_cases f topic partition off)
    as [(v & e & Hc & H) | [(v & p & Hc & Hp & H) | (v & Hc & _ & H)]];
    rewrite H in Hs; try discriminate; injection Hs as <- <- <- <-.
  - repeat split. left.
    pose proof (chooseStartingOffset_err _ _ _ _ _ _ Hc). congruence.
  - repeat split. right. split; [eauto | reflexivity].
Qed.

(** C10.  Whenever [SpawnMessageStream] returns an error, which happens
    exactly when a boundary lookup fails or the partition already has an
    entry, the offset returned with it is the Newest sentinel and no stream
    is returned.  It is not the 0 that the failed lookup produced, and it is
    not taken from the requested offset: any other requested offset that
    ends in an error gives the same value, which differs from the requested
    offset unless the caller asked for the Newest sentinel itself. *)
Theorem spawn_error_returns_newest (f f' : factory) (topic : string)
    (partition off actual : Z) (t : option ptr) (err : error) :
  SpawnMessageStream f topic partition off = (f', t, actual, Some err) ->
  actual = OffsetNewest /\ actual <> 0 /\ t = None /\
  (off <> OffsetNewest -> actual <> off) /\
  (forall off' f'' t' actual' err',
     SpawnMessageStream f topic partition off' = (f'', t', actual', Some err')
     -> actual' = actual) /\
  ((chooseStartingOffset f topic partition off = (0, Some err))
   \/ (is_Some (children f !! (topic, partition))
       /\ err = AlreadyConsuming)).
Proof.
  intros Hs.
  destruct (spawn_error_offset _ _ _ _ _ _ _ _ Hs) as (-> & -> & _ & Hwhy).
  split; [reflexivity |]. split; [discriminate |]. split; [reflexivity |].
  split; [congruence |]. split; [| exact Hwhy].
  intros off' f'' t' actual' err' Hs'.
  by destruct (spawn_error_offset _ _ _ _ _ _ _ _ Hs') as (-> & _).
Qed.

Lemma registry_ok_SpawnFactory cfg c : registry_ok (SpawnFactory cfg c).
Proof.
  split; cbn.
  - intros i p H. rewrite lookup_empty in H. discriminate.
  - intros p m H. rewrite lookup_nil in H. discriminate.
Qed.

Lemma registry_ok_spawn (f : factory) topic partition off :
  registry_ok f ->
  registry_ok (SpawnMessageStream f topic partition off).1.1.1.
Proof.
  intros [H1 H2].
  destruct (SpawnMessageStream_cases f topic partition off)
    as [(v & e & _ & H) | [(v & p & _ & _ & H) | (v & _ & Hnone & H)]];
    rewrite H; cbn; [by split | by split |].
  split; cbn.
  - intros i p Hi.
    destruct (decide ((topic, partition) = i)) as [<- | Hne].
    + rewrite lookup_insert_eq in Hi. injection Hi as <-.
      eexists. split; [apply list_lookup_middle; reflexivity | by split].
    + rewrite lookup_insert_ne in Hi by assumption.
      destruct (H1 i p Hi) as (m & Hm & Hid & Hcl).
      exists m. split; [| by split].
      rewrite lookup_app_l; [assumption |].
      by apply lookup_lt_Some in Hm.
  - intros p m Hm Hcl.
    destruct (decide (p < length (streams f))%nat) as [Hlt | Hge].
    + rewrite lookup_app_l in Hm by assumption.
      pose proof (H2 p m Hm Hcl) as Hc.
      rewrite lookup_insert_ne; [assumption |].
      intros Heq. rewrite <- Heq in Hc. rewrite Hnone in Hc. discriminate.
    + assert (p = length (streams f)) as ->.
      { apply lookup_lt_Some in Hm. rewrite length_app in Hm. cbn in Hm.
        lia. }
      rewrite list_lookup_middle in Hm by reflexivity.
      injection Hm as <-. cbn. apply lookup_insert_eq.
Qed.

Lemma registry_ok_Stop (f f' : factory) (p : ptr) :
  registry_ok f -> msgStream_Stop f p = Some f' -> registry_ok f'.
Proof.
  intros [H1 H2]. unfold msgStream_Stop.
  destruct (streams f !! p) as [m|] eqn:Hm; [| discriminate].
  destruct (closingCh m) eqn:Hcl; [discriminate |].
  intros [= <-]. split; cbn.
  - intros i q Hi.
    destruct (decide (id m = i)) as [<- | Hne].
    + rewrite lookup_delete_eq in Hi. discriminate.
    + rewrite lookup_delete_ne in Hi by assumption.
      destruct (H1 i q Hi) as (m' & Hm' & Hid & Hcl').
      exists m'. split; [| by split].
      rewrite list_lookup_insert_ne; [assumption |].
      intros ->. congruence.
  - intros q m' Hm' Hcl'.
    destruct (decide (p = q)) as [<- | Hne].
    + rewrite list_lookup_insert_eq in Hm' by (by apply lookup_lt_Some in Hm).
      injection Hm' as <-. discriminate.
    + rewrite list_lookup_insert_ne in Hm' by assumption.
      pose proof (H2 q m' Hm' Hcl') as Hq.
      pose proof (H2 p m Hm Hcl) as Hp.
      rewrite lookup_delete_ne; [assumption |].
      intros Heq. rewrite Heq in Hp. congruence.
Qed.

Lemma registry_ok_ops (os : list factory_op) (f f' : factory) :
  registry_ok f -> apply_ops f os = Some f' -> registry_ok f'.
Proof.
  revert f. induction os as [| o os IH]; intros f Hok; cbn.
  - by intros [= <-].
  - destruct (apply_op f o) as [f1|] eqn:Ho; [| discriminate].
    apply IH. destruct o as [topic partition off | p | c]; cbn in Ho.
    + injection Ho as <-. by apply registry_ok_spawn.
    + by eapply registry_ok_Stop.
    + injection Ho as <-. exact Hok.
Qed.

(** C8, as stated, fails: with a stream registered for ("t", 0) and the
    cluster not answering, the second spawn returns the error of the
    boundary lookup, not AlreadyConsuming. *)
Lemma second_spawn_not_always_AlreadyConsuming :
  ~ (forall cfg c os f topic partition off,
       apply_ops (SpawnFactory cfg c) os = Some f ->
       is_Some (children f !! (topic, partition)) ->
       (SpawnMessageStream f topic partition off).2 = Some AlreadyConsuming).
Proof.
  intros H.
  specialize (H cfg0 cluster_up
                [op_spawn "t" 0 OffsetOldest; op_cluster cluster_down]
                _ "t" 0 OffsetOldest eq_refl).
  cbn in H. discriminate H. by eexists.
Qed.

(** C8, amended.  In every factory reached from [SpawnFactory] by spawns and
    stops, the live streams of one (topic, partition) are one stream, the one
    [children] holds for it.  A spawn for a partition that has an entry
    returns no stream, the Newest sentinel and an error, and leaves the
    factory as it was ([children], the streams, what the mapper was sent);
    the error is AlreadyConsuming when both boundary lookups succeed, and the
    lookup's error otherwise. *)
Theorem one_stream_per_partition (cfg : Config) (c : Client)
    (os : list factory_op) (f : factory) :
  apply_ops (SpawnFactory cfg c) os = Some f ->
  (forall p q i, live f p -> live f q ->
     stream_id f p = Some i -> stream_id f q = Some i -> p = q) /\
  (forall i p, children f !! i = Some p <-> live f p /\ stream_id f p = Some i)
  /\
  (forall topic partition off,
     is_Some (children f !! (topic, partition)) ->
     exists err,
       SpawnMessageStream f topic partition off
       = (f, None, OffsetNewest, Some err) /\
       ((chooseStartingOffset f topic partition off).2 = None ->
        err = AlreadyConsuming) /\
       (forall e, (chooseStartingOffset f topic partition off).2 = Some e ->
        err = e)).
Proof.
  intros Hreach.
  assert (registry_ok f) as [H1 H2]
    by (eapply registry_ok_ops; [apply registry_ok_SpawnFactory | eassumption]).
  assert (forall i p, children f !! i = Some p <->
                      live f p /\ stream_id f p = Some i) as Hiff.
  { intros i p. unfold live, stream_id. split.
    - intros Hi. destruct (H1 i p Hi) as (m & Hm & Hid & Hcl).
      split; [by exists m |]. rewrite Hm. cbn. by rewrite Hid.
    - intros [(m & Hm & Hcl) Hid]. rewrite Hm in Hid. cbn in Hid.
      injection Hid as <-. by apply H2. }
  split; [| split; [exact Hiff |]].
  - intros p q i Hp Hq Hip Hiq.
    assert (children f !! i = Some p) as Ep by (by apply Hiff).
    assert (children f !! i = Some q) as Eq by (by apply Hiff).
    congruence.
  - intros topic partition off [p Hp].
    destruct (SpawnMessageStream_cases f topic partition off)
      as [(v & e & Hc & H) | [(v & p' & Hc & _ & H) | (v & _ & Hnone & _)]].
    + exists e. rewrite Hc. cbn. split; [assumption |].
      split; [discriminate | by intros ? [= <-]].
    + exists AlreadyConsuming. rewrite Hc. cbn. split; [assumption |].
      split; [reflexivity | discriminate].
    + congruence.
Qed.

(** The amended C8 at work: after a spawn for ("t", 0), a second one. *)
Lemma one_stream_per_partition_witness :
  exists f,
    apply_ops (SpawnFactory cfg0 cluster_up) [op_spawn "t" 0 50] = Some f /\
    SpawnMessageStream f "t" 0 9999
    = (f, None, OffsetNewest, Some AlreadyConsuming).
Proof.
  eexists. split; [reflexivity |].
  destruct (one_stream_per_partition cfg0 cluster_up [op_spawn "t" 0 50] _
              eq_refl) as (_ & _ & H).
  destruct (H "t" 0 9999) as (err & Hs & Hok & _); [by eexists |].
  rewrite Hs. by rewrite (Hok eq_refl).
Defined.

(** Scenario S2 through C1: oldest 100, newest 200, a spawn at 50. *)
Lemma spawn_resolves_offset_witness :
  exists f' m,
    SpawnMessageStream (SpawnFactory cfg0 cluster_up) "t" 0 50
    = (f', Some 0%nat, 100, None) /\
    streams f' !! 0%nat = Some m /\ offset m = 100.
Proof.
  set (f' := (SpawnMessageStream (SpawnFactory cfg0 cluster_up) "t" 0 50).1.1.1).
  assert (SpawnMessageStream (SpawnFactory cfg0 cluster_up) "t" 0 50
          = (f', Some 0%nat, 100, None)) as Hs by (vm_compute; reflexivity).
  destruct (spawn_resolves_offset _ _ _ _ _ _ _ Hs)
    as (newest & oldest & p & m & _ & _ & [= <-] & Hm & Hoff & _).
  exists f', m. by repeat split.
Defined.

(** C10 on a cluster that does not answer. *)
Lemma spawn_error_returns_newest_witness :
  exists f' err,
    SpawnMessageStream (SpawnFactory cfg0 cluster_down) "t" 0 50
    = (f', None, -1, Some err).
Proof.
  set (f' := (SpawnMessageStream (SpawnFactory cfg0 cluster_down) "t" 0 50).1.1.1).
  assert (SpawnMessageStream (SpawnFactory cfg0 cluster_down) "t" 0 50
          = (f', None, OffsetNewest,
             Some (OtherError "kafka: broker not connected"))) as Hs
      by (vm_compute; reflexivity).
  destruct (spawn_error_returns_newest _ _ _ _ _ _ _ _ Hs) as (Ha & _).
  exists f', (OtherError "kafka: broker not connected"). exact Hs.
Defined.

End factory_properties.

(** ** Machine arithmetic *)

Section machine_properties.

Lemma wrap64_id (x : Z) : int64 x -> wrap64 x = x.
Proof.
  unfold int64, MinInt64, MaxInt64, wrap64, wrap. intros H.
  change (2 ^ (64 - 1)) with 9223372036854775808.
  change (2 ^ 64) with 18446744073709551616.
  change (2 ^ 63) with 9223372036854775808 in H.
  rewrite Z.mod_small; lia.
Qed.

Lemma wrap32_id (x : Z) : int32 x -> wrap32 x = x.
Proof.
  unfold int32, MinInt32, MaxInt32, wrap32, wrap. intros H.
  change (2 ^ (32 - 1)) with 2147483648.
  change (2 ^ 32) with 4294967296.
  change (2 ^ 31) with 2147483648 in H.
  rewrite Z.mod_small; lia.
Qed.

Lemma wrap64_add_l (a b : Z) : wrap64 (wrap64 a + b) = wrap64 (a + b).
Proof.
  unfold wrap64, wrap.
  replace ((a + 2 ^ (64 - 1)) mod 2 ^ 64 - 2 ^ (64 - 1) + b + 2 ^ (64 - 1))
    with ((a + 2 ^ (64 - 1)) mod 2 ^ 64 + b) by lia.
  rewrite Zplus_mod_idemp_l. f_equal. f_equal. lia.
Qed.

End machine_properties.

(** ** The message stream *)

Section stream_properties.

Import msgstream inputs.

Variable cfg : Config.

Lemma reportError_fields (m : msgStream) e room :
  id (reportError cfg m e room) = id m /\
  offset (reportError cfg m e room) = offset m /\
  fetchSize (reportError cfg m e room) = fetchSize m /\
  lag (reportError cfg m e room) = lag m /\
  messagesCh (reportError cfg m e room) = messagesCh m /\
  assignedBrokerRequestCh (reportError cfg m e room)
  = assignedBrokerRequestCh m /\
  nilOrBrokerRequestsCh (reportError cfg m e room) = nilOrBrokerRequestsCh m.
Proof.
  unfold reportError.
  destruct (Consumer_Return_Errors cfg), room; cbn; repeat split.
Qed.

Lemma reportError_errorsCh (m : msgStream) e room :
  errorsCh (reportError cfg m e room)
  = errorsCh m ++
    (if Consumer_Return_Errors cfg && room
     then [{| err_Topic := (id m).1; err_Partition := (id m).2;
              err_Err := e |}]
     else []).
Proof.
  unfold reportError.
  destruct (Consumer_Return_Errors cfg), room; cbn;
    try reflexivity; by rewrite app_nil_r.
Qed.

Lemma trigger_fields (m : msgStream) now :
  id (triggerOrScheduleReassign cfg m now) = id m /\
  offset (triggerOrScheduleReassign cfg m now) = offset m /\
  fetchSize (triggerOrScheduleReassign cfg m now) = fetchSize m /\
  lag (triggerOrScheduleReassign cfg m now) = lag m /\
  messagesCh (triggerOrScheduleReassign cfg m now) = messagesCh m /\
  errorsCh (triggerOrScheduleReassign cfg m now) = errorsCh m /\
  nilOrBrokerRequestsCh (triggerOrScheduleReassign cfg m now)
  = nilOrBrokerRequestsCh m.
Proof.
  unfold triggerOrScheduleReassign.
  destruct (_ <? _); cbn; repeat split.
Qed.

(** The two nested loops keep the messages at or past the stream's offset,
    in order, and leave in [lag] the distance of the last one kept. *)
Lemma parse_fold (block : FetchResponseBlock) (msgs : list Msg) :
  forall (acc : list Message) (m : msgStream),
    fold_left (parseMsg block) msgs (acc, m)
    = (acc ++ map (consumerMessage m block)
                  (List.filter (keep (offset m)) msgs),
       match last (List.filter (keep (offset m)) msgs) with
       | Some msg =>
         set_lag (wrap64 (HighWaterMarkOffset block - msg_Offset msg)) m
       | None => m
       end).
Proof.
  induction msgs as [| msg msgs IH]; intros acc m.
  - cbn. by rewrite app_nil_r.
  - cbn [fold_left List.filter parseMsg].
    assert ((msg_Offset msg <? offset m) = negb (keep (offset m) msg)) as ->
      by (unfold keep; by rewrite negb_involutive).
    destruct (keep (offset m) msg) eqn:E; cbn [negb].
    2: apply IH.
    + rewrite IH. cbn [offset set_lag map]. rewrite <- app_assoc. cbn [app].
      f_equal.
      destruct (List.filter (keep (offset m)) msgs) as [| x l] eqn:El.
      * reflexivity.
      * rewrite last_cons_cons. destruct (last (x :: l)) eqn:EE.
        -- reflexivity.
        -- apply last_None in EE. discriminate.
Qed.

(** What [parseFetchResult] does, case by case. *)
Lemma parse_cases (m : msgStream) (result : fetchRes) (room : bool) :
  (exists e, parseFetchResult cfg m result room = (m, [], Some e) /\
     forall block, ~ result_block m result block)
  \/
  (exists block, result_block m result block /\
     set_Messages (MsgSet block) = [] /\
     PartialTrailingMessage (MsgSet block) = false /\
     parseFetchResult cfg m result room = (m, [], None))
  \/
  (exists block, result_block m result block /\ empty_partial block /\
     0 < Consumer_Fetch_Max cfg /\ fetchSize m = Consumer_Fetch_Max cfg /\
     parseFetchResult cfg m result room
     = (set_offset (wrap64 (offset m + 1))
                   (reportError cfg m ErrMessageTooLarge room), [], None))
  \/
  (exists block, result_block m result block /\ empty_partial block /\
     ~ (0 < Consumer_Fetch_Max cfg /\ fetchSize m = Consumer_Fetch_Max cfg) /\
     parseFetchResult cfg m result room
     = (set_fetchSize
          (if (0 <? Consumer_Fetch_Max cfg)
              && (Consumer_Fetch_Max cfg <? wrap32 (fetchSize m * 2))
           then Consumer_Fetch_Max cfg else wrap32 (fetchSize m * 2)) m,
        [], None))
  \/
  (exists block, result_block m result block /\
     set_Messages (MsgSet block) <> [] /\
     let kept := retained (offset m) block in
     let m' :=
       match last kept with
       | Some msg =>
         set_lag (wrap64 (HighWaterMarkOffset block - msg_Offset msg))
                 (set_fetchSize (Consumer_Fetch_Default cfg) m)
       | None => set_fetchSize (Consumer_Fetch_Default cfg) m
       end in
     parseFetchResult cfg m result room
     = if bool_decide (kept = [])
       then (m', [], Some ErrIncompleteResponse)
       else (m', map (consumerMessage m block) kept, None)).
Proof.
  unfold parseFetchResult, result_block.
  destruct (res_Err result) as [e|] eqn:Ee.
  { left. exists e. split; [reflexivity |]. intros b [? _]. congruence. }
  destruct (Response result) as [r|] eqn:Er.
  2:{ left. eexists. split; [reflexivity |].
      intros b [_ (r & ? & _)]. congruence. }
  destruct (GetBlock r (id m).1 (id m).2) as [block|] eqn:Eb.
  2:{ left. eexists. split; [reflexivity |].
      intros b [_ (r' & ? & ? & _)]. congruence. }
  destruct (block_Err block =? ErrNoError) eqn:Ek; cbn [negb].
  2:{ left. eexists. split; [reflexivity |].
      intros b [_ (r' & ? & ? & ?)]. apply Z.eqb_neq in Ek. congruence. }
  apply Z.eqb_eq in Ek.
  assert (res_Err result = None /\
          exists r0, Response result = Some r0 /\
            GetBlock r0 (id m).1 (id m).2 = Some block /\
            block_Err block = ErrNoError) as Hrb by eauto 6.
  rewrite Ee, Er in Hrb.
  right.
  destruct (set_Messages (MsgSet block)) as [| mb mbs] eqn:Em; cbn [length Nat.eqb].
  - destruct (PartialTrailingMessage (MsgSet block)) eqn:Ep.
    + right.
      destruct ((0 <? Consumer_Fetch_Max cfg)
                && (fetchSize m =? Consumer_Fetch_Max cfg)) eqn:Ec.
      * left. apply andb_true_iff in Ec as [E1 E2].
        apply Z.ltb_lt in E1. apply Z.eqb_eq in E2.
        exists block. split; [exact Hrb |].
        split; [by split |]. split; [assumption |]. split; [assumption |].
        destruct (reportError_fields m ErrMessageTooLarge room)
          as (_ & -> & _). reflexivity.
      * right; left. exists block. split; [exact Hrb |].
        split; [by split |]. split.
        -- intros [E1 E2]. apply Z.ltb_lt in E1. apply Z.eqb_eq in E2.
           rewrite E1, E2 in Ec. discriminate.
        -- cbn [fetchSize set_fetchSize].
           destruct ((0 <? Consumer_Fetch_Max cfg)
                     && (Consumer_Fetch_Max cfg <? wrap32 (fetchSize m * 2)));
             reflexivity.
    + left. exists block. split; [exact Hrb |]. by repeat split.
  - right; right; right. exists block.
    split; [exact Hrb |]. split; [congruence |].
    cbn zeta. unfold retained, block_messages. rewrite Em, parse_fold.
    cbn [app fetchSize offset set_fetchSize].
    set (kept := List.filter (keep (offset m))
                   (flat_map Messages (mb :: mbs))).
    destruct kept as [| x l]; reflexivity.
Qed.

(** What the arm of a fetch result does when the block is empty with a
    partial trailing message and the fetch size is at the maximum. *)
Lemma step_oversized (s : loop) result block now room :
  awaiting s -> result_block (ms s) result block -> empty_partial block ->
  0 < Consumer_Fetch_Max cfg -> fetchSize (ms s) = Consumer_Fetch_Max cfg ->
  step cfg s (fetchResult result now room)
  = Some {| ms := set_nilOrBrokerRequestsCh
                    (assignedBrokerRequestCh (ms s))
                    (set_offset (wrap64 (offset (ms s) + 1))
                       (reportError cfg (ms s) ErrMessageTooLarge room));
            fetchResultCh := fetchResultCh s;
            nilOrFetchResultsCh := false;
            nilOrMessagesCh := nilOrMessagesCh s;
            fetchedMessages := [];
            currMessage := currMessage s;
            currMessageIdx := currMessageIdx s;
            requestsSent := requestsSent s; done_ := false |}.
Proof.
  intros (Hd & Hf & Hm & Hb) Hrb [He Hp] Hmax Hfs.
  unfold step. rewrite Hd, Hf. cbn [negb].
  destruct (parse_cases (ms s) result room)
    as [(e & _ & Hno) | [(b & Hb' & Hem & Hpt & _) |
        [(b & Hb' & _ & _ & _ & ->) | [(b & Hb' & _ & Hn & _) |
         (b & Hb' & Hne & _)]]]].
  - destruct (Hno block Hrb).
  - assert (b = block) as -> by
        (destruct Hrb as (_ & r & Hr & Hg & _), Hb' as (_ & r' & Hr' & Hg' & _);
         congruence).
    congruence.
  - cbn.
    destruct (reportError_fields (ms s) ErrMessageTooLarge room)
      as (_ & _ & _ & _ & _ & -> & _).
    reflexivity.
  - destruct Hn. by split.
  - assert (b = block) as -> by
        (destruct Hrb as (_ & r & Hr & Hg & _), Hb' as (_ & r' & Hr' & Hg' & _);
         congruence).
    congruence.
Qed.

(** C6, amended.  A stream that awaits a reply at the maximum fetch size
    ([Max > 0]) and receives a block with no messages and a partial trailing
    one calls [reportError] once with MessageTooLarge: that puts one such
    error on the errors channel when [Consumer.Return.Errors] is set and the
    channel has room, and nothing otherwise.  The offset (below [MaxInt64])
    advances by one, the fetch size stays, no message is emitted or pending,
    and the request arm is enabled again towards the assigned executor. *)
Theorem oversized_at_max_skips_one (s : loop) (result : fetchRes)
    (block : FetchResponseBlock) (now : Time) (room : bool) :
  awaiting s -> result_block (ms s) result block -> empty_partial block ->
  0 < Consumer_Fetch_Max cfg -> fetchSize (ms s) = Consumer_Fetch_Max cfg ->
  MinInt64 <= offset (ms s) < MaxInt64 ->
  exists s',
    step cfg s (fetchResult result now room) = Some s' /\
    errorsCh (ms s')
    = errorsCh (ms s) ++
      (if Consumer_Return_Errors cfg && room
       then [{| err_Topic := (id (ms s)).1; err_Partition := (id (ms s)).2;
                err_Err := ErrMessageTooLarge |}]
       else []) /\
    offset (ms s') = offset (ms s) + 1 /\
    fetchSize (ms s') = fetchSize (ms s) /\
    messagesCh (ms s') = messagesCh (ms s) /\
    nilOrMessagesCh s' = false /\
    nilOrFetchResultsCh s' = false /\
    done_ s' = false /\
    nilOrBrokerRequestsCh (ms s') = assignedBrokerRequestCh (ms s) /\
    reassigns (ms s') = reassigns (ms s).
Proof.
  intros Ha Hrb Hep Hmax Hfs Hoff.
  eexists. split; [by apply (step_oversized s result block) |].
  destruct Ha as (Hd & Hf & Hm & Hb).
  cbn.
  destruct (reportError_fields (ms s) ErrMessageTooLarge room)
    as (_ & _ & -> & _ & -> & _ & _).
  rewrite reportError_errorsCh.
  repeat split; try assumption.
  - apply wrap64_id. unfold int64. unfold MinInt64, MaxInt64 in *. lia.
  - unfold reportError.
    destruct (Consumer_Return_Errors cfg), room; reflexivity.
Qed.

Lemma step_messageSent (s : loop) (cm : Message) :
  done_ s = false -> nilOrMessagesCh s = true -> currMessage s = Some cm ->
  exists s',
    step cfg s messageSent = Some s' /\
    messagesCh (ms s') = messagesCh (ms s) ++ [cm] /\
    offset (ms s') = wrap64 (Offset cm + 1) /\
    id (ms s') = id (ms s) /\
    lag (ms s') = lag (ms s) /\
    fetchSize (ms s') = fetchSize (ms s) /\
    errorsCh (ms s') = errorsCh (ms s) /\
    assignedBrokerRequestCh (ms s') = assignedBrokerRequestCh (ms s) /\
    fetchedMessages s' = fetchedMessages s /\
    currMessageIdx s' = S (currMessageIdx s) /\
    nilOrFetchResultsCh s' = nilOrFetchResultsCh s /\
    requestsSent s' = requestsSent s /\
    done_ s' = false /\
    if (S (currMessageIdx s) <? length (fetchedMessages s))%nat
    then nilOrMessagesCh s' = true /\
         currMessage s' = fetchedMessages s !! S (currMessageIdx s) /\
         nilOrBrokerRequestsCh (ms s') = nilOrBrokerRequestsCh (ms s)
    else nilOrMessagesCh s' = false /\
         nilOrBrokerRequestsCh (ms s') = assignedBrokerRequestCh (ms s).
Proof.
  intros Hd Hm Hc. unfold step. rewrite Hd, Hm, Hc. cbn [negb].
  destruct (S (currMessageIdx s) <? length (fetchedMessages s))%nat;
    eexists; (split; [reflexivity |]); cbn; by repeat split.
Qed.

(** Pushing [j] messages in a row. *)
Lemma drain (j : nat) :
  forall s : loop,
    (0 < j)%nat -> draining s ->
    (currMessageIdx s + j <= length (fetchedMessages s))%nat ->
    exists s' cm,
      run cfg s (replicate j messageSent) = Some s' /\
      fetchedMessages s !! (currMessageIdx s + j - 1)%nat = Some cm /\
      messagesCh (ms s')
      = messagesCh (ms s)
        ++ take j (drop (currMessageIdx s) (fetchedMessages s)) /\
      offset (ms s') = wrap64 (Offset cm + 1) /\
      lag (ms s') = lag (ms s) /\
      fetchSize (ms s') = fetchSize (ms s) /\
      done_ s' = false /\
      ((currMessageIdx s + j = length (fetchedMessages s))%nat ->
       nilOrMessagesCh s' = false /\
       nilOrBrokerRequestsCh (ms s') = assignedBrokerRequestCh (ms s)).
Proof.
  induction j as [| j IH]; intros s Hj (Hd & Hm & Hc & Hlt) Hle; [lia |].
  destruct (fetchedMessages s !! currMessageIdx s) as [cm|] eqn:Hcm.
  2:{ apply lookup_ge_None in Hcm. lia. }
  destruct (step_messageSent s cm Hd Hm Hc)
    as (s1 & Hs1 & Hmsg & Hoff & Hid & Hlag & Hfs & Herr & Has & Hfm & Hidx
        & Hfr & Hrq & Hd1 & Hif).
  cbn [replicate run]. rewrite Hs1.
  rewrite (drop_S _ _ _ Hcm). cbn [take].
  destruct j as [| j].
  - exists s1, cm. cbn [replicate run].
    replace (currMessageIdx s + 1 - 1)%nat with (currMessageIdx s) by lia.
    rewrite take_0.
    do 7 (split; [first [reflexivity | assumption] |]).
    intros Hend.
    destruct (S (currMessageIdx s) <? length (fetchedMessages s))%nat
      eqn:E; [apply Nat.ltb_lt in E; lia | apply Hif].
  - assert ((S (currMessageIdx s) <? length (fetchedMessages s))%nat = true)
      as E by (apply Nat.ltb_lt; lia).
    rewrite E in Hif. destruct Hif as (Hm1 & Hc1 & Hb1).
    destruct (IH s1) as (s' & cm' & Hrun & Hlk & Hmsg' & Hoff' & Hlag' & Hfs'
                         & Hd' & Hend').
    + lia.
    + repeat split; try assumption.
      * by rewrite Hfm, Hidx.
      * rewrite Hfm, Hidx. lia.
    + rewrite Hfm, Hidx. lia.
    + exists s', cm'. rewrite Hfm, Hidx in *.
      split; [exact Hrun |].
      split; [rewrite <- Hlk; f_equal; lia |].
      split; [rewrite Hmsg', Hmsg, <- app_assoc; reflexivity |].
      split; [assumption |].
      split; [congruence |]. split; [congruence |].
      split; [assumption |].
      intros Hend. rewrite Has in Hend'. apply Hend'. lia.
Qed.

Lemma result_block_inj (m : msgStream) result b b' :
  result_block m result b -> result_block m result b' -> b = b'.
Proof.
  intros (_ & r & Hr & Hg & _) (_ & r' & Hr' & Hg' & _). congruence.
Qed.

(** The arm of a fetch result when the block has messages of which some
    are kept. *)
Lemma step_messages (s : loop) result block now room (on : Msg) :
  awaiting s -> result_block (ms s) result block ->
  set_Messages (MsgSet block) <> [] ->
  last (retained (offset (ms s)) block) = Some on ->
  exists s1,
    step cfg s (fetchResult result now room) = Some s1 /\
    draining s1 /\ currMessageIdx s1 = 0%nat /\
    fetchedMessages s1
    = map (consumerMessage (ms s) block) (retained (offset (ms s)) block) /\
    lag (ms s1) = wrap64 (HighWaterMarkOffset block - msg_Offset on) /\
    fetchSize (ms s1) = Consumer_Fetch_Default cfg /\
    offset (ms s1) = offset (ms s) /\
    messagesCh (ms s1) = messagesCh (ms s) /\
    errorsCh (ms s1) = errorsCh (ms s) /\
    id (ms s1) = id (ms s) /\
    assignedBrokerRequestCh (ms s1) = assignedBrokerRequestCh (ms s) /\
    nilOrBrokerRequestsCh (ms s1) = None /\
    nilOrFetchResultsCh s1 = false /\
    requestsSent s1 = requestsSent s.
Proof.
  intros (Hd & Hf & Hm & Hb) Hrb Hne Hlast.
  unfold step. rewrite Hd, Hf. cbn [negb].
  destruct (parse_cases (ms s) result room)
    as [(e & _ & Hno) | [(b & Hb' & Hem & _) |
        [(b & Hb' & [Hem _] & _) | [(b & Hb' & [Hem _] & _) |
         (b & Hb' & _ & Hp)]]]];
    try (destruct (Hno block Hrb));
    rewrite (result_block_inj _ _ _ _ Hb' Hrb) in *; try congruence.
  cbn zeta in Hp. rewrite Hp, Hlast.
  destruct (retained (offset (ms s)) block) as [| x l] eqn:Ek;
    [discriminate |].
  rewrite bool_decide_eq_false_2 by discriminate.
  cbn [map length Nat.eqb].
  eexists. split; [reflexivity |]. cbn.
  unfold draining. cbn. repeat split; try assumption; lia.
Qed.

(** C9, amended.  When a stream that awaits a reply receives a block with
    high-water mark [H] of which the messages [o1..on] are kept, the parse
    sets [lag] to [H - on] at once, and it stays there while the batch is
    pushed; pushing the [j]-th message sets [offset] to [oj + 1].  So after
    the [n] messages are pushed, [offset] is [on + 1] and [lag] is [H - on],
    all [n] messages are on the messages channel in order, and the request
    arm is enabled again.  (Arithmetic is that of int64.) *)
Theorem batch_drained (s : loop) (result : fetchRes)
    (block : FetchResponseBlock) (now : Time) (room : bool) (on : Msg) :
  awaiting s -> result_block (ms s) result block ->
  set_Messages (MsgSet block) <> [] ->
  last (retained (offset (ms s)) block) = Some on ->
  let kept := retained (offset (ms s)) block in
  let H := HighWaterMarkOffset block in
  exists s1,
    step cfg s (fetchResult result now room) = Some s1 /\
    fetchedMessages s1 = map (consumerMessage (ms s) block) kept /\
    lag (ms s1) = wrap64 (H - msg_Offset on) /\
    offset (ms s1) = offset (ms s) /\
    (forall (j : nat) (oj : Msg),
       kept !! j = Some oj ->
       exists sj,
         run cfg s1 (replicate (S j) messageSent) = Some sj /\
         messagesCh (ms sj)
         = messagesCh (ms s)
           ++ map (consumerMessage (ms s) block) (take (S j) kept) /\
         offset (ms sj) = wrap64 (msg_Offset oj + 1) /\
         lag (ms sj) = wrap64 (H - msg_Offset on) /\
         (S j = length kept ->
          nilOrMessagesCh sj = false /\
          nilOrBrokerRequestsCh (ms sj) = assignedBrokerRequestCh (ms s))) /\
    (int64 (msg_Offset on + 1) -> int64 (H - msg_Offset on) ->
     exists sn,
       run cfg s1 (replicate (length kept) messageSent) = Some sn /\
       messagesCh (ms sn)
       = messagesCh (ms s) ++ map (consumerMessage (ms s) block) kept /\
       offset (ms sn) = msg_Offset on + 1 /\
       lag (ms sn) = H - msg_Offset on).
Proof.
  intros Ha Hrb Hne Hlast kept H.
  destruct (step_messages s result block now room on Ha Hrb Hne Hlast)
    as (s1 & Hs1 & Hdr & Hidx & Hfm & Hlag & Hfs & Hoff & Hmsg & Herr & Hid
        & Has & Hnb & Hnf & Hrq).
  fold kept in Hfm. fold H in Hlag.
  assert (forall (j : nat) (oj : Msg),
    kept !! j = Some oj ->
    exists sj,
      run cfg s1 (replicate (S j) messageSent) = Some sj /\
      messagesCh (ms sj)
      = messagesCh (ms s)
        ++ map (consumerMessage (ms s) block) (take (S j) kept) /\
      offset (ms sj) = wrap64 (msg_Offset oj + 1) /\
      lag (ms sj) = wrap64 (H - msg_Offset on) /\
      (S j = length kept ->
       nilOrMessagesCh sj = false /\
       nilOrBrokerRequestsCh (ms sj) = assignedBrokerRequestCh (ms s)))
    as Hprefix.
  { intros j oj Hj.
    assert (j < length kept)%nat as Hjlt by (by apply lookup_lt_Some in Hj).
    destruct (drain (S j) s1) as (sj & cm & Hrun & Hlk & Hm' & Ho' & Hl' & _
                                  & _ & Hend).
    - lia.
    - exact Hdr.
    - rewrite Hidx, Hfm, length_map. lia.
    - exists sj. rewrite Hidx, Hfm in *. cbn [drop] in Hm'.
      replace (0 + S j - 1)%nat with j in Hlk by lia.
      assert (cm = consumerMessage (ms s) block oj) as ->.
      { change (map (consumerMessage (ms s) block) kept)
          with (consumerMessage (ms s) block <$> kept) in Hlk.
        rewrite list_lookup_fmap, Hj in Hlk. cbn in Hlk. congruence. }
      split; [exact Hrun |].
      split.
      { rewrite Hm', Hmsg. f_equal.
        change (map (consumerMessage (ms s) block) kept)
          with (consumerMessage (ms s) block <$> kept).
        change (map (consumerMessage (ms s) block) (take (S j) kept))
          with (consumerMessage (ms s) block <$> take (S j) kept).
        by rewrite fmap_take. }
      split; [exact Ho' |].
      split; [congruence |].
      intros Hlen. rewrite length_map in Hend. rewrite <- Has.
      apply Hend. lia. }
  exists s1. do 4 (split; [assumption |]).
  split; [exact Hprefix |].
  intros Hin1 Hin2.
  assert (exists j, length kept = S j /\ kept !! j = Some on)
    as (j & Hlen & Hj).
  { rewrite last_lookup in Hlast. fold kept in Hlast.
    destruct (length kept) as [| j] eqn:El.
    - apply length_zero_iff_nil in El. rewrite El in Hlast. discriminate.
    - exists j. by split. }
  destruct (Hprefix j on Hj) as (sn & Hrun & Hm' & Ho' & Hl' & _).
  exists sn. rewrite Hlen.
  split; [exact Hrun |].
  split; [rewrite Hm', <- Hlen, firstn_all; reflexivity |].
  split; [rewrite Ho'; by apply wrap64_id |].
  rewrite Hl'. by apply wrap64_id.
Qed.

#[local] Arguments triggerOrScheduleReassign : simpl never.
#[local] Arguments reportError : simpl never.

(** The arms of assignment, request, retry timer and closing leave the
    offset, the messages and the batch alone. *)
Lemma step_control (s s' : loop) (e : event) :
  control e -> step cfg s e = Some s' ->
  id (ms s') = id (ms s) /\ offset (ms s') = offset (ms s) /\
  messagesCh (ms s') = messagesCh (ms s) /\
  fetchedMessages s' = fetchedMessages s /\
  currMessage s' = currMessage s /\
  currMessageIdx s' = currMessageIdx s /\
  nilOrMessagesCh s' = nilOrMessagesCh s /\
  ((nilOrFetchResultsCh s' = nilOrFetchResultsCh s /\
    (nilOrBrokerRequestsCh (ms s') = nilOrBrokerRequestsCh (ms s) \/
     (nilOrFetchResultsCh s = false /\ nilOrMessagesCh s = false)))
   \/
   (nilOrFetchResultsCh s' = true /\ nilOrBrokerRequestsCh (ms s') = None /\
    is_Some (nilOrBrokerRequestsCh (ms s)))).
Proof.
  intros Hc. unfold step. destruct (done_ s); [discriminate |].
  destruct e as [[c |] now | | result now room | | now |];
    try destruct Hc.
  - intros [= <-]. cbn.
    destruct (nilOrFetchResultsCh s), (nilOrMessagesCh s); cbn;
      repeat split; left; split; auto.
  - intros [= <-]. cbn.
    destruct (trigger_fields (ms s) now) as (-> & -> & _ & _ & -> & _ & ->).
    repeat split. left. split; auto.
  - destruct (nilOrBrokerRequestsCh (ms s)) as [c |] eqn:Eb; [| discriminate].
    intros [= <-]. cbn. repeat split. right. repeat split. by eexists.
  - destruct (nilOrReassignRetryTimerCh (ms s)) as [d |]; [| discriminate].
    destruct (d <=? now); [| discriminate].
    intros [= <-]. cbn. repeat split. left. split; auto.
  - intros [= <-]. cbn. repeat split. left. split; auto.
Qed.

(** The arm of a fetch result: either nothing is to be pushed and the
    offset stays or moves on by one, or messages were kept. *)
Lemma step_fetchResult (s s' : loop) result now room :
  step cfg s (fetchResult result now room) = Some s' ->
  done_ s = false /\ nilOrFetchResultsCh s = true /\
  ((id (ms s') = id (ms s) /\
    messagesCh (ms s') = messagesCh (ms s) /\
    nilOrMessagesCh s' = nilOrMessagesCh s /\
    fetchedMessages s' = [] /\
    nilOrFetchResultsCh s' = false /\
    (offset (ms s') = offset (ms s) \/
     offset (ms s') = wrap64 (offset (ms s) + 1)))
   \/
   (exists block on,
      result_block (ms s) result block /\
      set_Messages (MsgSet block) <> [] /\
      last (retained (offset (ms s)) block) = Some on)).
Proof.
  unfold step. destruct (done_ s) eqn:Hd; [discriminate |].
  destruct (nilOrFetchResultsCh s) eqn:Hf; [| discriminate]. cbn [negb].
  intros Hs. split; [reflexivity |]. split; [reflexivity |].
  destruct (parse_cases (ms s) result room)
    as [(e & Hp & _) | [(b & _ & _ & _ & Hp) |
        [(b & _ & _ & _ & _ & Hp) | [(b & _ & _ & _ & Hp) |
         (b & Hb & Hne & Hp)]]]].
  - rewrite Hp in Hs. left.
    pose proof (reportError_fields (ms s) e room) as (R1 & R2 & _ & _ & R5 & _).
    pose proof (trigger_fields (reportError cfg (ms s) e room) now)
      as (T1 & T2 & _ & _ & T5 & _).
    destruct (bool_decide (e = ErrOffsetOutOfRange));
      injection Hs as <-; cbn; (split; [congruence |]);
      (split; [congruence |]); repeat split; left; congruence.
  - rewrite Hp in Hs. cbn in Hs. injection Hs as <-. cbn.
    left. repeat split. by left.
  - rewrite Hp in Hs. cbn in Hs. injection Hs as <-. cbn.
    pose proof (reportError_fields (ms s) ErrMessageTooLarge room)
      as (R1 & R2 & _ & _ & R5 & _).
    left. repeat split; try congruence. right. congruence.
  - rewrite Hp in Hs. cbn in Hs. injection Hs as <-. cbn.
    left. repeat split. by left.
  - cbn zeta in Hp.
    destruct (last (retained (offset (ms s)) b)) as [on |] eqn:El.
    + right. exists b, on. split; [exact Hb |]. split; [exact Hne |].
      exact El.
    + apply last_None in El. rewrite Hp, El in Hs.
      rewrite bool_decide_eq_true_2 in Hs by reflexivity.
      pose proof (trigger_fields
                    (reportError cfg
                       (set_fetchSize (Consumer_Fetch_Default cfg) (ms s))
                       ErrIncompleteResponse room) now)
        as (T1 & T2 & _ & _ & T5 & _).
      pose proof (reportError_fields
                    (set_fetchSize (Consumer_Fetch_Default cfg) (ms s))
                    ErrIncompleteResponse room) as (R1 & R2 & _ & _ & R5 & _).
      cbn in Hs, R1, R2, R5. injection Hs as <-. cbn. left.
      split; [congruence |]. split; [congruence |].
      repeat split. left. congruence.
Qed.

Lemma step_not_done (s s' : loop) (e : event) :
  step cfg s e = Some s' -> done_ s = false.
Proof. unfold step. by destruct (done_ s). Qed.

Lemma filter_ascending (f : Msg -> bool) (l : list Msg) :
  StronglySorted Z.lt (map msg_Offset l) ->
  StronglySorted Z.lt (map msg_Offset (List.filter f l)).
Proof.
  induction l as [| x l IH]; cbn; [done |].
  intros [Hall Hs]%StronglySorted_cons.
  destruct (f x); cbn; [| by apply IH].
  apply StronglySorted_cons. split; [| by apply IH].
  apply List.Forall_forall. intros o Ho.
  apply in_map_iff in Ho as (y & <- & Hy). apply filter_In in Hy as [Hy _].
  eapply (proj1 (List.Forall_forall _ _)) in Hall; [exact Hall |].
  apply in_map_iff. eauto.
Qed.

Lemma map_Offset_consumerMessage (m : msgStream) block (l : list Msg) :
  map Offset (map (consumerMessage m block) l) = map msg_Offset l.
Proof. rewrite map_map. reflexivity. Qed.

(** One turn of the loop keeps the invariant, does not lower the offset and
    only adds to the messages sent. *)
Lemma stream_inv_step (i : instanceID) (N : Z) (n : nat) (s s' : loop)
    (e : event) :
  stream_inv i N (S n) s -> wf_event i N e -> step cfg s e = Some s' ->
  stream_inv i N n s' /\ offset (ms s) <= offset (ms s') /\
  exists l, messagesCh (ms s') = messagesCh (ms s) ++ l.
Proof.
  intros (Hid & HnN & Hlo & Hhi & Hes & Heb & Hps & Hpb & Hdr & J1 & J2)
         Hwf Hstep.
  pose proof (step_not_done _ _ _ Hstep) as Hd.
  destruct e as [bw now | | result now room | | now |].
  1, 2, 5, 6:
    (apply step_control in Hstep; [| exact I];
     destruct Hstep as (E1 & E2 & E3 & E4 & E5 & E6 & E7 & Hj);
     split; [| split; [lia | exists []; by rewrite app_nil_r]];
     unfold stream_inv, pending;
     rewrite E1, E2, E3, E4, E5, E6, E7;
     split; [assumption |]; split; [lia |]; split; [assumption |];
     split; [lia |]; do 5 (split; [assumption |]);
     destruct Hj as [[F1 [F2 | [F2 F3]]] | (F1 & F2 & [c F3])];
     [ rewrite F1, F2; by split
     | rewrite F1, F2, F3; by split
     | split; [intros _; split; [| assumption];
               destruct (nilOrMessagesCh s); [| reflexivity];
               rewrite J2 in F3 by reflexivity; discriminate
              | by intros _] ]).
  - (* a fetch result *)
    apply step_fetchResult in Hstep as Hcase.
    destruct Hcase as (_ & Hf & Hcase).
    destruct (J1 Hf) as [Hm Hb].
    destruct Hcase as [(E1 & E3 & E7 & E4 & E8 & Hoff) | (block & on & Hrb & Hne & Hlast)].
    + assert (offset (ms s') = offset (ms s) \/
              offset (ms s') = offset (ms s) + 1) as Hoff'.
      { destruct Hoff as [-> | ->]; [by left | right].
        apply wrap64_id. unfold int64. lia. }
      split; [| split; [lia | exists []; by rewrite app_nil_r]].
      unfold stream_inv, pending. rewrite E1, E3, E7, E8, Hm.
      split; [assumption |]. split; [lia |]. split; [lia |].
      split; [lia |]. split; [assumption |].
      split; [eapply List.Forall_impl; [| exact Heb]; cbn; intros; lia |].
      split; [constructor |]. split; [constructor |].
      split; [discriminate |]. split; discriminate.
    + destruct (step_messages s result block now room on)
        as (s1 & Hs1 & Hdr1 & Hidx & Hfm & Hlag & Hfs & Hoff & Hmsg & Herr
            & Hid1 & Has & Hnb & Hnf & Hrq); try assumption.
      { by repeat split. }
      rewrite Hstep in Hs1. injection Hs1 as <-.
      destruct Hdr1 as (_ & Hm1 & Hc1 & Hlt1).
      assert (wf_block N block) as [Hsorted Hbound].
      { destruct Hrb as (_ & r & Hr & Hg & _). rewrite Hid in Hg.
        exact (Hwf r block Hr Hg). }
      split; [| split; [lia | exists []; by rewrite app_nil_r]].
      unfold stream_inv, pending. rewrite Hm1, Hidx, Hfm, Hoff, Hmsg, Hid1.
      rewrite !drop_0, map_Offset_consumerMessage.
      split; [assumption |]. split; [lia |]. split; [lia |].
      split; [lia |]. split; [assumption |]. split; [assumption |].
      split; [by apply filter_ascending |].
      split.
      { apply List.Forall_forall. intros m Hin.
        apply in_map_iff in Hin as (msg & <- & Hin).
        apply filter_In in Hin as [Hin Hk]. cbn.
        apply (proj1 (List.Forall_forall _ _) Hbound) in Hin.
        unfold keep in Hk. apply negb_true_iff, Z.ltb_ge in Hk. lia. }
      rewrite Hidx in Hc1, Hlt1. rewrite Hfm in Hc1, Hlt1.
      split; [intros _; by split |].
      split; [by rewrite Hnf | by intros _].
  - (* a message pushed *)
    assert (nilOrMessagesCh s = true) as Hm.
    { unfold step in Hstep. rewrite Hd in Hstep.
      by destruct (nilOrMessagesCh s). }
    destruct (Hdr Hm) as [Hc Hlt].
    destruct (fetchedMessages s !! currMessageIdx s) as [cm |] eqn:Hcm.
    2:{ apply lookup_ge_None in Hcm. lia. }
    destruct (step_messageSent s cm Hd Hm Hc)
      as (s1 & Hs1 & Hmsg & Hoff & Hid1 & Hlag & Hfs & Herr & Has & Hfm
          & Hidx & Hfr & Hrq & Hd1 & Hif).
    rewrite Hstep in Hs1. injection Hs1 as <-.
    unfold pending in Hps, Hpb. rewrite Hm, (drop_S _ _ _ Hcm) in Hps, Hpb.
    cbn [map] in Hps.
    apply StronglySorted_cons in Hps as [Hgt Hps].
    apply Forall_cons in Hpb as [[Hcm1 Hcm2] Hpb].
    assert (offset (ms s') = Offset cm + 1) as Hoff'.
    { rewrite Hoff. apply wrap64_id. unfold int64. lia. }
    assert (pending s' = drop (S (currMessageIdx s)) (fetchedMessages s))
      as Hpend.
    { unfold pending. rewrite Hfm, Hidx.
      destruct (S (currMessageIdx s) <? length (fetchedMessages s))%nat
        eqn:E; destruct Hif as [-> _]; [reflexivity |].
      apply Nat.ltb_ge in E. by rewrite drop_ge. }
    split; [| split; [lia | by exists [cm]]].
    unfold stream_inv. rewrite Hpend, Hoff', Hmsg, Hid1, Hfm, Hidx, Hfr.
    split; [assumption |]. split; [lia |]. split; [lia |].
    split; [lia |].
    split.
    { rewrite map_app. cbn [map]. apply StronglySorted_app.
      split; [| split; [assumption | repeat constructor]].
      intros x1 x2 Hx1 ->%list_elem_of_singleton.
      apply list_elem_of_In, in_map_iff in Hx1 as (m & <- & Hin).
      apply (proj1 (List.Forall_forall _ _) Heb) in Hin. lia. }
    split.
    { apply Forall_app. split.
      - eapply List.Forall_impl; [| exact Heb]. cbn. intros; lia.
      - repeat constructor. lia. }
    split; [assumption |].
    split.
    { apply List.Forall_forall. intros m Hin.
      pose proof (proj1 (List.Forall_forall _ _) Hpb m Hin) as [? ?].
      apply (in_map Offset) in Hin.
      apply (proj1 (List.Forall_forall _ _) Hgt) in Hin. lia. }
    destruct (S (currMessageIdx s) <? length (fetchedMessages s))%nat eqn:E;
      [destruct Hif as (Hm1 & Hc1 & Hb1) | destruct Hif as (Hm1 & Hb1)].
    + apply Nat.ltb_lt in E.
      split; [by intros _ |].
      split; [intros Hf'; destruct (J1 Hf'); congruence |].
      intros _. rewrite Hb1. by apply J2.
    + split; [rewrite Hm1; discriminate |].
      split; [intros Hf'; destruct (J1 Hf'); congruence |].
      rewrite Hm1. discriminate.
Qed.

Lemma stream_inv_run (i : instanceID) (N : Z) (evs : list event) :
  forall (n : nat) (s s' : loop),
    stream_inv i N (length evs + n) s ->
    Forall (wf_event i N) evs ->
    run cfg s evs = Some s' ->
    stream_inv i N n s' /\ offset (ms s) <= offset (ms s') /\
    exists l, messagesCh (ms s') = messagesCh (ms s) ++ l.
Proof.
  induction evs as [| e evs IH]; intros n s s' Hinv Hwf Hrun.
  - cbn in Hrun. injection Hrun as <-.
    split; [exact Hinv |]. split; [lia |]. exists []. by rewrite app_nil_r.
  - cbn in Hrun. destruct (step cfg s e) as [s1 |] eqn:Hstep; [| discriminate].
    apply Forall_cons in Hwf as [Hwe Hwf].
    destruct (stream_inv_step i N (length evs + n) s s1 e Hinv Hwe Hstep)
      as (Hinv1 & Hle1 & l1 & Hl1).
    destruct (IH n s1 s' Hinv1 Hwf Hrun) as (Hinv' & Hle' & l' & Hl').
    split; [exact Hinv' |]. split; [lia |].
    exists (l1 ++ l'). by rewrite Hl', Hl1, app_assoc.
Qed.

Lemma stream_inv_start (f : factory) (i : instanceID) (off : Z) (ch : chan)
    (N : Z) (n : nat) :
  MinInt64 <= off -> off + Z.of_nat n <= MaxInt64 -> Z.of_nat n <= N ->
  stream_inv i N n (start (spawnMsgStream f i off) ch).
Proof.
  intros Hlo Hhi HnN. unfold stream_inv, pending. cbn.
  repeat split; try assumption; try constructor; discriminate.
Qed.

(** What the arm of a fetch result keeps of a block with messages. *)
Lemma step_fetch_filter (s s' : loop) result now room block :
  step cfg s (fetchResult result now room) = Some s' ->
  result_block (ms s) result block ->
  set_Messages (MsgSet block) <> [] ->
  fetchedMessages s'
  = map (consumerMessage (ms s) block)
        (List.filter (fun msg => negb (msg_Offset msg <? offset (ms s)))
                     (block_messages block)).
Proof.
  intros Hstep Hrb Hne.
  change (List.filter _ (block_messages block))
    with (retained (offset (ms s)) block).
  unfold step in Hstep. destruct (done_ s); [discriminate |].
  destruct (nilOrFetchResultsCh s); [| discriminate]. cbn [negb] in Hstep.
  destruct (parse_cases (ms s) result room)
    as [(e & _ & Hno) | [(b & Hb' & Hem & _) |
        [(b & Hb' & [Hem _] & _) | [(b & Hb' & [Hem _] & _) |
         (b & Hb' & _ & Hp)]]]];
    try (destruct (Hno block Hrb));
    rewrite (result_block_inj _ _ _ _ Hb' Hrb) in *; try congruence.
  cbn zeta in Hp. rewrite Hp in Hstep.
  destruct (retained (offset (ms s)) block) as [| x l] eqn:Ek.
  - rewrite bool_decide_eq_true_2 in Hstep by reflexivity.
    cbn in Hstep. injection Hstep as <-. reflexivity.
  - rewrite bool_decide_eq_false_2 in Hstep by discriminate.
    cbn in Hstep. injection Hstep as <-. reflexivity.
Qed.

(** C5, amended.  Take a stream as the factory spawns it at [off], and a run
    of its
    loop in which every fetched block lists its messages in strictly
    ascending offset order (the order of the log) and offsets stay clear of
    [MaxInt64].  Between any two points of the run the offset does not
    decrease; the messages sent on the messages channel have strictly
    increasing offsets, all below the current offset; the messages kept
    from a block are those whose offset is not below the current offset;
    pushing a message sets the offset to that message's offset plus one;
    and a request carries the current offset. *)
Theorem stream_offsets_increase (f : factory) (i : instanceID) (off : Z)
    (ch : chan) (evs1 evs2 : list event) (s1 s2 : loop) :
  let N := Z.of_nat (length (evs1 ++ evs2)) in
  MinInt64 <= off -> off + N <= MaxInt64 ->
  Forall (wf_event i N) (evs1 ++ evs2) ->
  run cfg (start (spawnMsgStream f i off) ch) evs1 = Some s1 ->
  run cfg s1 evs2 = Some s2 ->
  off <= offset (ms s1) <= offset (ms s2) /\
  StronglySorted Z.lt (map Offset (messagesCh (ms s2))) /\
  (exists l, messagesCh (ms s2) = messagesCh (ms s1) ++ l) /\
  Forall (fun m => Offset m < offset (ms s2)) (messagesCh (ms s2)) /\
  (forall result now room s' block,
     step cfg s2 (fetchResult result now room) = Some s' ->
     result_block (ms s2) result block ->
     set_Messages (MsgSet block) <> [] ->
     fetchedMessages s'
     = map (consumerMessage (ms s2) block)
           (List.filter (fun msg => negb (msg_Offset msg <? offset (ms s2)))
                        (block_messages block))) /\
  (forall s',
     step cfg s2 messageSent = Some s' ->
     exists cm,
       currMessage s2 = Some cm /\
       messagesCh (ms s') = messagesCh (ms s2) ++ [cm] /\
       offset (ms s') = Offset cm + 1) /\
  (forall s',
     step cfg s2 requestSent = Some s' ->
     exists c req,
       requestsSent s' = requestsSent s2 ++ [(c, req)] /\
       fr_Offset req = offset (ms s2)).
Proof.
  intros N Hlo Hhi Hwf Hrun1 Hrun2.
  apply Forall_app in Hwf as [Hwf1 Hwf2].
  assert (N = Z.of_nat (length evs1 + (length evs2 + 0))) as HN
    by (unfold N; rewrite length_app; lia).
  destruct (stream_inv_run i N evs1 (length evs2 + 0)
              (start (spawnMsgStream f i off) ch) s1)
    as (Hinv1 & Hle1 & _); try assumption.
  { apply stream_inv_start; lia. }
  destruct (stream_inv_run i N evs2 0 s1 s2 Hinv1 Hwf2 Hrun2)
    as (Hinv2 & Hle2 & Hl2).
  destruct Hinv2 as (Hid & HnN & Hlo2 & Hhi2 & Hes & Heb & Hps & Hpb & Hdr
                     & J1 & J2).
  cbn in Hle1.
  split; [lia |]. split; [exact Hes |]. split; [exact Hl2 |].
  split; [exact Heb |].
  split; [intros; by eapply step_fetch_filter |].
  split.
  - intros s' Hstep.
    pose proof (step_not_done _ _ _ Hstep) as Hd.
    assert (nilOrMessagesCh s2 = true) as Hm.
    { unfold step in Hstep. rewrite Hd in Hstep.
      by destruct (nilOrMessagesCh s2). }
    destruct (Hdr Hm) as [Hc Hlt].
    destruct (fetchedMessages s2 !! currMessageIdx s2) as [cm |] eqn:Hcm.
    2:{ apply lookup_ge_None in Hcm. lia. }
    destruct (step_messageSent s2 cm Hd Hm Hc) as (s1' & Hs1 & Hmsg & Ho & _).
    rewrite Hstep in Hs1. injection Hs1 as <-.
    exists cm. split; [exact Hc |]. split; [exact Hmsg |].
    unfold pending in Hpb. rewrite Hm, (drop_S _ _ _ Hcm) in Hpb.
    apply Forall_cons in Hpb as [[Hcm1 Hcm2] _].
    rewrite Ho. apply wrap64_id. unfold int64. lia.
  - intros s' Hstep. unfold step in Hstep.
    destruct (done_ s2); [discriminate |].
    destruct (nilOrBrokerRequestsCh (ms s2)) as [c |]; [| discriminate].
    injection Hstep as <-. cbn. by eexists _, _.
Qed.

(** How one turn of the loop changes the fetch size: not at all, or back to
    the default on a block with messages, or doubled (in 32 bits) and capped
    at the maximum on an empty block with a partial trailing message. *)
Lemma step_fetchSize (s s' : loop) (e : event) :
  step cfg s e = Some s' ->
  fetchSize (ms s') = fetchSize (ms s)
  \/
  (exists result now room block,
     e = fetchResult result now room /\
     result_block (ms s) result block /\
     set_Messages (MsgSet block) <> [] /\
     fetchSize (ms s') = Consumer_Fetch_Default cfg)
  \/
  (exists result now room block,
     e = fetchResult result now room /\
     result_block (ms s) result block /\ empty_partial block /\
     ~ (0 < Consumer_Fetch_Max cfg /\
        fetchSize (ms s) = Consumer_Fetch_Max cfg) /\
     fetchSize (ms s')
     = if (0 <? Consumer_Fetch_Max cfg)
          && (Consumer_Fetch_Max cfg <? wrap32 (fetchSize (ms s) * 2))
       then Consumer_Fetch_Max cfg else wrap32 (fetchSize (ms s) * 2)).
Proof.
  unfold step. destruct (done_ s); [discriminate |].
  destruct e as [[c |] now | | result now room | | now |].
  - intros [= <-]. left. cbn.
    by destruct (negb (nilOrFetchResultsCh s) && negb (nilOrMessagesCh s)).
  - intros [= <-]. left. cbn. apply trigger_fields.
  - destruct (nilOrBrokerRequestsCh (ms s)); [| discriminate].
    intros [= <-]. by left.
  - destruct (nilOrFetchResultsCh s); [| discriminate]. cbn [negb].
    pose proof (fun m e => proj1 (proj2 (proj2 (reportError_fields m e room))))
      as R.
    pose proof (fun m => proj1 (proj2 (proj2 (trigger_fields m now)))) as T.
    destruct (parse_cases (ms s) result room)
      as [(e & -> & _) | [(b & _ & _ & _ & ->) |
          [(b & _ & _ & _ & _ & ->) | [(b & Hb & Hep & Hn & ->) |
           (b & Hb & Hne & ->)]]]].
    + left. destruct (bool_decide (e = ErrOffsetOutOfRange));
        injection H as <-; cbn; rewrite ?T, ?R; reflexivity.
    + intros [= <-]. by left.
    + intros [= <-]. left. cbn. by rewrite R.
    + intros [= <-]. right; right. exists result, now, room, b.
      split; [reflexivity |]. split; [exact Hb |]. split; [exact Hep |].
      split; [exact Hn | reflexivity].
    + cbn zeta. intros Hs. right; left. exists result, now, room, b.
      split; [reflexivity |]. split; [exact Hb |]. split; [exact Hne |].
      destruct (bool_decide (retained (offset (ms s)) b = []));
        [destruct (bool_decide (ErrIncompleteResponse = ErrOffsetOutOfRange))
        | destruct (map _ _) eqn:Em];
        cbn in Hs; injection Hs as <-; cbn; rewrite ?T, ?R;
        by destruct (last (retained (offset (ms s)) b)).
  - destruct (nilOrMessagesCh s); [| discriminate]. cbn [negb].
    destruct (currMessage s); [| discriminate].
    destruct (_ <? _)%nat; intros [= <-]; by left.
  - destruct (nilOrReassignRetryTimerCh (ms s)) as [d |]; [| discriminate].
    destruct (d <=? now); [| discriminate]. intros [= <-]. by left.
  - intros [= <-]. by left.
Qed.

(** As long as doubling cannot leave 32 bits (a maximum of at most 2^30),
    the fetch size stays within [Default, Max], and a change is either the
    reset to the default or the step to min(2 * fetchSize, Max). *)
Lemma fetchSize_in_range (s s' : loop) (e : event) :
  0 < Consumer_Fetch_Default cfg <= Consumer_Fetch_Max cfg ->
  Consumer_Fetch_Max cfg <= 2 ^ 30 ->
  Consumer_Fetch_Default cfg <= fetchSize (ms s) <= Consumer_Fetch_Max cfg ->
  step cfg s e = Some s' ->
  Consumer_Fetch_Default cfg <= fetchSize (ms s') <= Consumer_Fetch_Max cfg /\
  (fetchSize (ms s') = fetchSize (ms s) \/
   fetchSize (ms s') = Consumer_Fetch_Default cfg \/
   (fetchSize (ms s) < Consumer_Fetch_Max cfg /\
    fetchSize (ms s')
    = Z.min (2 * fetchSize (ms s)) (Consumer_Fetch_Max cfg))).
Proof.
  intros Hcfg Hmax Hin Hstep.
  destruct (step_fetchSize s s' e Hstep)
    as [-> | [(_ & _ & _ & _ & _ & _ & _ & ->) |
              (_ & _ & _ & _ & _ & _ & _ & Hn & ->)]].
  - split; [lia | by left].
  - split; [lia | right; by left].
  - assert (fetchSize (ms s) < Consumer_Fetch_Max cfg) as Hlt
      by (destruct (Z.eq_dec (fetchSize (ms s)) (Consumer_Fetch_Max cfg));
          [destruct Hn; split; lia | lia]).
    rewrite wrap32_id by (unfold int32, MinInt32, MaxInt32; lia).
    replace (0 <? Consumer_Fetch_Max cfg) with true
      by (symmetry; apply Z.ltb_lt; lia).
    cbn [andb].
    destruct (Consumer_Fetch_Max cfg <? fetchSize (ms s) * 2) eqn:E;
      [apply Z.ltb_lt in E | apply Z.ltb_ge in E];
      (split; [lia | right; right; split; [exact Hlt | lia]]).
Qed.

End stream_properties.

Section stream_examples.

Import msgstream inputs.

(** C6, as stated, fails: with [Consumer.Return.Errors] off (sarama's
    default), the skip leaves the errors channel as it was. *)
Lemma oversized_error_not_always_reported :
  ~ (forall cfg s result block now room s',
       awaiting s -> result_block (ms s) result block ->
       empty_partial block ->
       0 < Consumer_Fetch_Max cfg ->
       fetchSize (ms s) = Consumer_Fetch_Max cfg ->
       step cfg s (fetchResult result now room) = Some s' ->
       length (errorsCh (ms s')) = S (length (errorsCh (ms s)))).
Proof.
  intros H.
  specialize (H cfg_at_max (requested cfg_at_max 100)
                (response_for ("t", 0) partial) partial 0 true).
  rewrite (step_oversized cfg_at_max _ _ partial) in H.
  - specialize (H _ ltac:(by repeat split)
                  ltac:(split; [reflexivity | by eexists])
                  ltac:(by split) ltac:(reflexivity) ltac:(reflexivity)
                  eq_refl).
    cbn in H. discriminate H.
  - by repeat split.
  - split; [reflexivity | by eexists].
  - by split.
  - reflexivity.
  - reflexivity.
Qed.

Lemma oversized_at_max_skips_one_witness :
  exists s',
    step cfg_at_max (requested cfg_at_max 100)
         (fetchResult (response_for ("t", 0) partial) 0 true) = Some s' /\
    errorsCh (ms s') = [] /\ offset (ms s') = 101 /\
    fetchSize (ms s') = 32768 /\ messagesCh (ms s') = [].
Proof.
  destruct (oversized_at_max_skips_one cfg_at_max (requested cfg_at_max 100)
              (response_for ("t", 0) partial) partial 0 true)
    as (s' & Hs & He & Ho & Hf & Hm & _).
  - by repeat split.
  - split; [reflexivity | by eexists].
  - by split.
  - reflexivity.
  - reflexivity.
  - cbn. unfold MinInt64, MaxInt64. lia.
  - exists s'. by repeat split.
Defined.

(** C4 at the failing input: a default fetch size of 1 GiB with no maximum
    ([Max = 0]).  One block with a partial trailing message doubles the
    32-bit fetch size to [-2147483648], below the default, and the next
    request carries that value as its [MaxBytes].  With [Max = MaxInt32] the
    same happens: the wrapped value is not above [Max], so it is not
    replaced by [Max]. *)
Theorem fetchSize_doubling_overflows :
  (exists s,
     run cfg_unbounded (requested cfg_unbounded 100)
         [fetchResult (response_for ("t", 0) partial) 0 true; requestSent]
     = Some s /\
     fetchSize (ms s) = -2147483648 /\
     fetchSize (ms s) < Consumer_Fetch_Default cfg_unbounded /\
     fr_MaxBytes <$> (snd <$> last (requestsSent s)) = Some (-2147483648))
  /\
  (exists s,
     run cfg_max_int32 (requested cfg_max_int32 100)
         [fetchResult (response_for ("t", 0) partial) 0 true; requestSent]
     = Some s /\
     fetchSize (ms s) = -2147483648 /\
     fetchSize (ms s)
     <> Z.min (2 * fetchSize (ms (requested cfg_max_int32 100)))
              (Consumer_Fetch_Max cfg_max_int32) /\
     fr_MaxBytes <$> (snd <$> last (requestsSent s)) = Some (-2147483648)).
Proof.
  split; eexists; (split; [vm_compute; reflexivity |]); vm_compute;
    repeat split; congruence.
Qed.

(** C9, as stated, fails: with records 100, 101, 102 and high-water mark
    105, pushing the first message leaves [lag] at 3 (= 105 - 102), not at
    105 - 100. *)
Lemma lag_not_set_per_delivery :
  ~ (forall cfg m0 ch evs s cm s',
       run cfg (start m0 ch) evs = Some s ->
       currMessage s = Some cm ->
       step cfg s messageSent = Some s' ->
       offset (ms s') = Offset cm + 1 /\
       lag (ms s') = HighWaterMark cm - Offset cm).
Proof.
  intros H.
  edestruct (H cfg0 (stream_at cfg0 100) 9%nat
               [assignment (Some 7%nat) 0; requestSent;
                fetchResult
                  (response_for ("t", 0) (records 105 [100; 101; 102]))
                  0 true]) as [_ Hlag];
    [vm_compute; reflexivity | vm_compute; reflexivity
     | vm_compute; reflexivity |].
  vm_compute in Hlag. discriminate Hlag.
Qed.

(** Scenario S3 through the amended C9: records 100, 101, 102 with
    high-water mark 105 end in offset 103 and lag 3. *)
Lemma batch_drained_witness :
  exists s1 sn,
    step cfg0 (requested cfg0 100)
         (fetchResult (response_for ("t", 0) (records 105 [100; 101; 102]))
                      0 true) = Some s1 /\
    run cfg0 s1 (replicate 3 messageSent) = Some sn /\
    map Offset (messagesCh (ms sn)) = [100; 101; 102] /\
    offset (ms sn) = 103 /\ lag (ms sn) = 3.
Proof.
  destruct (batch_drained cfg0 (requested cfg0 100)
              (response_for ("t", 0) (records 105 [100; 101; 102]))
              (records 105 [100; 101; 102]) 0 true
              {| msg_Offset := 102; msg_Key := []; msg_Value := [] |})
    as (s1 & Hs1 & _ & _ & _ & _ & Hend).
  - by repeat split.
  - split; [reflexivity | by eexists].
  - discriminate.
  - reflexivity.
  - destruct Hend as (sn & Hrun & Hm & Ho & Hl).
    + cbn. unfold int64, MinInt64, MaxInt64. lia.
    + cbn. unfold int64, MinInt64, MaxInt64. lia.
    + exists s1, sn. split; [exact Hs1 |]. split; [exact Hrun |].
      split; [by rewrite Hm |]. by split.
Defined.

(** C5, as stated, fails: nothing in the code orders a block.  A stream at
    100 that is sent the records 102, 100, 101 in that order keeps all three
    and pushes them in that order, and its offset goes 103, 101, 102. *)
Lemma unsorted_block_breaks_monotonicity :
  ~ (forall cfg f i off ch evs1 evs2 s1 s2,
       run cfg (start (spawnMsgStream f i off) ch) evs1 = Some s1 ->
       run cfg s1 evs2 = Some s2 ->
       offset (ms s1) <= offset (ms s2) /\
       StronglySorted Z.lt (map Offset (messagesCh (ms s2)))).
Proof.
  intros H.
  edestruct (H cfg0 (SpawnFactory cfg0 cluster_up) ("t", 0) 100 9%nat
               [assignment (Some 7%nat) 0; requestSent;
                fetchResult
                  (response_for ("t", 0) (records 105 [102; 100; 101]))
                  0 true;
                messageSent]
               [messageSent]) as [Hle _];
    [vm_compute; reflexivity | vm_compute; reflexivity |].
  vm_compute in Hle. by apply Hle.
Qed.

(** The amended C5 on scenario S3: the stream spawned at 100 is assigned,
    requests, receives records 100, 101, 102 and pushes them, then requests
    again. *)
Lemma stream_offsets_increase_witness :
  exists s1 s2,
    run cfg0 (start (stream_at cfg0 100) 9%nat)
        [assignment (Some 7%nat) 0; requestSent;
         fetchResult (response_for ("t", 0) (records 105 [100; 101; 102]))
                     0 true;
         messageSent] = Some s1 /\
    run cfg0 s1 [messageSent; messageSent; requestSent] = Some s2 /\
    100 <= offset (ms s1) <= offset (ms s2) /\
    StronglySorted Z.lt (map Offset (messagesCh (ms s2))).
Proof.
  edestruct (stream_offsets_increase cfg0 (SpawnFactory cfg0 cluster_up)
               ("t", 0) 100 9%nat
               [assignment (Some 7%nat) 0; requestSent;
                fetchResult
                  (response_for ("t", 0) (records 105 [100; 101; 102]))
                  0 true;
                messageSent]
               [messageSent; messageSent; requestSent])
    as (Hmono & Hsorted & _).
  - unfold MinInt64. lia.
  - cbn. unfold MaxInt64. lia.
  - cbn [app].
    do 2 (apply Forall_cons; split; [exact I |]).
    apply Forall_cons; split;
      [| repeat (apply Forall_cons; split; [exact I |]); constructor].
    intros r block [= <-] Hg. vm_compute in Hg. injection Hg as <-.
    split.
    + repeat constructor.
    + cbn. unfold MinInt64, MaxInt64.
      repeat (apply Forall_cons; split; [cbn; lia |]). constructor.
  - vm_compute; reflexivity.
  - vm_compute; reflexivity.
  - eexists _, _.
    split; [vm_compute; reflexivity |].
    split; [vm_compute; reflexivity |].
    split; [exact Hmono | exact Hsorted].
Defined.

End stream_examples.

(** ** The broker executor *)

Section executor_properties.

Import msgstream inputs.

Variable config : Config.

Lemma execute_cooldown (st : sender) (fetchRequests : list fetchReq)
    (now : Time) fetch (errNow : Time) :
  Sub now (lastErrTime st) < Consumer_Retry_Backoff config ->
  execute config st fetchRequests now fetch errNow
  = (st, [], map (reply None (lastErr st)) fetchRequests).
Proof.
  intros H. unfold execute.
  by replace (Sub now (lastErrTime st) <? Consumer_Retry_Backoff config)
    with true by (symmetry; by apply Z.ltb_lt).
Qed.

Lemma execute_wire (st : sender) (fetchRequests : list fetchReq)
    (now : Time) fetch (errNow : Time) :
  Consumer_Retry_Backoff config <= Sub now (lastErrTime st) ->
  execute config st fetchRequests now fetch errNow
  = let req := fetchRequest_for config fetchRequests in
    ({| lastErr := (fetch req).2;
        lastErrTime := match (fetch req).2 with
                       | Some _ => errNow
                       | None => lastErrTime st
                       end |},
     [req], map (reply (fetch req).1 (fetch req).2) fetchRequests).
Proof.
  intros H. unfold execute.
  replace (Sub now (lastErrTime st) <? Consumer_Retry_Backoff config)
    with false by (symmetry; by apply Z.ltb_ge).
  cbn zeta. by destruct (fetch (fetchRequest_for config fetchRequests)).
Qed.

(** Each request of a batch gets one reply, in the order of the batch. *)
Lemma execute_replies (st : sender) (fetchRequests : list fetchReq)
    (now : Time) fetch (errNow : Time) :
  map fst (execute config st fetchRequests now fetch errNow).2
  = map ReplyToCh fetchRequests.
Proof.
  unfold execute. destruct (_ <? _).
  - cbn. rewrite map_map. reflexivity.
  - cbn zeta. destruct (fetch _). cbn. rewrite map_map. reflexivity.
Qed.

(** During the cool-down the sender does not change and does not fetch. *)
Lemma runExecutor_cooldown (st : sender) (batches : list batchEvent) :
  Forall (fun b => Sub (be_now b) (lastErrTime st)
                   < Consumer_Retry_Backoff config) batches ->
  runExecutor config st batches
  = (st, map (fun b => ([], map (reply None (lastErr st)) (be_requests b)))
             batches).
Proof.
  induction batches as [| b batches IH]; intros H; [reflexivity |].
  apply Forall_cons in H as [Hb H]. cbn [runExecutor map].
  rewrite execute_cooldown by exact Hb. by rewrite IH.
Qed.

(** C7.  When a batch goes to the wire and the fetch fails with [e], the
    sender records [e] and the time [T] of the failure and answers that
    batch with [e]; every batch it then handles while less than the retry
    backoff has passed since [T] is answered without a wire request, each of
    its requests receiving no response and the error [e]. *)
Theorem cooldown_after_error (st0 : sender) (b0 : batchEvent)
    (res : option FetchResponse) (e : error) (batches : list batchEvent) :
  Consumer_Retry_Backoff config <= Sub (be_now b0) (lastErrTime st0) ->
  be_fetch b0 (fetchRequest_for config (be_requests b0)) = (res, Some e) ->
  Forall (fun b => Sub (be_now b) (be_errNow b0)
                   < Consumer_Retry_Backoff config) batches ->
  runExecutor config st0 (b0 :: batches)
  = ({| lastErr := Some e; lastErrTime := be_errNow b0 |},
     ([fetchRequest_for config (be_requests b0)],
      map (reply res (Some e)) (be_requests b0))
     :: map (fun b => ([], map (reply None (Some e)) (be_requests b)))
            batches).
Proof.
  intros Hwire Hfail Hwindow. cbn [runExecutor].
  rewrite execute_wire by exact Hwire. cbn zeta. rewrite Hfail. cbn [fst snd].
  by rewrite runExecutor_cooldown.
Qed.

Lemma be_inv_step (b b' : brokerExecutor) (e : be_event) :
  be_inv b -> be_step config b e = Some b' -> be_inv b'.
Proof.
  unfold be_inv, in_flight. intros [Hinv Hx].
  destruct e as [fr | | | | now fetch errNow |]; cbn.
  - destruct (aggr_running b && negb (requestsCh_closed b)); [| discriminate].
    intros [= <-]. cbn. split; [| exact Hx].
    rewrite !map_app, Hinv, !app_assoc. reflexivity.
  - destruct (aggr_running b && requestsCh_closed b); [| discriminate].
    intros [= <-]. by split.
  - destruct (requestsCh_closed b); [discriminate |].
    intros [= <-]. by split.
  - destruct (aggr_running b && nilOrBatchRequestCh b && exec_running b);
      [| discriminate]. cbn [andb].
    destruct (bool_decide (exec_batch b = None)) eqn:E; [| discriminate].
    apply bool_decide_eq_true in E. rewrite E in Hinv. cbn in Hinv.
    intros [= <-]. cbn. split; [by rewrite app_nil_r | discriminate].
  - destruct (exec_batch b) as [fetchRequests |] eqn:E; [| discriminate].
    cbn in Hinv.
    pose proof (execute_replies (exec_vars b) fetchRequests now fetch errNow)
      as Hr.
    destruct (execute config (exec_vars b) fetchRequests now fetch errNow)
      as [[st' w] r].
    intros [= <-]. cbn in *. split; [| reflexivity].
    rewrite map_app, Hr, Hinv, app_assoc. reflexivity.
  - destruct (exec_running b && batchRequestsCh_closed b); [| discriminate].
    cbn [andb].
    destruct (bool_decide (exec_batch b = None)) eqn:E; [| discriminate].
    apply bool_decide_eq_true in E. rewrite E in Hinv.
    intros [= <-]. cbn. by split.
Qed.

Lemma be_inv_SpawnExecutor : be_inv SpawnExecutor.
Proof. split; [reflexivity | discriminate]. Qed.

(** In every run of an executor, the requests answered are a prefix of the
    requests accepted, each answered once; once both loops have returned,
    what is missing is the aggregator's last buffer. *)
Lemma be_run_replies (evs : list be_event) :
  forall b b' : brokerExecutor,
    be_inv b -> be_run config b evs = Some b' ->
    be_inv b' /\
    (be_exited b' = true ->
     map ReplyToCh (accepted b')
     = map fst (replies b') ++ map ReplyToCh (batchRequest b')).
Proof.
  induction evs as [| e evs IH]; intros b b' Hinv; cbn.
  - intros [= <-]. split; [exact Hinv |].
    intros [_ Hx%negb_true_iff]%andb_true_iff.
    destruct Hinv as [Hinv Hnone]. unfold in_flight in Hinv.
    by rewrite (Hnone Hx) in Hinv.
  - destruct (be_step config b e) as [b1 |] eqn:Hs; [| discriminate].
    intros Hrun. apply (IH b1 b'); [| exact Hrun].
    by eapply be_inv_step.
Qed.

End executor_properties.

Section executor_examples.

Import msgstream inputs.

Lemma cooldown_after_error_witness :
  runExecutor cfg0 {| lastErr := None; lastErrTime := 0 |}
    [{| be_requests := [request1]; be_now := today;
        be_fetch := fetch_fails; be_errNow := today |};
     {| be_requests := [request2; request1];
        be_now := today + 1000000000;
        be_fetch := fetch_ok; be_errNow := today + 1000000000 |}]
  = ({| lastErr := Some (OtherError "EOF"); lastErrTime := today |},
     [([fetchRequest_for cfg0 [request1]],
       [(1%nat, {| Response := None; res_Err := Some (OtherError "EOF") |})]);
      ([],
       [(2%nat, {| Response := None; res_Err := Some (OtherError "EOF") |});
        (1%nat, {| Response := None; res_Err := Some (OtherError "EOF") |})])]).
Proof.
  apply (cooldown_after_error cfg0 {| lastErr := None; lastErrTime := 0 |}
           {| be_requests := [request1]; be_now := today;
              be_fetch := fetch_fails; be_errNow := today |}
           None (OtherError "EOF")
           [{| be_requests := [request2; request1];
               be_now := today + 1000000000;
               be_fetch := fetch_ok; be_errNow := today + 1000000000 |}]).
  - vm_compute. discriminate.
  - reflexivity.
  - repeat constructor.
Defined.

(** C2 at the failing input.  The aggregator accepts request 1 and hands it
    to the sender; while the sender is at work it accepts request 2; then
    [Stop] closes [requestsCh].  The aggregator's receive finds the channel
    closed and returns, closing [batchRequestsCh], with request 2 still in
    its buffer; the sender answers request 1 and leaves its loop.  Both
    loops have returned and request 2 was accepted but never answered. *)
Theorem aggregator_drops_buffered_request :
  exists b,
    be_run cfg0 SpawnExecutor
           [aggr_recv request1; hand_over; aggr_recv request2; be_Stop;
            aggr_recv_closed; exec_body today fetch_ok today;
            exec_range_closed] = Some b /\
    be_exited b = true /\
    accepted b = [request1; request2] /\
    batchRequest b = [request2] /\
    replies_on b (ReplyToCh request1) = 1%nat /\
    replies_on b (ReplyToCh request2) = 0%nat.
Proof. eexists. split; [vm_compute; reflexivity |]. by vm_compute. Qed.

End executor_examples.

(** ** The graceful producer *)

Section producer_properties.

Import pixy.

Variable deadMessageCh_set : bool.

Lemma handleProduceResult_fields (d : dispatcher) (r : ProduceResult) :
  let d' := handleProduceResult deadMessageCh_set d r in
  at_ d' = at_ d /\ nilOrDispatcherCh d' = nilOrDispatcherCh d /\
  nilOrProdInputCh d' = nilOrProdInputCh d /\ prodMsg d' = prodMsg d /\
  pendingMsgCount d' = pendingMsgCount d /\ Input d' = Input d /\
  replyCh d' = replyCh d ++ acks r /\
  deadMessageCh d' = deadMessageCh d ++ dead_letters deadMessageCh_set r.
Proof.
  unfold handleProduceResult, acks, dead_letters. cbn.
  repeat split.
  - destruct (Metadata (Msg r)); [reflexivity | by rewrite app_nil_r].
  - destruct (Err r), deadMessageCh_set; try reflexivity;
      by rewrite app_nil_r.
Qed.

Lemma drain_head_fields (d : dispatcher) :
  nilOrDispatcherCh (drain_head d) = nilOrDispatcherCh d /\
  nilOrProdInputCh (drain_head d) = nilOrProdInputCh d /\
  prodMsg (drain_head d) = prodMsg d /\
  pendingMsgCount (drain_head d) = pendingMsgCount d /\
  Input (drain_head d) = Input d /\
  replyCh (drain_head d) = replyCh d /\
  deadMessageCh (drain_head d) = deadMessageCh d /\
  at_ (drain_head d) <> normal.
Proof.
  unfold drain_head. destruct (0 <? pendingMsgCount d); cbn;
    repeat split; discriminate.
Qed.

Lemma wrap64_pred (c : Z) : wrap64 (wrap64 c - 1) = wrap64 (c - 1).
Proof.
  replace (wrap64 c - 1) with (wrap64 c + -1) by lia.
  rewrite wrap64_add_l. f_equal; lia.
Qed.

Local Ltac count_up :=
  repeat split; try done; try congruence;
  try (intros _;
       match goal with
       | H : _ <> normal -> _ |- _ => apply H; discriminate
       end);
  f_equal;
  repeat case_bool_decide; try done; cbn; lia.

(** One turn of the dispatcher. *)
Lemma dispatcher_step (d d' : dispatcher) (e : event) (c : Z) :
  stroke_ok d -> pendingMsgCount d = wrap64 c ->
  step deadMessageCh_set d e = Some d' ->
  stroke_ok d' /\
  replyCh d' = replyCh d ++ flat_map acks (result_of e) /\
  deadMessageCh d'
  = deadMessageCh d ++ flat_map (dead_letters deadMessageCh_set) (result_of e)
  /\
  Input d' ++ in_hand d' = Input d ++ in_hand d ++ accepted_of e /\
  pendingMsgCount d'
  = wrap64 (c + Z.of_nat (length (accepted_of e))
            - Z.of_nat (length (if bool_decide (at_ d = shutdownNow)
                                then [] else result_of e))).
Proof.
  intros (Hs1 & Hs2 & Hs3) Hc. unfold step, stroke_ok, in_hand.
  destruct (at_ d) eqn:Hat, e as [m | | | r | |]; try discriminate.
  - (* a submission is accepted *)
    destruct (nilOrDispatcherCh d) eqn:Hd; [| discriminate].
    intros [= <-]. cbn. rewrite Hs1. cbn.
    rewrite !app_nil_r, Hc, wrap64_add_l.
    count_up.
  - (* the dispatcher channel is closed *)
    destruct (nilOrDispatcherCh d) eqn:Hd; [| discriminate].
    intros [= <-]. cbn in Hs1.
    match goal with |- context [drain_head ?x] =>
      destruct (drain_head_fields x) as (-> & -> & -> & -> & -> & -> & -> & Hn)
    end.
    cbn. rewrite Hs1. cbn. rewrite !app_nil_r, Hc.
    count_up.
  - (* the submission in hand is passed on *)
    destruct (nilOrProdInputCh d) eqn:Hi; [| discriminate].
    destruct (prodMsg d) as [m |] eqn:Hm; [| discriminate].
    intros [= <-]. cbn. rewrite !app_nil_r, Hc.
    count_up.
  - (* a result in normal operation *)
    intros [= <-].
    match goal with |- context [handleProduceResult _ ?x r] =>
      destruct (handleProduceResult_fields x r)
        as (-> & -> & -> & -> & -> & -> & -> & ->)
    end.
    cbn. rewrite Hat, !app_nil_r, Hc, wrap64_pred.
    count_up.
  - (* a result while draining *)
    intros [= <-].
    match goal with |- context [drain_head ?x] =>
      destruct (drain_head_fields x) as (-> & -> & -> & -> & -> & -> & -> & Hn)
    end.
    match goal with |- context [handleProduceResult _ ?x r] =>
      destruct (handleProduceResult_fields x r)
        as (_ & -> & -> & -> & -> & -> & -> & ->)
    end.
    cbn. rewrite !app_nil_r, Hc, wrap64_pred.
    assert (nilOrProdInputCh d = false) as Hf by (apply Hs3; discriminate).
    rewrite Hf. count_up.
  - (* the shutdown timeout *)
    intros [= <-]. cbn. rewrite !app_nil_r, Hc.
    count_up.
  - (* a result after AsyncClose *)
    intros [= <-].
    destruct (handleProduceResult_fields d r)
      as (-> & -> & -> & -> & -> & -> & -> & ->).
    cbn. rewrite Hat, !app_nil_r, Hc.
    assert (nilOrProdInputCh d = false) as Hf by (apply Hs3; discriminate).
    rewrite Hf. count_up.
  - (* the result channel is closed *)
    intros [= <-]. cbn. rewrite !app_nil_r, Hc.
    count_up.
Qed.

Lemma dispatcher_run (evs : list event) :
  forall (d d' : dispatcher) (c : Z),
    stroke_ok d -> pendingMsgCount d = wrap64 c ->
    run deadMessageCh_set d evs = Some d' ->
    stroke_ok d' /\
    replyCh d' = replyCh d ++ flat_map acks (flat_map result_of evs) /\
    deadMessageCh d'
    = deadMessageCh d
      ++ flat_map (dead_letters deadMessageCh_set) (flat_map result_of evs) /\
    Input d' ++ in_hand d' = Input d ++ in_hand d ++ flat_map accepted_of evs /\
    pendingMsgCount d'
    = wrap64 (c + Z.of_nat (length (flat_map accepted_of evs))
              - Z.of_nat (length (drained deadMessageCh_set d evs))).
Proof.
  induction evs as [| e evs IH]; intros d d' c Hok Hc; cbn.
  - intros [= <-]. rewrite !app_nil_r, Hc.
    repeat split; try apply Hok. f_equal. lia.
  - destruct (step deadMessageCh_set d e) as [d1 |] eqn:Hstep; [| discriminate].
    intros Hrun.
    destruct (dispatcher_step d d1 e c Hok Hc Hstep)
      as (Hok1 & Hr1 & Hd1 & Hi1 & Hp1).
    destruct (IH d1 d' _ Hok1 Hp1 Hrun) as (Hok' & Hr' & Hd' & Hi' & Hp').
    split; [exact Hok' |].
    rewrite !flat_map_app, !length_app.
    split; [by rewrite Hr', Hr1, <- app_assoc |].
    split; [by rewrite Hd', Hd1, <- app_assoc |].
    split; [by rewrite Hi', (app_assoc (Input d1)), Hi1, <- !app_assoc |].
    rewrite Hp'. f_equal. lia.
Qed.



End producer_properties.

Section producer_examples.

Import pixy inputs.



End producer_examples.

(** * Further properties of the code *)

(** ** The stream factory: stop, the mapper's channels, the resolved offset *)

Section factory_more.

Import msgstream inputs.

(** X1.  A spawn that succeeds followed by the stop of the stream it returned
    leaves [children] as it was before the spawn: the stream is no longer
    live, the mapper was told of its spawn and of its stop, the streams
    allocated before are untouched, and a spawn for that partition fares again
    as it would have before. *)
Theorem spawn_then_Stop (f f1 : factory) (topic : string)
    (partition off actual : Z) (p : ptr) :
  SpawnMessageStream f topic partition off = (f1, Some p, actual, None) ->
  exists f2,
    msgStream_Stop f1 p = Some f2 /\
    children f2 = children f /\
    ~ live f2 p /\
    WorkerSpawned f2 = WorkerSpawned f ++ [p] /\
    WorkerStopped f2 = WorkerStopped f ++ [p] /\
    (forall q, q <> p -> streams f2 !! q = streams f !! q) /\
    (forall off',
       (SpawnMessageStream f2 topic partition off').2
       = (SpawnMessageStream f topic partition off').2 /\
       (SpawnMessageStream f2 topic partition off').1.2
       = (SpawnMessageStream f topic partition off').1.2).
Proof.
  intros Hs.
  destruct (SpawnMessageStream_cases f topic partition off)
    as [(v & e & _ & H) | [(v & q & _ & _ & H) | (v & Hc & Hnone & H)]];
    rewrite H in Hs; try discriminate.
  injection Hs as <- <- <-.
  unfold msgStream_Stop. cbn [streams].
  rewrite list_lookup_middle by reflexivity. cbn.
  eexists. split; [reflexivity |]. cbn.
  assert (delete (topic, partition)
            (<[(topic, partition):=length (streams f)]> (children f))
          = children f) as Hch
    by (rewrite delete_insert_eq; by apply delete_id).
  split; [exact Hch |].
  split.
  { intros (m & Hm & Hcl). cbn in Hm.
    rewrite list_lookup_insert_eq in Hm
      by (rewrite length_app; cbn; lia).
    injection Hm as <-. discriminate. }
  split; [reflexivity |]. split; [reflexivity |].
  split.
  { intros q Hq. rewrite list_lookup_insert_ne by congruence.
    destruct (decide (q < length (streams f))%nat).
    - by rewrite lookup_app_l.
    - rewrite !lookup_ge_None_2; [reflexivity | lia |].
      rewrite length_app. cbn. lia. }
  intros off'. unfold SpawnMessageStream, chooseStartingOffset.
  cbn [client children]. rewrite Hch.
  repeat case_match; by split.
Qed.

(** X1 on a factory of a cluster with offsets 100 to 200: a spawn at 150 and
    the stop of that stream leave no entry in [children]. *)
Lemma spawn_then_Stop_witness :
  exists f1 f2,
    SpawnMessageStream (SpawnFactory cfg0 cluster_up) "t" 0 150
    = (f1, Some 0%nat, 150, None) /\
    msgStream_Stop f1 0%nat = Some f2 /\
    children f2 = ∅.
Proof.
  set (f1 := (SpawnMessageStream (SpawnFactory cfg0 cluster_up) "t" 0 150).1.1.1).
  assert (SpawnMessageStream (SpawnFactory cfg0 cluster_up) "t" 0 150
          = (f1, Some 0%nat, 150, None)) as Hs by (vm_compute; reflexivity).
  destruct (spawn_then_Stop _ _ _ _ _ _ _ Hs) as (f2 & Hstop & Hch & _).
  exists f1, f2. by repeat split.
Defined.

Lemma mapper_informed_op (f f' : factory) (o : factory_op) :
  mapper_informed f -> apply_op f o = Some f' -> mapper_informed f'.
Proof.
  intros (Hsp & Hnd & Hst).
  destruct o as [topic partition off | p | c]; cbn.
  - intros [= <-].
    destruct (SpawnMessageStream_cases f topic partition off)
      as [(v & e & _ & H) | [(v & q & _ & _ & H) | (v & _ & _ & H)]];
      rewrite H; cbn;
      [exact (conj Hsp (conj Hnd Hst)) | exact (conj Hsp (conj Hnd Hst)) |].
    unfold mapper_informed. cbn.
    split; [| split; [exact Hnd |]].
    + rewrite length_app, Hsp. cbn. by rewrite Nat.add_1_r, seq_S.
    + intros p. rewrite Hst. split; intros (m & Hm & Hcl).
      * exists m. split; [| exact Hcl].
        rewrite lookup_app_l; [exact Hm | by apply lookup_lt_Some in Hm].
      * exists m. split; [| exact Hcl].
        destruct (decide (p < length (streams f))%nat) as [Hlt | Hge].
        -- by rewrite lookup_app_l in Hm.
        -- assert (p = length (streams f)) as ->.
           { apply lookup_lt_Some in Hm. rewrite length_app in Hm.
             cbn in Hm. lia. }
           rewrite list_lookup_middle in Hm by reflexivity.
           injection Hm as <-. discriminate.
  - unfold msgStream_Stop.
    destruct (streams f !! p) as [m |] eqn:Hm; [| discriminate].
    destruct (closingCh m) eqn:Hcl; [discriminate |].
    intros [= <-]. unfold mapper_informed. cbn.
    assert (p ∉ WorkerStopped f) as Hnot.
    { rewrite Hst. intros (m' & Hm' & Hcl'). congruence. }
    split; [by rewrite length_insert |].
    split; [apply NoDup_app; split; [exact Hnd |];
            split; [| apply NoDup_singleton];
            intros x Hx ->%list_elem_of_singleton; contradiction |].
    intros q. rewrite elem_of_app, list_elem_of_singleton, Hst.
    destruct (decide (q = p)) as [-> | Hne].
    + rewrite list_lookup_insert_eq by (by apply lookup_lt_Some in Hm).
      split; [intros _; by eexists | by right].
    + rewrite list_lookup_insert_ne by congruence.
      split; [intros [H | H]; [exact H | contradiction] | by left].
  - intros [= <-]. exact (conj Hsp (conj Hnd Hst)).
Qed.

Lemma mapper_informed_ops (os : list factory_op) :
  forall f f' : factory,
    mapper_informed f -> apply_ops f os = Some f' -> mapper_informed f'.
Proof.
  induction os as [| o os IH]; intros f f' Hinv; cbn.
  - by intros [= <-].
  - destruct (apply_op f o) as [f1 |] eqn:Ho; [| discriminate].
    apply IH. by eapply mapper_informed_op.
Qed.

(** X2.  In every factory reached from [SpawnFactory], the mapper has been
    sent each allocated stream once on [WorkerSpawned], in order of
    allocation, and once on [WorkerStopped] exactly the streams that were
    stopped; the live streams are those spawned and not stopped. *)
Theorem mapper_hears_every_stream (cfg : Config) (c : Client)
    (os : list factory_op) (f : factory) :
  apply_ops (SpawnFactory cfg c) os = Some f ->
  WorkerSpawned f = seq 0 (length (streams f)) /\
  NoDup (WorkerStopped f) /\
  (forall p, live f p <-> p ∈ WorkerSpawned f /\ p ∉ WorkerStopped f).
Proof.
  intros Hrun.
  assert (mapper_informed f) as (Hsp & Hnd & Hst).
  { eapply mapper_informed_ops; [| exact Hrun].
    split; [reflexivity |]. split; [constructor |].
    intros p. cbn. split.
    - by intros ?%elem_of_nil.
    - intros (m & Hm & _). by rewrite lookup_nil in Hm. }
  split; [exact Hsp |]. split; [exact Hnd |].
  intros p. rewrite Hst, Hsp, elem_of_seq. unfold live. split.
  - intros (m & Hm & Hcl). split.
    + apply lookup_lt_Some in Hm. lia.
    + intros (m' & Hm' & Hcl'). congruence.
  - intros [[_ Hlt] Hnot]. cbn in Hlt.
    destruct (lookup_lt_is_Some_2 (streams f) p Hlt) as [m Hm].
    exists m. split; [exact Hm |].
    destruct (closingCh m) eqn:Hcl; [| reflexivity].
    destruct Hnot. by exists m.
Qed.

(** X2 on two spawns and the stop of the first stream. *)
Lemma mapper_hears_every_stream_witness :
  exists f,
    apply_ops (SpawnFactory cfg0 cluster_up)
              [op_spawn "t" 0 50; op_spawn "t" 1 (-1); op_stop 0%nat] = Some f /\
    WorkerSpawned f = [0; 1]%nat /\ WorkerStopped f = [0%nat] /\
    live f 1%nat.
Proof.
  eexists. split; [vm_compute; reflexivity |].
  edestruct (mapper_hears_every_stream cfg0 cluster_up
               [op_spawn "t" 0 50; op_spawn "t" 1 (-1); op_stop 0%nat])
    as (Hsp & _ & Hlive); [vm_compute; reflexivity |].
  split; [exact Hsp |]. split; [reflexivity |].
  apply Hlive. split.
  - apply list_elem_of_In. cbn. tauto.
  - intros [H | H]%elem_of_cons; [discriminate H | by apply elem_of_nil in H].
Defined.

(** X3.  Whenever both boundaries are obtained and oldest <= newest, the
    resolved offset lies within them; with 0 <= oldest, resolving it again
    returns it unchanged. *)
Theorem chooseStartingOffset_within (f : factory) (topic : string)
    (partition off newest oldest : Z) :
  GetOffset (client f) topic partition OffsetNewest = inr newest ->
  GetOffset (client f) topic partition OffsetOldest = inr oldest ->
  oldest <= newest ->
  exists v,
    chooseStartingOffset f topic partition off = (v, None) /\
    oldest <= v <= newest /\
    (0 <= oldest -> chooseStartingOffset f topic partition v = (v, None)).
Proof.
  intros Hn Ho Hle. unfold chooseStartingOffset. rewrite Hn, Ho.
  assert (forall v, 0 <= oldest -> oldest <= v <= newest ->
            (if bool_decide (v = OffsetNewest) || (newest <? v)
             then (newest, None)
             else if bool_decide (v = OffsetOldest) || (v <? oldest)
                  then (oldest, None) else (v, @None error)) = (v, None))
    as Hfix.
  { intros v H0 Hv.
    rewrite !bool_decide_eq_false_2
      by (unfold OffsetNewest, OffsetOldest; lia).
    replace (newest <? v) with false by (symmetry; apply Z.ltb_ge; lia).
    replace (v <? oldest) with false by (symmetry; apply Z.ltb_ge; lia).
    reflexivity. }
  destruct (bool_decide (off = OffsetNewest) || (newest <? off)) eqn:E1.
  - exists newest. split; [reflexivity |]. split; [lia |].
    intros H0. apply Hfix; lia.
  - destruct (bool_decide (off = OffsetOldest) || (off <? oldest)) eqn:E2.
    + exists oldest. split; [reflexivity |]. split; [lia |].
      intros H0. apply Hfix; lia.
    + apply orb_false_iff in E1 as [_ E1], E2 as [_ E2].
      apply Z.ltb_ge in E1, E2.
      exists off. split; [reflexivity |]. split; [lia |].
      intros H0. apply Hfix; lia.
Qed.

(** X3 on offset 9999 with boundaries 100 and 200: the newest offset, which
    resolves to itself. *)
Lemma chooseStartingOffset_within_witness :
  chooseStartingOffset (SpawnFactory cfg0 cluster_up) "t" 0 9999
  = (200, None) /\
  chooseStartingOffset (SpawnFactory cfg0 cluster_up) "t" 0 200
  = (200, None).
Proof.
  destruct (chooseStartingOffset_within (SpawnFactory cfg0 cluster_up)
              "t" 0 9999 200 100 eq_refl eq_refl ltac:(lia))
    as (v & Hv & _ & Hfix).
  assert (v = 200) as -> by (vm_compute in Hv; congruence).
  split; [exact Hv | apply Hfix; lia].
Defined.

Lemma stopped_stays_stopped (os : list factory_op) :
  forall (f f' : factory) (p : ptr),
    (exists m, streams f !! p = Some m /\ closingCh m = true) ->
    apply_ops f os = Some f' ->
    exists m, streams f' !! p = Some m /\ closingCh m = true.
Proof.
  induction os as [| o os IH]; intros f f' p Hp; cbn.
  - by intros [= <-].
  - destruct (apply_op f o) as [f1 |] eqn:Ho; [| discriminate].
    apply IH. destruct Hp as (m & Hm & Hcl).
    destruct o as [topic partition off | q | c]; cbn in Ho.
    + injection Ho as <-.
      destruct (SpawnMessageStream_cases f topic partition off)
        as [(v & e & _ & H) | [(v & q & _ & _ & H) | (v & _ & _ & H)]];
        rewrite H; cbn; [by exists m | by exists m |].
      exists m. split; [| exact Hcl].
      apply lookup_app_l_Some. exact Hm.
    + unfold msgStream_Stop in Ho.
      destruct (streams f !! q) as [mq |] eqn:Hq; [| discriminate].
      destruct (closingCh mq) eqn:Hclq; [discriminate |].
      injection Ho as <-. cbn.
      destruct (decide (p = q)) as [-> | Hne]; [congruence |].
      exists m. by rewrite list_lookup_insert_ne.
    + injection Ho as <-. by exists m.
Qed.

(** X4.  [Stop] is for one use: once a stream has been stopped, whatever
    spawns, stops and cluster changes follow, the stream is not live again and
    a second [Stop] of it panics (it closes the closed [closingCh]). *)
Theorem Stop_is_single_use (f f1 f2 : factory) (p : ptr)
    (os : list factory_op) :
  msgStream_Stop f p = Some f1 ->
  apply_ops f1 os = Some f2 ->
  msgStream_Stop f2 p = None /\ ~ live f2 p /\
  Forall (fun o => o <> op_stop p) os.
Proof.
  intros Hstop Hops.
  assert (forall g, (exists m, streams g !! p = Some m /\ closingCh m = true)
                    -> msgStream_Stop g p = None /\ ~ live g p) as Hdead.
  { intros g (m & Hm & Hcl). split.
    - unfold msgStream_Stop. by rewrite Hm, Hcl.
    - intros (m' & Hm' & Hcl'). congruence. }
  assert (exists m, streams f1 !! p = Some m /\ closingCh m = true) as H1.
  { unfold msgStream_Stop in Hstop.
    destruct (streams f !! p) as [m |] eqn:Hm; [| discriminate].
    destruct (closingCh m); [discriminate |].
    injection Hstop as <-. cbn. eexists.
    rewrite list_lookup_insert_eq by (by apply lookup_lt_Some in Hm).
    by split. }
  split; [| split].
  - apply Hdead. by eapply stopped_stays_stopped.
  - apply Hdead. by eapply stopped_stays_stopped.
  - clear Hstop. revert f1 Hops H1.
    induction os as [| o os IH]; intros f1 Hops H1; [constructor |].
    cbn in Hops.
    destruct (apply_op f1 o) as [g |] eqn:Ho; [| discriminate].
    constructor.
    + intros ->. cbn in Ho. destruct (Hdead f1 H1) as [Hnone _].
      congruence.
    + apply (IH g Hops).
      by apply (stopped_stays_stopped [o] f1 g p H1); cbn; rewrite Ho.
Qed.

(** X4 on a stream that is stopped and whose partition is then spawned again:
    the old stream cannot be stopped a second time, the new one is live. *)
Lemma Stop_is_single_use_witness :
  exists f f1 f2,
    apply_ops (SpawnFactory cfg0 cluster_up) [op_spawn "t" 0 150] = Some f /\
    msgStream_Stop f 0%nat = Some f1 /\
    apply_ops f1 [op_spawn "t" 0 150] = Some f2 /\
    msgStream_Stop f2 0%nat = None /\ live f2 1%nat.
Proof.
  destruct (apply_ops (SpawnFactory cfg0 cluster_up) [op_spawn "t" 0 150])
    as [f |] eqn:Hf; [| vm_compute in Hf; discriminate Hf].
  destruct (msgStream_Stop f 0%nat) as [f1 |] eqn:H1;
    [| vm_compute in Hf; injection Hf as <-; vm_compute in H1;
       discriminate H1].
  destruct (apply_ops f1 [op_spawn "t" 0 150]) as [f2 |] eqn:H2;
    [| discriminate H2].
  destruct (Stop_is_single_use f f1 f2 0%nat _ H1 H2) as (Hnone & _ & _).
  exists f, f1, f2.
  split; [reflexivity |]. split; [exact H1 |]. split; [exact H2 |].
  split; [exact Hnone |].
  vm_compute in Hf. injection Hf as <-.
  vm_compute in H1. injection H1 as <-.
  vm_compute in H2. injection H2 as <-.
  eexists. split; [reflexivity | reflexivity].
Defined.

End factory_more.

(** ** The message stream: the fetch cycle, errors, reassignment *)

Section stream_more.

Import msgstream inputs.

Variable cfg : Config.

#[local] Arguments triggerOrScheduleReassign : simpl never.
#[local] Arguments reportError : simpl never.

Lemma reportError_cases (m : msgStream) (e : error) (room : bool) :
  reportError cfg m e room = m
  \/ (Consumer_Return_Errors cfg = true /\ room = true /\
      reportError cfg m e room
      = set_errorsCh
          (errorsCh m ++ [{| err_Topic := (id m).1;
                             err_Partition := (id m).2; err_Err := e |}]) m).
Proof.
  unfold reportError.
  destruct (Consumer_Return_Errors cfg), room; cbn; auto.
Qed.

Lemma trigger_cases (m : msgStream) (now : Time) :
  triggerOrScheduleReassign cfg m now
  = set_nilOrReassignRetryTimerCh (Some (now + Consumer_Retry_Backoff cfg))
      (if Consumer_Retry_Backoff cfg <? Sub now (lastReassignTime m)
       then reassign_at now (set_assignedBrokerRequestCh None m)
       else set_assignedBrokerRequestCh None m).
Proof. reflexivity. Qed.

(** What [parseFetchResult] leaves alone, and what it may add. *)
Lemma parse_frame (m m' : msgStream) result room fetched err :
  parseFetchResult cfg m result room = (m', fetched, err) ->
  id m' = id m /\ messagesCh m' = messagesCh m /\
  assignedBrokerRequestCh m' = assignedBrokerRequestCh m /\
  nilOrBrokerRequestsCh m' = nilOrBrokerRequestsCh m /\
  nilOrReassignRetryTimerCh m' = nilOrReassignRetryTimerCh m /\
  lastReassignTime m' = lastReassignTime m /\
  reassigns m' = reassigns m /\
  (errorsCh m' = errorsCh m \/
   (Consumer_Return_Errors cfg = true /\ room = true /\ err = None /\
    errorsCh m'
    = errorsCh m ++ [{| err_Topic := (id m).1; err_Partition := (id m).2;
                        err_Err := ErrMessageTooLarge |}])) /\
  Forall (own_message (id m)) fetched /\
  (err <> None -> fetched = []).
Proof.
  intros Hp.
  destruct (parse_cases cfg m result room)
    as [(e & H & _) | [(b & _ & _ & _ & H) |
        [(b & _ & _ & _ & _ & H) | [(b & _ & _ & _ & H) |
         (b & _ & _ & H)]]]];
    rewrite H in Hp; clear H.
  - injection Hp as <- <- <-. repeat split; auto.
  - injection Hp as <- <- <-. repeat split; auto; congruence.
  - injection Hp as <- <- <-.
    destruct (reportError_cases m ErrMessageTooLarge room)
      as [-> | (Hf & Hr & ->)]; cbn; repeat split; auto; congruence.
  - injection Hp as <- <- <-. cbn. repeat split; auto; congruence.
  - cbn zeta in Hp.
    assert (Forall (own_message (id m))
              (map (consumerMessage m b) (retained (offset m) b))) as Hown.
    { apply List.Forall_forall. intros x (y & <- & _)%in_map_iff. by split. }
    destruct (bool_decide (retained (offset m) b = []));
      injection Hp as <- <- <-;
      destruct (last (retained (offset m) b)); cbn;
      repeat split; auto; congruence.
Qed.

(** One turn of the loop, seen from the three arms of the fetch cycle. *)
Lemma arms_step (s s' : loop) (e : event) :
  (arms s <= 1)%nat -> step cfg s e = Some s' ->
  (arms s' <= 1)%nat /\
  (length (requestsSent s') + (if nilOrFetchResultsCh s then 1 else 0)
   = length (requestsSent s) + (if nilOrFetchResultsCh s' then 1 else 0)
     + fetch_results [e])%nat.
Proof.
  unfold arms, fetch_results. intros Ha Hs. unfold step in Hs.
  destruct (done_ s); [discriminate |].
  destruct (nilOrBrokerRequestsCh (ms s)) eqn:Hbs,
    (nilOrFetchResultsCh s) eqn:Hf, (nilOrMessagesCh s) eqn:Hm;
    cbn in Ha; try lia;
    (destruct e as [[c |] now | | result now room | | now |];
     cbn [List.filter length negb andb] in *; try discriminate);
    repeat match type of Hs with
    | context [parseFetchResult cfg (ms s) ?r ?room] =>
      let Hp := fresh "Hp" in
      destruct (parseFetchResult cfg (ms s) r room) as [[m1 fetched] [e |]]
        eqn:Hp;
      apply parse_frame in Hp as (_ & _ & _ & Hb & _)
    | context [reportError cfg ?m ?e ?room] =>
      destruct (reportError_cases m e room) as [-> | (_ & _ & ->)]
    | context [triggerOrScheduleReassign cfg ?m ?now] =>
      rewrite (trigger_cases m now) in Hs
    | context [if ?b then _ else _] => destruct b
    | context [match ?o with Some _ => _ | None => _ end] =>
      destruct o eqn:?
    end;
    try discriminate; injection Hs as <-; cbn in *;
    rewrite ?length_app; cbn; rewrite ?Hbs, ?Hf, ?Hm, ?Hb; cbn;
    repeat match goal with
    | |- context [reportError cfg ?m ?e ?room] =>
      destruct (reportError_cases m e room) as [-> | (_ & _ & ->)]; cbn
    | |- context [match assignedBrokerRequestCh ?m with _ => _ end] =>
      destruct (assignedBrokerRequestCh m)
    | H : ?x = _ |- context [?x] => rewrite H; cbn
    end; rewrite ?Hb, ?Hbs; cbn; lia.
Qed.

Lemma arms_run (evs : list event) :
  forall s s' : loop,
    (arms s <= 1)%nat -> run cfg s evs = Some s' ->
    (arms s' <= 1)%nat /\
    (length (requestsSent s') + (if nilOrFetchResultsCh s then 1 else 0)
     = length (requestsSent s) + (if nilOrFetchResultsCh s' then 1 else 0)
       + fetch_results evs)%nat.
Proof.
  induction evs as [| e evs IH]; intros s s' Ha; cbn [run].
  - intros [= <-]. split; [exact Ha |]. unfold fetch_results. cbn. lia.
  - destruct (step cfg s e) as [s1 |] eqn:Hs; [| discriminate].
    intros Hrun.
    destruct (arms_step s s1 e Ha Hs) as [Ha1 Hc1].
    destruct (IH s1 s' Ha1 Hrun) as [Ha' Hc'].
    split; [exact Ha' |].
    unfold fetch_results in *. cbn [List.filter] in *.
    destruct e; cbn [length] in *; lia.
Qed.

(** X5.  At most one fetch is outstanding. In every run of the loop of a
    freshly spawned stream, at most one of the request, result and message
    arms is enabled, and the requests sent are the fetch results received,
    plus one while the loop waits for a result: a request is never sent while
    an earlier one is unanswered or its batch is still being pushed. *)
Theorem one_fetch_outstanding (f : factory) (i : instanceID) (off : Z)
    (ch : chan) (evs : list event) (s : loop) :
  run cfg (start (spawnMsgStream f i off) ch) evs = Some s ->
  (arms s <= 1)%nat /\
  length (requestsSent s)
  = (fetch_results evs + (if nilOrFetchResultsCh s then 1 else 0))%nat.
Proof.
  intros Hrun.
  destruct (arms_run evs (start (spawnMsgStream f i off) ch) s) as [Ha Hc];
    [cbn; lia | exact Hrun |].
  split; [exact Ha |]. cbn in Hc. lia.
Qed.

Lemma run_app (evs1 evs2 : list event) :
  forall s : loop,
    run cfg s (evs1 ++ evs2)
    = match run cfg s evs1 with
      | Some s1 => run cfg s1 evs2
      | None => None
      end.
Proof.
  induction evs1 as [| e evs1 IH]; intros s; cbn; [reflexivity |].
  destruct (step cfg s e); [apply IH | reflexivity].
Qed.

(** One turn of the loop, seen from what the stream puts its name on. *)
Lemma own_all_step (i : instanceID) (ch : chan) (s s' : loop) (e : event) :
  own_all i ch s -> step cfg s e = Some s' -> own_all i ch s'.
Proof.
  intros (Hid & Hch & Hm & Hf & Hc & Hr & He) Hs.
  unfold step in Hs. destruct (done_ s); [discriminate |].
  destruct e as [[c |] now | | result now room | | now |].
  - injection Hs as <-. unfold own_all.
    destruct (negb (nilOrFetchResultsCh s) && negb (nilOrMessagesCh s));
      cbn; split_and!; assumption.
  - injection Hs as <-. unfold own_all. cbn.
    destruct (trigger_fields cfg (ms s) now) as (-> & _ & _ & _ & -> & -> & _).
    split_and!; assumption.
  - destruct (nilOrBrokerRequestsCh (ms s)) as [c |]; [| discriminate].
    injection Hs as <-. unfold own_all. cbn. split_and!; try assumption.
    apply Forall_app. split; [assumption |].
    constructor; [| constructor]. unfold own_request. cbn.
    rewrite Hid. auto.
  - destruct (nilOrFetchResultsCh s); cbn in Hs; [| discriminate].
    destruct (parseFetchResult cfg (ms s) result room)
      as [[m1 fetched] err] eqn:Hp.
    apply parse_frame in Hp
      as (Hid1 & Hm1 & _ & _ & _ & _ & _ & He1 & Hf1 & _).
    rewrite Hid in Hid1, Hf1, He1.
    assert (Forall (own_error i) (errorsCh m1)) as He1'.
    { destruct He1 as [-> | (_ & _ & _ & ->)]; [assumption |].
      apply Forall_app. split; [assumption |].
      constructor; [| constructor]. by split. }
    destruct err as [e |].
    + assert (Forall (own_error i) (errorsCh (reportError cfg m1 e room)))
        as He2.
      { rewrite reportError_errorsCh. apply Forall_app.
        split; [assumption |].
        destruct (Consumer_Return_Errors cfg && room); constructor;
          [| constructor].
        split; cbn; by rewrite Hid1. }
      destruct (reportError_fields cfg m1 e room)
        as (Hid2 & _ & _ & _ & Hm2 & _).
      destruct (bool_decide (e = ErrOffsetOutOfRange));
        injection Hs as <-; unfold own_all; cbn.
      * rewrite Hid2, Hm2, Hm1. split_and!; assumption.
      * destruct (trigger_fields cfg (reportError cfg m1 e room) now)
          as (-> & _ & _ & _ & -> & -> & _).
        rewrite Hid2, Hm2, Hm1. split_and!; assumption.
    + destruct (length fetched =? 0)%nat;
        injection Hs as <-; unfold own_all; cbn; rewrite ?Hm1;
        split_and!; try assumption.
      intros cm Hcm. by eapply Forall_lookup_1 in Hf1.
  - destruct (nilOrMessagesCh s); cbn in Hs; [| discriminate].
    destruct (currMessage s) as [cm |] eqn:Hcm; [| discriminate].
    cbn zeta in Hs.
    assert (Forall (own_message i) (messagesCh (ms s) ++ [cm])) as Hm'.
    { apply Forall_app. split; [assumption |].
      constructor; [by apply Hc | constructor]. }
    match type of Hs with
    | context [if ?b then _ else _] => destruct b
    end; injection Hs as <-; unfold own_all; cbn; split_and!;
      try assumption.
    intros cm' Hcm'. by eapply Forall_lookup_1 in Hf.
  - destruct (nilOrReassignRetryTimerCh (ms s)) as [deadline |];
      [| discriminate].
    destruct (deadline <=? now); [| discriminate].
    injection Hs as <-. unfold own_all. cbn. split_and!; assumption.
  - injection Hs as <-. unfold own_all. cbn. split_and!; assumption.
Qed.

Lemma own_all_run (i : instanceID) (ch : chan) (evs : list event) :
  forall s s' : loop,
    own_all i ch s -> run cfg s evs = Some s' -> own_all i ch s'.
Proof.
  induction evs as [| e evs IH]; intros s s' Hown; cbn.
  - by intros [= <-].
  - destruct (step cfg s e) as [s1 |] eqn:Hs; [| discriminate].
    apply IH. by eapply own_all_step.
Qed.

(** X6.  Whatever happens to a stream of a partition, each message it
    delivers, each request it sends and each error it reports names that topic
    and partition, and each request asks for the reply on the loop's own
    result channel. *)
Theorem stream_labels_its_output (f : factory) (i : instanceID) (off : Z)
    (ch : chan) (evs : list event) (s : loop) :
  run cfg (start (spawnMsgStream f i off) ch) evs = Some s ->
  Forall (fun m => Topic m = i.1 /\ Partition m = i.2) (messagesCh (ms s)) /\
  Forall (fun r => fr_Topic r.2 = i.1 /\ fr_Partition r.2 = i.2 /\
                   ReplyToCh r.2 = ch) (requestsSent s) /\
  Forall (fun e => err_Topic e = i.1 /\ err_Partition e = i.2)
         (errorsCh (ms s)).
Proof.
  intros Hrun.
  assert (own_all i ch s) as (_ & _ & Hm & _ & _ & Hr & He).
  { eapply own_all_run; [| exact Hrun].
    unfold own_all. cbn. split_and!; try done; constructor. }
  split_and!; assumption.
Qed.

(** One turn of the loop, seen from [errorsCh]. *)
Lemma errors_step (s s' : loop) (e : event) :
  step cfg s e = Some s' ->
  exists l,
    errorsCh (ms s') = errorsCh (ms s) ++ l /\
    (length l <= with_room [e])%nat /\
    (Consumer_Return_Errors cfg = false -> l = []).
Proof.
  intros Hs. unfold step in Hs. destruct (done_ s); [discriminate |].
  assert (forall s0, errorsCh (ms s0) = errorsCh (ms s) ->
            exists l, errorsCh (ms s0) = errorsCh (ms s) ++ l /\
                      (length l <= with_room [e])%nat /\
                      (Consumer_Return_Errors cfg = false -> l = [])) as Hsame.
  { intros s0 H0. exists []. rewrite app_nil_r. cbn.
    split; [exact H0 |]. split; [lia | done]. }
  destruct e as [[c |] now | | result now room | | now |].
  - injection Hs as <-. apply Hsame.
    destruct (negb (nilOrFetchResultsCh s) && negb (nilOrMessagesCh s));
      reflexivity.
  - injection Hs as <-. apply Hsame. cbn.
    by destruct (trigger_fields cfg (ms s) now) as (_ & _ & _ & _ & _ & -> & _).
  - destruct (nilOrBrokerRequestsCh (ms s)) as [c |]; [| discriminate].
    injection Hs as <-. by apply Hsame.
  - clear Hsame.
    destruct (nilOrFetchResultsCh s); cbn [negb] in Hs; [| discriminate].
    destruct (parseFetchResult cfg (ms s) result room)
      as [[m1 fetched] err] eqn:Hp.
    apply parse_frame in Hp as (_ & _ & _ & _ & _ & _ & _ & He1 & _).
    unfold with_room. cbn [List.filter].
    destruct err as [e |].
    + destruct He1 as [He1 | (_ & _ & [=] & _)].
      exists (if Consumer_Return_Errors cfg && room
              then [{| err_Topic := (id m1).1; err_Partition := (id m1).2;
                       err_Err := e |}]
              else []).
      split.
      * destruct (bool_decide (e = ErrOffsetOutOfRange));
          injection Hs as <-; cbn.
        -- by rewrite reportError_errorsCh, He1.
        -- destruct (trigger_fields cfg (reportError cfg m1 e room) now)
             as (_ & _ & _ & _ & _ & -> & _).
           by rewrite reportError_errorsCh, He1.
      * split; [destruct (Consumer_Return_Errors cfg), room; cbn; lia |].
        by intros ->.
    + assert (errorsCh (ms s') = errorsCh m1) as ->
        by (destruct (length fetched =? 0)%nat; by injection Hs as <-).
      destruct He1 as [-> | (Hon & -> & _ & ->)].
      * exists []. rewrite app_nil_r. cbn.
        split; [reflexivity |]. split; [lia | done].
      * eexists. split; [reflexivity |]. cbn. split; [lia | congruence].
  - destruct (nilOrMessagesCh s); cbn [negb] in Hs; [| discriminate].
    destruct (currMessage s) as [cm |]; [| discriminate]. cbn zeta in Hs.
    apply Hsame.
    match type of Hs with
    | context [if ?b then _ else _] => destruct b
    end; by injection Hs as <-.
  - destruct (nilOrReassignRetryTimerCh (ms s)) as [deadline |];
      [| discriminate].
    destruct (deadline <=? now); [| discriminate].
    injection Hs as <-. by apply Hsame.
  - injection Hs as <-. by apply Hsame.
Qed.

Lemma errors_run (evs : list event) :
  forall s s' : loop,
    run cfg s evs = Some s' ->
    exists l,
      errorsCh (ms s') = errorsCh (ms s) ++ l /\
      (length l <= with_room evs)%nat /\
      (Consumer_Return_Errors cfg = false -> l = []).
Proof.
  induction evs as [| e evs IH]; intros s s'; cbn [run].
  - intros [= <-]. exists []. rewrite app_nil_r. cbn.
    split; [reflexivity |]. split; [lia | done].
  - destruct (step cfg s e) as [s1 |] eqn:Hs; [| discriminate].
    intros Hrun.
    destruct (errors_step s s1 e Hs) as (l1 & H1 & Hn1 & Hoff1).
    destruct (IH s1 s' Hrun) as (l2 & H2 & Hn2 & Hoff2).
    exists (l1 ++ l2). split; [by rewrite H2, H1, app_assoc |].
    split.
    + rewrite length_app. unfold with_room in *. cbn [List.filter] in *.
      destruct e as [| | result now [|] | | |]; cbn [length] in *; lia.
    + intros Hoff. by rewrite Hoff1, Hoff2.
Qed.

(** X7.  The stream reports at most one error for each fetch result, and only
    for results that arrive while [errorsCh] has room; with
    [Consumer.Return.Errors] off it reports none at all. *)
Theorem errors_only_if_enabled (f : factory) (i : instanceID) (off : Z)
    (ch : chan) (evs : list event) (s : loop) :
  run cfg (start (spawnMsgStream f i off) ch) evs = Some s ->
  (length (errorsCh (ms s)) <= with_room evs)%nat /\
  (Consumer_Return_Errors cfg = false -> errorsCh (ms s) = []).
Proof.
  intros Hrun.
  destruct (errors_run evs _ _ Hrun) as (l & Hl & Hn & Hoff).
  cbn in Hl. rewrite Hl. split; [exact Hn | exact Hoff].
Qed.

Lemma parse_early (m : msgStream) (result : fetchRes) (room : bool)
    (e : error) :
  early_error (id m) result = Some e ->
  parseFetchResult cfg m result room = (m, [], Some e).
Proof.
  unfold early_error, parseFetchResult.
  destruct (res_Err result); [by intros [= ->] |].
  destruct (Response result) as [r |]; [| by intros [= <-]].
  destruct (GetBlock r (id m).1 (id m).2) as [b |]; [| by intros [= <-]].
  destruct (negb (block_Err b =? ErrNoError)); [by intros [= <-] | done].
Qed.

(** What the loop does with a fetch result that [parseFetchResult] turns
    into an error. *)
Lemma step_error (s : loop) (result : fetchRes) (now : Time) (room : bool)
    (m1 : msgStream) (e : error) :
  awaiting s ->
  parseFetchResult cfg (ms s) result room = (m1, [], Some e) ->
  exists s',
    step cfg s (fetchResult result now room) = Some s' /\
    messagesCh (ms s') = messagesCh m1 /\
    offset (ms s') = offset m1 /\
    fetchSize (ms s') = fetchSize m1 /\
    lag (ms s') = lag m1 /\
    errorsCh (ms s')
    = errorsCh m1 ++
      (if Consumer_Return_Errors cfg && room
       then [{| err_Topic := (id m1).1; err_Partition := (id m1).2;
                err_Err := e |}]
       else []) /\
    requestsSent s' = requestsSent s /\
    arms s' = 0%nat /\
    if bool_decide (e = ErrOffsetOutOfRange)
    then done_ s' = true /\ reassigns (ms s') = reassigns m1 /\
         forall e', step cfg s' e' = None
    else done_ s' = false /\
         assignedBrokerRequestCh (ms s') = None /\
         nilOrReassignRetryTimerCh (ms s')
         = Some (now + Consumer_Retry_Backoff cfg) /\
         reassigns (ms s')
         = (reassigns m1
            + if (Consumer_Retry_Backoff cfg
                  <? Sub now (lastReassignTime m1))%Z
              then 1 else 0)%nat.
Proof.
  intros (Hd & Hf & Hm & Hb) Hp.
  pose proof (parse_frame _ _ _ _ _ _ Hp) as (_ & _ & _ & Hb1 & _).
  rewrite Hb in Hb1.
  unfold step. rewrite Hd, Hf, Hp. cbn [negb].
  destruct (reportError_fields cfg m1 e room)
    as (_ & Ho & Hfs & Hl & Hms & _ & Hbr).
  pose proof (reportError_errorsCh cfg m1 e room) as Her.
  unfold arms.
  destruct (bool_decide (e = ErrOffsetOutOfRange)).
  - eexists. split; [reflexivity |]. cbn.
    rewrite Hms, Ho, Hfs, Hl, Her, Hbr, Hb1, Hm.
    split_and!; try reflexivity.
    destruct (reportError_cases m1 e room) as [-> | (_ & _ & ->)];
      reflexivity.
  - eexists. split; [reflexivity |]. cbn.
    destruct (trigger_fields cfg (reportError cfg m1 e room) now)
      as (_ & -> & -> & -> & -> & -> & ->).
    rewrite Hms, Ho, Hfs, Hl, Her, Hbr, Hb1, Hm.
    rewrite trigger_cases.
    destruct (reportError_cases m1 e room) as [-> | (_ & _ & ->)]; cbn;
      destruct (Consumer_Retry_Backoff cfg <? Sub now (lastReassignTime m1));
      cbn; split_and!; try reflexivity; lia.
Qed.

(** X8.  A fetch result that carries an error (its own, a missing response or
    block, or the error code of the block) delivers nothing and leaves offset
    and fetch size alone; the error is reported once if errors are returned
    and there is room. On [ErrOffsetOutOfRange] the loop ends: no arm fires
    any more and no reassignment is asked for. On any other error the executor
    is dropped, a reassignment is asked for if the last one is more than the
    backoff ago, the retry timer is armed one backoff ahead, and none of the
    request, result and message arms is enabled. *)
Theorem fetch_error_effects (s : loop) (result : fetchRes) (now : Time)
    (room : bool) (e : error) :
  awaiting s -> early_error (id (ms s)) result = Some e ->
  exists s',
    step cfg s (fetchResult result now room) = Some s' /\
    messagesCh (ms s') = messagesCh (ms s) /\
    offset (ms s') = offset (ms s) /\
    fetchSize (ms s') = fetchSize (ms s) /\
    errorsCh (ms s')
    = errorsCh (ms s) ++
      (if Consumer_Return_Errors cfg && room
       then [{| err_Topic := (id (ms s)).1; err_Partition := (id (ms s)).2;
                err_Err := e |}]
       else []) /\
    arms s' = 0%nat /\
    if bool_decide (e = ErrOffsetOutOfRange)
    then done_ s' = true /\ reassigns (ms s') = reassigns (ms s) /\
         forall e', step cfg s' e' = None
    else done_ s' = false /\
         assignedBrokerRequestCh (ms s') = None /\
         nilOrReassignRetryTimerCh (ms s')
         = Some (now + Consumer_Retry_Backoff cfg) /\
         reassigns (ms s')
         = (reassigns (ms s)
            + if (Consumer_Retry_Backoff cfg
                  <? Sub now (lastReassignTime (ms s)))%Z
              then 1 else 0)%nat.
Proof.
  intros Haw He.
  destruct (step_error s result now room (ms s) e Haw
              (parse_early _ _ _ _ He))
    as (s' & Hs & Hm & Ho & Hfs & _ & Her & _ & Ha & Hrest).
  exists s'. split_and!; assumption.
Qed.

(** X9.  A response whose messages all lie below the stream's offset is taken
    for an incomplete response: nothing is delivered, the offset stays, the
    fetch size goes back to the default, [ErrIncompleteResponse] is reported
    (if errors are returned and there is room), the executor is dropped and
    the retry timer armed. *)
Theorem stale_batch_is_incomplete (s : loop) (result : fetchRes)
    (block : FetchResponseBlock) (now : Time) (room : bool) :
  awaiting s -> result_block (ms s) result block ->
  set_Messages (MsgSet block) <> [] ->
  retained (offset (ms s)) block = [] ->
  exists s',
    step cfg s (fetchResult result now room) = Some s' /\
    messagesCh (ms s') = messagesCh (ms s) /\
    offset (ms s') = offset (ms s) /\
    lag (ms s') = lag (ms s) /\
    fetchSize (ms s') = Consumer_Fetch_Default cfg /\
    errorsCh (ms s')
    = errorsCh (ms s) ++
      (if Consumer_Return_Errors cfg && room
       then [{| err_Topic := (id (ms s)).1; err_Partition := (id (ms s)).2;
                err_Err := ErrIncompleteResponse |}]
       else []) /\
    done_ s' = false /\ arms s' = 0%nat /\
    assignedBrokerRequestCh (ms s') = None /\
    nilOrReassignRetryTimerCh (ms s')
    = Some (now + Consumer_Retry_Backoff cfg).
Proof.
  intros Haw Hrb Hne Hkept.
  assert (parseFetchResult cfg (ms s) result room
          = (set_fetchSize (Consumer_Fetch_Default cfg) (ms s), [],
             Some ErrIncompleteResponse)) as Hp.
  { destruct (parse_cases cfg (ms s) result room)
      as [(e & _ & Hno) | [(b & Hb & Hem & _) |
          [(b & Hb & [Hem _] & _) | [(b & Hb & [Hem _] & _) |
           (b & Hb & _ & H)]]]].
    - destruct (Hno block Hrb).
    - rewrite (result_block_inj _ _ _ _ Hrb Hb) in Hne. contradiction.
    - rewrite (result_block_inj _ _ _ _ Hrb Hb) in Hne. contradiction.
    - rewrite (result_block_inj _ _ _ _ Hrb Hb) in Hne. contradiction.
    - rewrite <- (result_block_inj _ _ _ _ Hrb Hb) in H.
      cbn zeta in H. rewrite Hkept in H. exact H. }
  destruct (step_error s result now room _ _ Haw Hp)
    as (s' & Hs & Hm & Ho & Hfs & Hl & Her & _ & Ha & Hd & Has & Ht & _).
  exists s'. split_and!; assumption.
Qed.

Lemma messageSent_frame (j : nat) :
  forall s s' : loop,
    run cfg s (replicate j messageSent) = Some s' ->
    requestsSent s' = requestsSent s /\ fetchResultCh s' = fetchResultCh s /\
    id (ms s') = id (ms s) /\ fetchSize (ms s') = fetchSize (ms s) /\
    lag (ms s') = lag (ms s).
Proof.
  induction j as [| j IH]; intros s s'; cbn [replicate run].
  - by intros [= <-].
  - destruct (step cfg s messageSent) as [s1 |] eqn:Hs; [| discriminate].
    intros Hrun. destruct (IH s1 s' Hrun) as (-> & -> & -> & -> & ->).
    unfold step in Hs. destruct (done_ s); [discriminate |].
    destruct (nilOrMessagesCh s); cbn [negb] in Hs; [| discriminate].
    destruct (currMessage s) as [cm |]; [| discriminate]. cbn zeta in Hs.
    match type of Hs with
    | context [if ?b then _ else _] => destruct b
    end; by injection Hs as <-.
Qed.

(** X10.  An executor assigned while fetched messages are still being pushed
    is not sent a request at once: the loop first pushes what is left of the
    batch, and then sends its next request, for the offset after the last
    message, to the executor assigned meanwhile. *)
Theorem reassignment_waits_for_drain (s : loop) (c : chan) (now : Time) :
  draining s ->
  let rest := drop (currMessageIdx s) (fetchedMessages s) in
  exists s1 s2 cm,
    step cfg s (assignment (Some c) now) = Some s1 /\
    nilOrBrokerRequestsCh (ms s1) = nilOrBrokerRequestsCh (ms s) /\
    requestsSent s1 = requestsSent s /\
    last rest = Some cm /\
    run cfg s1 (replicate (length rest) messageSent ++ [requestSent])
    = Some s2 /\
    messagesCh (ms s2) = messagesCh (ms s) ++ rest /\
    requestsSent s2
    = requestsSent s ++
      [(c, {| fr_Topic := (id (ms s)).1; fr_Partition := (id (ms s)).2;
              fr_Offset := wrap64 (Offset cm + 1);
              fr_MaxBytes := fetchSize (ms s); fr_Lag := lag (ms s);
              ReplyToCh := fetchResultCh s |})].
Proof.
  intros (Hd & Hm & Hc & Hlt) rest. subst rest.
  set (rest := drop (currMessageIdx s) (fetchedMessages s)).
  set (s1 := with_ms
               (set_nilOrReassignRetryTimerCh None
                  (set_assignedBrokerRequestCh (Some c) (ms s))) s).
  assert (step cfg s (assignment (Some c) now) = Some s1) as Hs1.
  { unfold step. rewrite Hd, Hm, andb_false_r. reflexivity. }
  assert (draining s1) as Hdr by (by split_and!).
  assert (rest = drop (currMessageIdx s) (fetchedMessages s)) as Hrest
    by reflexivity.
  assert (length rest = length (fetchedMessages s) - currMessageIdx s)%nat
    as Hlen by apply length_drop.
  clearbody rest.
  destruct (drain cfg (length rest) s1) as (s' & cm & Hrun & Hcm & Hms & Ho
                                            & Hl & Hfs & Hd' & Hend);
    [lia | exact Hdr | cbn; lia |].
  destruct Hend as [Hm' Hb']; [cbn; lia |].
  destruct (messageSent_frame _ _ _ Hrun) as (Hr' & Hch' & Hid' & _ & _).
  cbn in Hcm, Hms, Hl, Hfs, Hb', Hr', Hch', Hid'.
  exists s1. eexists. exists cm. split; [exact Hs1 |].
  split; [reflexivity |]. split; [reflexivity |].
  split.
  { rewrite last_lookup, Hlen, Hrest, lookup_drop, <- Hcm. f_equal. lia. }
  split.
  { rewrite run_app, Hrun. cbn. unfold step. rewrite Hd', Hb'. reflexivity. }
  cbn. split.
  - rewrite Hms, <- Hrest. f_equal. apply take_ge. lia.
  - by rewrite Hr', Hch', Hid', Ho, Hl, Hfs.
Qed.

Lemma trigger_spacing (m : msgStream) (now : Time) :
  MinInt64 <= Consumer_Retry_Backoff cfg ->
  assignedBrokerRequestCh (triggerOrScheduleReassign cfg m now) = None /\
  ((lastReassignTime (triggerOrScheduleReassign cfg m now)
    = lastReassignTime m /\
    reassigns (triggerOrScheduleReassign cfg m now) = reassigns m)
   \/
   (lastReassignTime m + Consumer_Retry_Backoff cfg
    < lastReassignTime (triggerOrScheduleReassign cfg m now) /\
    reassigns (triggerOrScheduleReassign cfg m now) = S (reassigns m))).
Proof.
  intros Hmin. rewrite trigger_cases.
  destruct (Consumer_Retry_Backoff cfg <? Sub now (lastReassignTime m))
    eqn:E; cbn; (split; [reflexivity |]); [right | by left].
  apply Z.ltb_lt in E. unfold Sub in E. split; [lia | reflexivity].
Qed.

(** X11.  A request for reassignment is either a firing of the retry timer, or
    it moves [lastReassignTime] forward by more than the backoff; no other
    turn of the loop touches [lastReassignTime] or asks for reassignment. *)
Theorem reassign_spacing (s s' : loop) (e : event) :
  MinInt64 <= Consumer_Retry_Backoff cfg ->
  step cfg s e = Some s' ->
  (lastReassignTime (ms s') = lastReassignTime (ms s) /\
   (reassigns (ms s') = reassigns (ms s) \/
    (exists now, e = retryTimer now) /\
    reassigns (ms s') = S (reassigns (ms s))))
  \/
  (lastReassignTime (ms s) + Consumer_Retry_Backoff cfg
   < lastReassignTime (ms s') /\
   reassigns (ms s') = S (reassigns (ms s))).
Proof.
  intros Hmin Hs. unfold step in Hs. destruct (done_ s); [discriminate |].
  destruct e as [[c |] now | | result now room | | now |].
  - injection Hs as <-. left.
    destruct (negb (nilOrFetchResultsCh s) && negb (nilOrMessagesCh s));
      cbn; auto.
  - injection Hs as <-. cbn.
    destruct (trigger_spacing (ms s) now Hmin) as [_ [[-> ->] | H]]; auto.
  - destruct (nilOrBrokerRequestsCh (ms s)) as [c |]; [| discriminate].
    injection Hs as <-. cbn. auto.
  - destruct (nilOrFetchResultsCh s); cbn [negb] in Hs; [| discriminate].
    destruct (parseFetchResult cfg (ms s) result room)
      as [[m1 fetched] err] eqn:Hp.
    apply parse_frame in Hp as (_ & _ & _ & _ & _ & Hl & Hr & _).
    rewrite <- Hl, <- Hr.
    destruct err as [e |].
    + assert (lastReassignTime (reportError cfg m1 e room)
              = lastReassignTime m1 /\
              reassigns (reportError cfg m1 e room) = reassigns m1)
        as [Hl2 Hr2]
        by (destruct (reportError_cases m1 e room) as [-> | (_ & _ & ->)];
            by split).
      rewrite <- Hl2, <- Hr2.
      destruct (bool_decide (e = ErrOffsetOutOfRange));
        injection Hs as <-; cbn; [auto |].
      destruct (trigger_spacing (reportError cfg m1 e room) now Hmin)
        as [_ [[-> ->] | H]]; auto.
    + destruct (length fetched =? 0)%nat; injection Hs as <-; cbn; auto.
  - destruct (nilOrMessagesCh s); cbn [negb] in Hs; [| discriminate].
    destruct (currMessage s) as [cm |]; [| discriminate]. cbn zeta in Hs.
    match type of Hs with
    | context [if ?b then _ else _] => destruct b
    end; injection Hs as <-; cbn; auto.
  - destruct (nilOrReassignRetryTimerCh (ms s)) as [deadline |];
      [| discriminate].
    destruct (deadline <=? now); [| discriminate].
    injection Hs as <-. cbn. left. split; [reflexivity |]. right.
    split; [by eexists | reflexivity].
  - injection Hs as <-. cbn. auto.
Qed.

(** One turn of the loop, seen from the executor channels. *)
Lemma chans_step (s s' : loop) (e : event) :
  step cfg s e = Some s' ->
  (assignedBrokerRequestCh (ms s') = assignedBrokerRequestCh (ms s) \/
   assignedBrokerRequestCh (ms s') = None \/
   exists c, assigned_to e = [c] /\
             assignedBrokerRequestCh (ms s') = Some c) /\
  (nilOrBrokerRequestsCh (ms s') = nilOrBrokerRequestsCh (ms s) \/
   nilOrBrokerRequestsCh (ms s') = None \/
   nilOrBrokerRequestsCh (ms s') = assignedBrokerRequestCh (ms s')) /\
  (requestsSent s' = requestsSent s \/
   exists c req, nilOrBrokerRequestsCh (ms s) = Some c /\
                 requestsSent s' = requestsSent s ++ [(c, req)]).
Proof.
  intros Hs. unfold step in Hs. destruct (done_ s); [discriminate |].
  destruct e as [[c |] now | | result now room | | now |].
  - injection Hs as <-.
    destruct (negb (nilOrFetchResultsCh s) && negb (nilOrMessagesCh s));
      cbn; split_and!; eauto 6.
  - injection Hs as <-. cbn.
    destruct (trigger_fields cfg (ms s) now) as (_ & _ & _ & _ & _ & _ & ->).
    rewrite trigger_cases.
    destruct (Consumer_Retry_Backoff cfg <? _); cbn; auto.
  - destruct (nilOrBrokerRequestsCh (ms s)) as [c |]; [| discriminate].
    injection Hs as <-. cbn. split_and!; eauto.
  - destruct (nilOrFetchResultsCh s); cbn [negb] in Hs; [| discriminate].
    destruct (parseFetchResult cfg (ms s) result room)
      as [[m1 fetched] err] eqn:Hp.
    apply parse_frame in Hp as (_ & _ & Ha & Hb & _).
    rewrite <- Ha, <- Hb.
    destruct err as [e |].
    + destruct (reportError_fields cfg m1 e room)
        as (_ & _ & _ & _ & _ & Ha2 & Hb2).
      destruct (bool_decide (e = ErrOffsetOutOfRange));
        injection Hs as <-; cbn; [rewrite Ha2, Hb2; auto |].
      destruct (trigger_fields cfg (reportError cfg m1 e room) now)
        as (_ & _ & _ & _ & _ & _ & ->).
      rewrite trigger_cases, Hb2.
      destruct (Consumer_Retry_Backoff cfg <? _); cbn; auto.
    + destruct (length fetched =? 0)%nat; injection Hs as <-; cbn; auto.
  - destruct (nilOrMessagesCh s); cbn [negb] in Hs; [| discriminate].
    destruct (currMessage s) as [cm |]; [| discriminate]. cbn zeta in Hs.
    match type of Hs with
    | context [if ?b then _ else _] => destruct b
    end; injection Hs as <-; cbn; auto.
  - destruct (nilOrReassignRetryTimerCh (ms s)) as [deadline |];
      [| discriminate].
    destruct (deadline <=? now); [| discriminate].
    injection Hs as <-. cbn. auto.
  - injection Hs as <-. cbn. auto.
Qed.

Lemma sends_within_run (evs : list event) :
  forall (cs : list chan) (s s' : loop),
    sends_within cs s -> run cfg s evs = Some s' ->
    sends_within (cs ++ flat_map assigned_to evs) s'.
Proof.
  induction evs as [| e evs IH]; intros cs s s' Hin; cbn [run flat_map].
  - intros [= <-]. by rewrite app_nil_r.
  - destruct (step cfg s e) as [s1 |] eqn:Hs; [| discriminate].
    intros Hrun. rewrite app_assoc. apply (IH _ s1); [| exact Hrun].
    destruct Hin as (Ha & Hb & Hr).
    destruct (chans_step s s1 e Hs) as (Ha1 & Hb1 & Hr1).
    assert (forall c, assignedBrokerRequestCh (ms s1) = Some c ->
                      c ∈ cs ++ assigned_to e) as Ha'.
    { intros c Hc. apply elem_of_app.
      destruct Ha1 as [Ha1 | [Ha1 | (c' & -> & Ha1)]].
      - left. apply Ha. congruence.
      - congruence.
      - right. apply list_elem_of_singleton. congruence. }
    split; [exact Ha' |]. split.
    + intros c Hc. destruct Hb1 as [Hb1 | [Hb1 | Hb1]].
      * apply elem_of_app. left. apply Hb. congruence.
      * congruence.
      * apply Ha'. congruence.
    + assert (Forall (fun r => r.1 ∈ cs ++ assigned_to e) (requestsSent s))
        as Hr'.
      { eapply Forall_impl; [exact Hr |]. intros r Hin.
        apply elem_of_app. by left. }
      destruct Hr1 as [-> | (c & req & Hc & ->)]; [exact Hr' |].
      apply Forall_app. split; [exact Hr' |].
      constructor; [| constructor]. apply elem_of_app. left. by apply Hb.
Qed.

(** X12.  A stream sends requests only to executors it was assigned: in every
    run of a freshly spawned stream, each request went to the input of an
    executor that an earlier assignment of the run carried. *)
Theorem requests_go_to_assigned_executors (f : factory) (i : instanceID)
    (off : Z) (ch : chan) (evs : list event) (s : loop) :
  run cfg (start (spawnMsgStream f i off) ch) evs = Some s ->
  Forall (fun r => r.1 ∈ flat_map assigned_to evs) (requestsSent s).
Proof.
  intros Hrun.
  assert (sends_within [] (start (spawnMsgStream f i off) ch)) as Hin
    by (split_and!; [done | done | constructor]).
  by destruct (sends_within_run evs [] _ _ Hin Hrun) as (_ & _ & Hr).
Qed.

(** What a turn of the loop adds to the requests sent. *)
Lemma requests_step (s s' : loop) (e : event) :
  step cfg s e = Some s' ->
  requestsSent s' = requestsSent s \/
  exists c req,
    requestsSent s' = requestsSent s ++ [(c, req)] /\
    fr_MaxBytes req = fetchSize (ms s) /\ fr_Offset req = offset (ms s) /\
    fr_Lag req = lag (ms s).
Proof.
  intros Hs. unfold step in Hs. destruct (done_ s); [discriminate |].
  destruct e as [[c |] now | | result now room | | now |].
  - injection Hs as <-. by left.
  - injection Hs as <-. by left.
  - destruct (nilOrBrokerRequestsCh (ms s)) as [c |]; [| discriminate].
    injection Hs as <-. right. by eexists _, _.
  - destruct (nilOrFetchResultsCh s); cbn [negb] in Hs; [| discriminate].
    destruct (parseFetchResult cfg (ms s) result room)
      as [[m1 fetched] [e |]].
    + destruct (bool_decide (e = ErrOffsetOutOfRange));
        injection Hs as <-; by left.
    + destruct (length fetched =? 0)%nat; injection Hs as <-; by left.
  - destruct (nilOrMessagesCh s); cbn [negb] in Hs; [| discriminate].
    destruct (currMessage s) as [cm |]; [| discriminate]. cbn zeta in Hs.
    match type of Hs with
    | context [if ?b then _ else _] => destruct b
    end; injection Hs as <-; by left.
  - destruct (nilOrReassignRetryTimerCh (ms s)) as [deadline |];
      [| discriminate].
    destruct (deadline <=? now); [| discriminate].
    injection Hs as <-. by left.
  - injection Hs as <-. by left.
Qed.

Lemma fetchSize_run (evs : list event) :
  0 < Consumer_Fetch_Default cfg <= Consumer_Fetch_Max cfg ->
  Consumer_Fetch_Max cfg <= 2 ^ 30 ->
  forall s s' : loop,
    Consumer_Fetch_Default cfg <= fetchSize (ms s)
    <= Consumer_Fetch_Max cfg ->
    Forall (fun r => Consumer_Fetch_Default cfg <= fr_MaxBytes r.2
                     <= Consumer_Fetch_Max cfg) (requestsSent s) ->
    run cfg s evs = Some s' ->
    Consumer_Fetch_Default cfg <= fetchSize (ms s')
    <= Consumer_Fetch_Max cfg /\
    Forall (fun r => Consumer_Fetch_Default cfg <= fr_MaxBytes r.2
                     <= Consumer_Fetch_Max cfg) (requestsSent s').
Proof.
  intros Hcfg Hmax.
  induction evs as [| e evs IH]; intros s s' Hfs Hreq; cbn [run].
  - intros [= <-]. by split.
  - destruct (step cfg s e) as [s1 |] eqn:Hs; [| discriminate].
    apply IH.
    + by destruct (fetchSize_in_range cfg s s1 e Hcfg Hmax Hfs Hs).
    + destruct (requests_step s s1 e Hs)
        as [-> | (c & req & -> & Hmb & _)]; [exact Hreq |].
      apply Forall_app. split; [exact Hreq |].
      constructor; [| constructor]. cbn. by rewrite Hmb.
Qed.

(** X13.  With a default fetch size that is positive and a maximum between it
    and 2^30, the fetch size of a stream stays between the default and the
    maximum whatever the stream receives, and every request it sends asks for
    a number of bytes in that range. *)
Theorem fetchSize_stays_in_range (f : factory) (i : instanceID) (off : Z)
    (ch : chan) (evs : list event) (s : loop) :
  saramaCfg f = cfg ->
  0 < Consumer_Fetch_Default cfg <= Consumer_Fetch_Max cfg ->
  Consumer_Fetch_Max cfg <= 2 ^ 30 ->
  run cfg (start (spawnMsgStream f i off) ch) evs = Some s ->
  Consumer_Fetch_Default cfg <= fetchSize (ms s) <= Consumer_Fetch_Max cfg /\
  Forall (fun r => Consumer_Fetch_Default cfg <= fr_MaxBytes r.2
                   <= Consumer_Fetch_Max cfg) (requestsSent s).
Proof.
  intros Hf Hcfg Hmax Hrun.
  eapply (fetchSize_run evs Hcfg Hmax); [| | exact Hrun].
  - cbn. rewrite Hf. lia.
  - constructor.
Qed.

End stream_more.

Section stream_more_examples.

Import msgstream inputs.

(** X5 on a stream that fetches two messages, pushes them and sends its second
    request. *)
Lemma one_fetch_outstanding_witness :
  exists s,
    run cfg0 (start (stream_at cfg0 100) 9%nat)
        [assignment (Some 7%nat) 0; requestSent;
         fetchResult (response_for ("t", 0) (records 105 [100; 101])) 0 true;
         messageSent; messageSent; requestSent] = Some s /\
    (arms s <= 1)%nat /\ length (requestsSent s) = 2%nat.
Proof.
  eexists. split; [vm_compute; reflexivity |].
  edestruct (one_fetch_outstanding cfg0 (SpawnFactory cfg0 cluster_up)
               ("t", 0) 100 9%nat
               [assignment (Some 7%nat) 0; requestSent;
                fetchResult (response_for ("t", 0) (records 105 [100; 101]))
                            0 true;
                messageSent; messageSent; requestSent])
    as [Ha Hc]; [vm_compute; reflexivity |].
  split; [exact Ha | exact Hc].
Defined.

(** X6 on a stream of ("t", 0) that has pushed its first message. *)
Lemma stream_labels_its_output_witness :
  exists s,
    run cfg0 (start (stream_at cfg0 100) 9%nat)
        [assignment (Some 7%nat) 0; requestSent;
         fetchResult (response_for ("t", 0) (records 105 [100; 101])) 0 true;
         messageSent] = Some s /\
    Forall (fun m => Topic m = "t" /\ Partition m = 0) (messagesCh (ms s)) /\
    length (messagesCh (ms s)) = 1%nat.
Proof.
  eexists. split; [vm_compute; reflexivity |].
  edestruct (stream_labels_its_output cfg0 (SpawnFactory cfg0 cluster_up)
               ("t", 0) 100 9%nat
               [assignment (Some 7%nat) 0; requestSent;
                fetchResult (response_for ("t", 0) (records 105 [100; 101]))
                            0 true;
                messageSent])
    as (Hm & _); [vm_compute; reflexivity |].
  split; [exact Hm | reflexivity].
Defined.

(** X7 on a failed fetch with [Consumer.Return.Errors] off: no error is
    reported, a reassignment is asked for. *)
Lemma errors_only_if_enabled_witness :
  exists s,
    run cfg0 (start (stream_at cfg0 100) 9%nat)
        [assignment (Some 7%nat) 0; requestSent;
         fetchResult {| Response := None; res_Err := Some (OtherError "EOF") |}
                     today true] = Some s /\
    errorsCh (ms s) = [] /\ reassigns (ms s) = 1%nat.
Proof.
  eexists. split; [vm_compute; reflexivity |].
  edestruct (errors_only_if_enabled cfg0 (SpawnFactory cfg0 cluster_up)
               ("t", 0) 100 9%nat
               [assignment (Some 7%nat) 0; requestSent;
                fetchResult
                  {| Response := None; res_Err := Some (OtherError "EOF") |}
                  today true])
    as (_ & Hoff); [vm_compute; reflexivity |].
  split; [exact (Hoff eq_refl) | reflexivity].
Defined.

(** X8 on [ErrOffsetOutOfRange] with errors returned: the loop ends, the error
    is reported, no reassignment is asked for. *)
Lemma fetch_error_effects_witness :
  exists s',
    step cfg_unbounded (requested cfg_unbounded 100)
         (fetchResult
            {| Response := None; res_Err := Some ErrOffsetOutOfRange |}
            today true) = Some s' /\
    done_ s' = true /\
    errorsCh (ms s')
    = [{| err_Topic := "t"; err_Partition := 0;
          err_Err := ErrOffsetOutOfRange |}] /\
    reassigns (ms s') = 0%nat.
Proof.
  destruct (fetch_error_effects cfg_unbounded (requested cfg_unbounded 100)
              {| Response := None; res_Err := Some ErrOffsetOutOfRange |}
              today true ErrOffsetOutOfRange)
    as (s' & Hs & _ & _ & _ & He & _ & Hd & Hr & _).
  - by split_and!.
  - reflexivity.
  - exists s'. split; [exact Hs |]. split; [exact Hd |].
    split; [exact He | exact Hr].
Defined.

(** X9 on a stream at offset 100 that is sent the messages 98 and 99. *)
Lemma stale_batch_is_incomplete_witness :
  exists s',
    step cfg_unbounded (requested cfg_unbounded 100)
         (fetchResult (response_for ("t", 0) (records 105 [98; 99]))
                      today true) = Some s' /\
    messagesCh (ms s') = [] /\ offset (ms s') = 100 /\
    errorsCh (ms s')
    = [{| err_Topic := "t"; err_Partition := 0;
          err_Err := ErrIncompleteResponse |}] /\
    assignedBrokerRequestCh (ms s') = None.
Proof.
  destruct (stale_batch_is_incomplete cfg_unbounded
              (requested cfg_unbounded 100)
              (response_for ("t", 0) (records 105 [98; 99]))
              (records 105 [98; 99]) today true)
    as (s' & Hs & Hm & Ho & _ & _ & He & _ & _ & Ha & _).
  - by split_and!.
  - split; [reflexivity | by eexists].
  - discriminate.
  - reflexivity.
  - exists s'. split; [exact Hs |]. split; [exact Hm |].
    split; [exact Ho |]. split; [exact He | exact Ha].
Defined.

(** X10 on a batch of three messages of which one is pushed: executor 8,
    assigned then, gets the request for offset 103 once the two others are
    pushed. *)
Lemma reassignment_waits_for_drain_witness :
  exists s1 s2,
    step cfg0 pushing (assignment (Some 8%nat) 0) = Some s1 /\
    run cfg0 s1 [messageSent; messageSent; requestSent] = Some s2 /\
    map fst (requestsSent s2) = [7; 8]%nat /\
    map (fun r => fr_Offset r.2) (requestsSent s2) = [100; 103].
Proof.
  assert (draining pushing) as Hdr
    by (split_and!; vm_compute; [reflexivity .. | lia]).
  destruct (reassignment_waits_for_drain cfg0 pushing 8%nat 0 Hdr)
    as (s1 & s2 & cm & Hs1 & _ & _ & Hlast & Hrun & _ & Hreq).
  assert (replicate
            (length (drop (currMessageIdx pushing) (fetchedMessages pushing)))
            messageSent ++ [requestSent]
          = [messageSent; messageSent; requestSent]) as E
    by (vm_compute; reflexivity).
  rewrite E in Hrun.
  vm_compute in Hlast. injection Hlast as <-.
  exists s1, s2. split; [exact Hs1 |]. split; [exact Hrun |].
  rewrite Hreq. split; vm_compute; reflexivity.
Defined.

(** X11 on a fresh stream that is assigned no broker today: its first
    reassignment request. *)
Lemma reassign_spacing_witness :
  exists s',
    step cfg0 (start (stream_at cfg0 100) 9%nat) (assignment None today)
    = Some s' /\
    reassigns (ms s') = 1%nat /\ lastReassignTime (ms s') = today.
Proof.
  destruct (step cfg0 (start (stream_at cfg0 100) 9%nat)
              (assignment None today)) as [s' |] eqn:Hs;
    [| vm_compute in Hs; discriminate Hs].
  exists s'. split; [reflexivity |].
  assert (MinInt64 <= Consumer_Retry_Backoff cfg0) as Hmin
    by (vm_compute; discriminate).
  pose proof (reassign_spacing cfg0 _ s' _ Hmin Hs) as H.
  vm_compute in Hs. injection Hs as <-.
  destruct H as [[_ [H | [[now' H] _]]] | [_ H]].
  - vm_compute in H. discriminate H.
  - discriminate H.
  - split; [exact H | reflexivity].
Defined.

(** X12 on a stream assigned executor 7. *)
Lemma requests_go_to_assigned_executors_witness :
  exists s,
    run cfg0 (start (stream_at cfg0 100) 9%nat)
        [assignment (Some 7%nat) 0; requestSent] = Some s /\
    Forall (fun r => r.1 ∈ [7%nat]) (requestsSent s) /\
    length (requestsSent s) = 1%nat.
Proof.
  eexists. split; [vm_compute; reflexivity |].
  split; [| reflexivity].
  apply (requests_go_to_assigned_executors cfg0
           (SpawnFactory cfg0 cluster_up) ("t", 0) 100 9%nat
           [assignment (Some 7%nat) 0; requestSent]).
  vm_compute; reflexivity.
Defined.

(** X13 on three partial responses in a row, with a maximum of four times the
    default: 32768, 65536, 131072, and the maximum again. *)
Lemma fetchSize_stays_in_range_witness :
  exists s,
    run cfg_bounded (start (stream_at cfg_bounded 100) 9%nat)
        [assignment (Some 7%nat) 0; requestSent;
         fetchResult (response_for ("t", 0) partial) 0 true; requestSent;
         fetchResult (response_for ("t", 0) partial) 0 true; requestSent;
         fetchResult (response_for ("t", 0) partial) 0 true; requestSent]
    = Some s /\
    map (fun r => fr_MaxBytes r.2) (requestsSent s)
    = [32768; 65536; 131072; 131072] /\
    32768 <= fetchSize (ms s) <= 131072.
Proof.
  eexists. split; [vm_compute; reflexivity |].
  edestruct (fetchSize_stays_in_range cfg_bounded
               (SpawnFactory cfg_bounded cluster_up) ("t", 0) 100 9%nat
               [assignment (Some 7%nat) 0; requestSent;
                fetchResult (response_for ("t", 0) partial) 0 true;
                requestSent;
                fetchResult (response_for ("t", 0) partial) 0 true;
                requestSent;
                fetchResult (response_for ("t", 0) partial) 0 true;
                requestSent]) as [Hfs _];
    [reflexivity | cbn; lia | cbn; lia | vm_compute; reflexivity |].
  split; [reflexivity | exact Hfs].
Defined.

End stream_more_examples.

(** ** The broker executor: answers, batches, shutdown *)

Section executor_more.

Import msgstream inputs.

Variable config : Config.

(** X14.  Whatever the clock and the connection do, the sender answers every
    request of every batch once, in the order of the batch and on the
    request's own reply channel, all requests of a batch with the same
    response and error; and it issues at most one wire request per batch, the
    one composed from that batch. *)
Theorem runExecutor_answers_each_request (batches : list batchEvent) :
  forall st : sender,
    Forall2 (fun b out =>
               (exists res err,
                  out.2 = map (reply res err) (be_requests b)) /\
               map fst out.2 = map ReplyToCh (be_requests b) /\
               (out.1 = [] \/
                out.1 = [fetchRequest_for config (be_requests b)]))
            batches (runExecutor config st batches).2.
Proof.
  induction batches as [| b rest IH]; intros st; cbn [runExecutor].
  - cbn. constructor.
  - destruct (execute config st (be_requests b) (be_now b) (be_fetch b)
                      (be_errNow b)) as [[st' w] r] eqn:He.
    specialize (IH st').
    destruct (runExecutor config st' rest) as [st'' out]. cbn in *.
    constructor; [| exact IH]. cbn.
    pose proof (execute_replies config st (be_requests b) (be_now b)
                  (be_fetch b) (be_errNow b)) as Hr.
    rewrite He in Hr. cbn in Hr.
    split; [| split; [exact Hr |]];
      unfold execute in He;
      destruct (Sub (be_now b) (lastErrTime st)
                <? Consumer_Retry_Backoff config);
      [| destruct (be_fetch b _) as [res err] | |
       destruct (be_fetch b _) as [res err]];
      injection He as <- <- <-; eauto.
Qed.

Lemma count_map_fst {A : Type} (ch : chan) (l : list (chan * A)) :
  length (List.filter (fun r => bool_decide (r.1 = ch)) l)
  = length (List.filter (fun c => bool_decide (c = ch)) (map fst l)).
Proof.
  induction l as [| [c a] l IH]; cbn; [reflexivity |].
  destruct (bool_decide (c = ch)); cbn; by rewrite IH.
Qed.

Lemma count_map_ReplyToCh (ch : chan) (l : list fetchReq) :
  length (List.filter (fun fr => bool_decide (ReplyToCh fr = ch)) l)
  = length (List.filter (fun c => bool_decide (c = ch)) (map ReplyToCh l)).
Proof.
  induction l as [| fr l IH]; cbn; [reflexivity |].
  destruct (bool_decide (ReplyToCh fr = ch)); cbn; by rewrite IH.
Qed.

(** X15.  An executor answers in the order it was asked: in every run from
    [SpawnExecutor] the reply channels answered so far, followed by those of
    the requests not yet answered (the batch with the sender, then the
    aggregator's buffer), are the reply channels of the requests accepted, in
    order. So the replies sent on a channel and the unanswered requests for it
    add up to the requests accepted for it: no request is answered twice. *)
Theorem executor_answers_in_order (evs : list be_event)
    (b : brokerExecutor) :
  be_run config SpawnExecutor evs = Some b ->
  map ReplyToCh (accepted b)
  = map fst (replies b) ++ map ReplyToCh (unanswered b) /\
  (forall ch,
     asked_on b ch
     = (replies_on b ch
        + length (List.filter (fun fr => bool_decide (ReplyToCh fr = ch))
                              (unanswered b)))%nat).
Proof.
  intros Hrun.
  destruct (be_run_replies config evs _ _ be_inv_SpawnExecutor Hrun)
    as [[Hinv _] _].
  assert (map ReplyToCh (accepted b)
          = map fst (replies b) ++ map ReplyToCh (unanswered b)) as Hall
    by (unfold unanswered; by rewrite map_app).
  split; [exact Hall |].
  intros ch. unfold replies_on, asked_on.
  rewrite count_map_fst, !count_map_ReplyToCh, Hall.
  by rewrite List.filter_app, length_app.
Qed.

Lemma execute_wire_blocks (st : sender) (fetchRequests : list fetchReq)
    (now : Time) fetch (errNow : Time) :
  fetchRequests <> [] ->
  Forall (fun w => req_blocks w <> [])
         (execute config st fetchRequests now fetch errNow).1.2.
Proof.
  intros Hne. unfold execute.
  destruct (Sub now (lastErrTime st) <? Consumer_Retry_Backoff config);
    [constructor |].
  destruct (fetch _) as [res err]. cbn.
  constructor; [| constructor]. cbn.
  by destruct fetchRequests.
Qed.

Lemma be_batches_step (b b' : brokerExecutor) (e : be_event) :
  be_batches b -> be_step config b e = Some b' -> be_batches b'.
Proof.
  intros (Hoffer & Hhand & Hwire) Hs.
  destruct e as [fr | | | | now fetch errNow |]; cbn in Hs.
  - destruct (aggr_running b && negb (requestsCh_closed b));
      [| discriminate].
    injection Hs as <-. split_and!; cbn; try assumption.
    split; [intros _ | reflexivity]. by destruct (batchRequest b).
  - destruct (aggr_running b && requestsCh_closed b); [| discriminate].
    injection Hs as <-. by split_and!.
  - destruct (requestsCh_closed b); [discriminate |].
    injection Hs as <-. by split_and!.
  - destruct (nilOrBatchRequestCh b) eqn:Hn;
      [| by rewrite andb_false_r in Hs].
    destruct (aggr_running b && true && exec_running b
              && bool_decide (exec_batch b = None)); [| discriminate].
    injection Hs as <-. split_and!; cbn; try assumption.
    + split; [discriminate | done].
    + intros l [= <-]. by apply Hoffer.
  - destruct (exec_batch b) as [l |] eqn:Hb; [| discriminate].
    pose proof (execute_wire_blocks (exec_vars b) l now fetch errNow
                  (Hhand l eq_refl)) as Hw.
    destruct (execute config (exec_vars b) l now fetch errNow)
      as [[st' w] r].
    injection Hs as <-. split_and!; cbn; try assumption.
    + discriminate.
    + apply Forall_app. by split.
  - destruct (exec_running b && batchRequestsCh_closed b
              && bool_decide (exec_batch b = None)); [| discriminate].
    injection Hs as <-. split_and!; cbn; try assumption. discriminate.
Qed.

Lemma be_batches_run (evs : list be_event) :
  forall b b' : brokerExecutor,
    be_batches b -> be_run config b evs = Some b' -> be_batches b'.
Proof.
  induction evs as [| e evs IH]; intros b b' Hinv; cbn.
  - by intros [= <-].
  - destruct (be_step config b e) as [b1 |] eqn:Hs; [| discriminate].
    apply IH. by eapply be_batches_step.
Qed.

(** X16.  The aggregator offers a batch only while it holds a request, so in
    every run from [SpawnExecutor] the batch the sender works on is not empty
    and every wire request carries at least one block. *)
Theorem no_empty_batch (evs : list be_event) (b : brokerExecutor) :
  be_run config SpawnExecutor evs = Some b ->
  (nilOrBatchRequestCh b = true <-> batchRequest b <> []) /\
  (forall l, exec_batch b = Some l -> l <> []) /\
  Forall (fun w => req_blocks w <> []) (wire b).
Proof.
  intros Hrun. eapply be_batches_run; [| exact Hrun].
  split_and!; cbn; [split; [discriminate | done] | discriminate |
                    constructor].
Qed.

Lemma be_order_step (b b' : brokerExecutor) (e : be_event) :
  be_order b -> be_step config b e = Some b' -> be_order b'.
Proof.
  intros (Haggr & Hbatch & Hexec) Hs.
  destruct e as [fr | | | | now fetch errNow |]; cbn in Hs.
  - destruct (aggr_running b) eqn:Ha; [| discriminate].
    destruct (negb (requestsCh_closed b)); [| discriminate].
    injection Hs as <-. by split_and!.
  - destruct (aggr_running b) eqn:Ha; [| discriminate].
    destruct (requestsCh_closed b); [| discriminate].
    injection Hs as <-. split_and!; cbn; try done.
    intros Hx. by destruct (Hexec Hx).
  - destruct (requestsCh_closed b); [discriminate |].
    injection Hs as <-. by split_and!.
  - destruct (aggr_running b) eqn:Ha; [| discriminate].
    destruct (nilOrBatchRequestCh b); [| discriminate].
    destruct (exec_running b) eqn:Hx; [| discriminate].
    destruct (bool_decide (exec_batch b = None)); [| discriminate].
    injection Hs as <-. by split_and!.
  - destruct (exec_batch b) as [l |] eqn:Hb; [| discriminate].
    destruct (execute config (exec_vars b) l now fetch errNow)
      as [[st' w] r].
    injection Hs as <-. split_and!; cbn; try done.
    intros Hx. by destruct (Hexec Hx).
  - destruct (exec_running b) eqn:Hx; [| discriminate].
    destruct (batchRequestsCh_closed b) eqn:Hc; [| discriminate].
    destruct (bool_decide (exec_batch b = None)); [| discriminate].
    injection Hs as <-. by split_and!.
Qed.

Lemma be_order_run (evs : list be_event) :
  forall b b' : brokerExecutor,
    be_order b -> be_run config b evs = Some b' -> be_order b'.
Proof.
  induction evs as [| e evs IH]; intros b b' Hinv; cbn.
  - by intros [= <-].
  - destruct (be_step config b e) as [b1 |] eqn:Hs; [| discriminate].
    apply IH. by eapply be_order_step.
Qed.

Lemma be_order_SpawnExecutor : be_order SpawnExecutor.
Proof. by split_and!. Qed.

(** X17.  The two loops of an executor end in order: the aggregator only after
    [Stop] has closed [requestsCh], closing [batchRequestsCh] as it returns
    and not before, and the sender only after the aggregator, with no batch
    left in its hands. *)
Theorem executor_ends_in_order (evs : list be_event) (b : brokerExecutor) :
  be_run config SpawnExecutor evs = Some b ->
  (aggr_running b = false -> requestsCh_closed b = true) /\
  batchRequestsCh_closed b = negb (aggr_running b) /\
  (exec_running b = false ->
   aggr_running b = false /\ exec_batch b = None).
Proof.
  intros Hrun.
  destruct (be_order_run evs _ _ be_order_SpawnExecutor Hrun)
    as (Haggr & Hbatch & Hexec).
  split_and!.
  - intros Ha. destruct (requestsCh_closed b); [reflexivity |].
    rewrite Haggr in Ha; done.
  - exact Hbatch.
  - intros Hx. destruct (Hexec Hx) as [Hc Hb]. split; [| exact Hb].
    rewrite Hbatch in Hc. by destruct (aggr_running b).
Qed.

Lemma after_Stop_step (b b' : brokerExecutor) (e : be_event) :
  requestsCh_closed b = true -> be_step config b e = Some b' ->
  requestsCh_closed b' = true /\ accepted b' = accepted b /\
  (S (be_left b') <= be_left b)%nat /\
  e <> be_Stop /\ (forall fr, e <> aggr_recv fr).
Proof.
  intros Hcl Hs. unfold be_left.
  destruct e as [fr | | | | now fetch errNow |]; cbn in Hs.
  - by rewrite Hcl, andb_false_r in Hs.
  - destruct (aggr_running b); [| discriminate]. rewrite Hcl in Hs.
    injection Hs as <-. cbn.
    split_and!; try done.
    all: destruct (nilOrBatchRequestCh b), (exec_running b), (exec_batch b);
      cbn; lia.
  - by rewrite Hcl in Hs.
  - destruct (aggr_running b); [| discriminate].
    destruct (nilOrBatchRequestCh b); [| discriminate].
    destruct (exec_running b); [| discriminate].
    destruct (exec_batch b) as [l |]; [discriminate |].
    injection Hs as <-. cbn. split_and!; try done; lia.
  - destruct (exec_batch b) as [l |]; [| discriminate].
    destruct (execute config (exec_vars b) l now fetch errNow)
      as [[st' w] r].
    injection Hs as <-. cbn. split_and!; try done; lia.
  - destruct (exec_running b); [| discriminate].
    destruct (batchRequestsCh_closed b); [| discriminate].
    destruct (exec_batch b) as [l |]; [discriminate |].
    injection Hs as <-. cbn. split_and!; try done.
    all: destruct (aggr_running b && nilOrBatchRequestCh b), (aggr_running b);
      cbn; lia.
Qed.

Lemma after_Stop_run (evs : list be_event) :
  forall b b' : brokerExecutor,
    requestsCh_closed b = true -> be_run config b evs = Some b' ->
    requestsCh_closed b' = true /\ accepted b' = accepted b /\
    (length evs + be_left b' <= be_left b)%nat /\
    Forall (fun e => e <> be_Stop /\ forall fr, e <> aggr_recv fr) evs.
Proof.
  induction evs as [| e evs IH]; intros b b' Hcl; cbn [be_run length].
  - intros [= <-]. split_and!; try done.
  - destruct (be_step config b e) as [b1 |] eqn:Hs; [| discriminate].
    intros Hrun.
    destruct (after_Stop_step b b1 e Hcl Hs) as (Hcl1 & Ha1 & Hl1 & Hne).
    destruct (IH b1 b' Hcl1 Hrun) as (Hcl' & Ha' & Hl' & Hall).
    split_and!; [done | congruence | lia | by constructor].
Qed.

(** As long as one of the two loops of a stopped executor has not returned,
    some arm can fire. *)
Lemma after_Stop_progress (b : brokerExecutor) :
  be_order b -> requestsCh_closed b = true -> be_exited b = false ->
  exists e b', be_step config b e = Some b'.
Proof.
  intros (_ & Hbatch & _) Hcl Hex. unfold be_exited in Hex.
  destruct (aggr_running b) eqn:Ha.
  - exists aggr_recv_closed. cbn. rewrite Ha, Hcl. by eexists.
  - destruct (exec_running b) eqn:Hx; [| discriminate].
    destruct (exec_batch b) as [l |] eqn:Hb.
    + exists (exec_body 0 (fun _ => (None, None)) 0). cbn. rewrite Hb.
      destruct (execute config (exec_vars b) l 0 (fun _ => (None, None)) 0)
        as [[st' w] r].
      by eexists.
    + exists exec_range_closed. cbn. rewrite Hx, Hbatch, Hb. by eexists.
Qed.

(** X18.  [Stop] ends an executor that was not stopped before, whatever it
    is doing and in whatever order the arms of the two loops fire
    afterwards: both loops are still running when [Stop] closes [requestsCh];
    from then on at most five more turns can happen, none of them accepts a
    request and none is a second [Stop] (which panics); as long as a loop
    has not returned some turn can still happen; and when both have
    returned, the requests not answered are exactly those left in the
    aggregator's buffer. *)
Theorem Stop_ends_both_loops (evs : list be_event) (b : brokerExecutor) :
  be_run config SpawnExecutor evs = Some b ->
  requestsCh_closed b = false ->
  aggr_running b = true /\ exec_running b = true /\
  exists b0,
    be_step config b be_Stop = Some b0 /\
    forall (evs' : list be_event) (b' : brokerExecutor),
      be_run config b0 evs' = Some b' ->
      (length evs' <= 5)%nat /\
      accepted b' = accepted b /\
      Forall (fun e => e <> be_Stop /\ forall fr, e <> aggr_recv fr) evs' /\
      be_step config b' be_Stop = None /\
      (be_exited b' = false -> exists e b'', be_step config b' e = Some b'')
      /\
      (be_exited b' = true ->
       map ReplyToCh (accepted b)
       = map fst (replies b') ++ map ReplyToCh (batchRequest b')).
Proof.
  intros Hrun Hopen.
  destruct (be_order_run evs _ _ be_order_SpawnExecutor Hrun)
    as (Haggr & Hbatch & Hexec).
  specialize (Haggr Hopen).
  assert (exec_running b = true) as Hx.
  { destruct (exec_running b); [reflexivity |].
    destruct Hexec as [Hc _]; [reflexivity |].
    rewrite Hbatch, Haggr in Hc. discriminate. }
  split; [exact Haggr |]. split; [exact Hx |].
  destruct (be_step config b be_Stop) as [b0 |] eqn:Hstop;
    [| cbn in Hstop; by rewrite Hopen in Hstop].
  exists b0. split; [reflexivity |].
  assert (requestsCh_closed b0 = true /\ accepted b0 = accepted b /\
          (be_left b0 <= 5)%nat) as (Hcl0 & Hacc0 & Hleft0).
  { cbn in Hstop. rewrite Hopen in Hstop. injection Hstop as <-.
    unfold be_left. cbn. split_and!; try done.
    destruct (aggr_running b), (nilOrBatchRequestCh b), (exec_running b),
      (exec_batch b); cbn; lia. }
  assert (be_order b0) as Hord0.
  { eapply be_order_step; [| exact Hstop].
    exact (be_order_run evs _ _ be_order_SpawnExecutor Hrun). }
  assert (be_inv b0) as Hinv0.
  { eapply be_inv_step; [| exact Hstop].
    by destruct (be_run_replies config evs _ _ be_inv_SpawnExecutor Hrun). }
  intros evs' b' Hrun'.
  destruct (after_Stop_run evs' b0 b' Hcl0 Hrun') as (Hcl' & Hacc' & Hl & Hall).
  destruct (be_run_replies config evs' _ _ Hinv0 Hrun') as [_ Hdone].
  split_and!.
  - lia.
  - congruence.
  - exact Hall.
  - cbn. by rewrite Hcl'.
  - apply after_Stop_progress; [| exact Hcl'].
    by eapply be_order_run.
  - intros Hex. rewrite <- Hacc0, <- Hacc'. by apply Hdone.
Qed.

End executor_more.

Section executor_more_examples.

Import msgstream inputs.

(** X15 on two requests of which the first has been answered. *)
Lemma executor_answers_in_order_witness :
  exists b,
    be_run cfg0 SpawnExecutor
           [aggr_recv request1; hand_over; aggr_recv request2;
            exec_body today fetch_ok today] = Some b /\
    map fst (replies b) = [1%nat] /\ unanswered b = [request2] /\
    asked_on b 2%nat = 1%nat.
Proof.
  eexists. split; [vm_compute; reflexivity |].
  edestruct (executor_answers_in_order cfg0
               [aggr_recv request1; hand_over; aggr_recv request2;
                exec_body today fetch_ok today]) as [_ Hcount];
    [vm_compute; reflexivity |].
  split; [reflexivity |]. split; [reflexivity |].
  rewrite Hcount. reflexivity.
Defined.

(** X16 on one request that went to the wire. *)
Lemma no_empty_batch_witness :
  exists b,
    be_run cfg0 SpawnExecutor
           [aggr_recv request1; hand_over; exec_body today fetch_ok today]
    = Some b /\
    map req_blocks (wire b) = [[block_of request1]] /\
    nilOrBatchRequestCh b = false.
Proof.
  eexists. split; [vm_compute; reflexivity |].
  edestruct (no_empty_batch cfg0
               [aggr_recv request1; hand_over;
                exec_body today fetch_ok today]) as ([_ Hoffer] & _);
    [vm_compute; reflexivity |].
  split; [reflexivity |].
  cbn in Hoffer |- *. reflexivity.
Defined.

(** X17 on an executor stopped with a request in the aggregator's buffer: the
    aggregator has returned, the sender not yet. *)
Lemma executor_ends_in_order_witness :
  exists b,
    be_run cfg0 SpawnExecutor [aggr_recv request1; be_Stop; aggr_recv_closed]
    = Some b /\
    aggr_running b = false /\ batchRequestsCh_closed b = true /\
    exec_running b = true.
Proof.
  eexists. split; [vm_compute; reflexivity |].
  edestruct (executor_ends_in_order cfg0
               [aggr_recv request1; be_Stop; aggr_recv_closed])
    as (_ & Hbatch & _); [vm_compute; reflexivity |].
  split; [reflexivity |]. split; [exact Hbatch | reflexivity].
Defined.

(** X18 on an executor whose sender holds request 1 while request 2 waits in
    the buffer, on the schedule where the aggregator hands the buffer over
    before it finds [requestsCh] closed: both requests are answered. *)
Lemma Stop_ends_both_loops_witness :
  exists b b0 b',
    be_run cfg0 SpawnExecutor
           [aggr_recv request1; hand_over; aggr_recv request2] = Some b /\
    be_step cfg0 b be_Stop = Some b0 /\
    be_run cfg0 b0
           [exec_body today fetch_ok today; hand_over;
            exec_body today fetch_ok today; aggr_recv_closed;
            exec_range_closed] = Some b' /\
    be_exited b' = true /\
    map fst (replies b') = [1; 2]%nat /\ batchRequest b' = [].
Proof.
  destruct (be_run cfg0 SpawnExecutor
              [aggr_recv request1; hand_over; aggr_recv request2])
    as [b |] eqn:Hb; [| vm_compute in Hb; discriminate Hb].
  pose proof (Stop_ends_both_loops cfg0 _ b Hb) as H.
  vm_compute in Hb. injection Hb as <-.
  destruct H as (_ & _ & b0 & Hstop & Hall); [reflexivity |].
  pose proof Hstop as Hstop'.
  vm_compute in Hstop'. injection Hstop' as <-.
  match type of Hstop with
  | _ = Some ?b0 =>
    destruct (be_run cfg0 b0
                [exec_body today fetch_ok today; hand_over;
                 exec_body today fetch_ok today; aggr_recv_closed;
                 exec_range_closed]) as [b' |] eqn:Hrun
  end; [| vm_compute in Hrun; discriminate Hrun].
  destruct (Hall _ _ Hrun) as (_ & _ & _ & _ & _ & Hdone).
  vm_compute in Hrun. injection Hrun as <-.
  eexists _, _, _. split; [reflexivity |]. split; [exact Hstop |].
  split; [vm_compute; reflexivity |]. split; [reflexivity |].
  split; [| reflexivity].
  specialize (Hdone eq_refl). cbn in Hdone. symmetry. exact Hdone.
Defined.

End executor_more_examples.

(** ** The graceful producer: the merger, the way to the callers, shutdown *)

Section producer_more.

Import pixy.

Variable deadMessageCh_set : bool.

(** One turn of the merger. *)
Lemma merger_step_ok (m m' : mergerState) (e : merger_event) :
  merger_ok m -> merger_step m e = Some m' ->
  merger_ok m' /\
  resultCh m' = resultCh m ++ merged e /\
  nilOrProdSuccessesCh m'
  = nilOrProdSuccessesCh m && negb (successes_done e) /\
  nilOrProdErrorsCh m' = nilOrProdErrorsCh m && negb (errors_done e).
Proof.
  intros [Hc Hcl] Hs. destruct m as [sc ec c r cl]. cbn in Hc, Hcl.
  subst c cl. unfold merger_step in Hs.
  destruct e, sc, ec; cbn in Hs; try discriminate;
    injection Hs as <-; unfold merger_ok;
    split_and!; try reflexivity; cbn; by rewrite ?app_nil_r.
Qed.

Lemma merger_run_ok (evs : list merger_event) :
  forall m m' : mergerState,
    merger_ok m -> merger_run m evs = Some m' ->
    merger_ok m' /\
    resultCh m' = resultCh m ++ flat_map merged evs /\
    nilOrProdSuccessesCh m'
    = nilOrProdSuccessesCh m && negb (existsb successes_done evs) /\
    nilOrProdErrorsCh m'
    = nilOrProdErrorsCh m && negb (existsb errors_done evs).
Proof.
  induction evs as [| e evs IH]; intros m m' Hok; cbn.
  - intros [= <-]. by rewrite app_nil_r, !andb_true_r.
  - destruct (merger_step m e) as [m1 |] eqn:Hs; [| discriminate].
    intros Hrun.
    destruct (merger_step_ok m m1 e Hok Hs) as (Hok1 & Hr1 & Hs1 & He1).
    destruct (IH m1 m' Hok1 Hrun) as (Hok' & -> & -> & ->).
    rewrite Hr1, Hs1, He1, !negb_orb, <- !app_assoc, <- !andb_assoc.
    done.
Qed.

(** X19.  The merger forwards what the sarama producer reports: each
    acknowledgement and each error becomes one result on [resultCh], in the
    order received, an acknowledgement with a nil error. It closes [resultCh]
    when both channels of the sarama producer have been found closed and not
    before, and then does nothing more: it never sends on the closed channel
    and never closes it twice. *)
Theorem merger_forwards (evs : list merger_event) (m : mergerState) :
  merger_run merger_start evs = Some m ->
  resultCh m = flat_map merged evs /\
  nilOrProdSuccessesCh m = negb (existsb successes_done evs) /\
  nilOrProdErrorsCh m = negb (existsb errors_done evs) /\
  resultCh_closed_ m
  = existsb successes_done evs && existsb errors_done evs /\
  (resultCh_closed_ m = true -> forall e, merger_step m e = None).
Proof.
  intros Hrun.
  destruct (merger_run_ok evs merger_start m) as ([_ Hcl] & Hr & Hs & He);
    [by split | exact Hrun |].
  cbn in Hr, Hs, He.
  split_and!; try assumption.
  - rewrite Hcl, Hs, He. by rewrite !negb_involutive.
  - intros Hclosed e. unfold merger_step. by rewrite Hclosed.
Qed.

(** X20.  From the sarama producer to the callers: when the dispatcher has
    received what the merger sent, the replies it sent are those of the
    acknowledgements and errors of the sarama producer, in order. A message
    submitted by [Produce] that is acknowledged has nil sent on its reply
    channel, one that fails has its error sent there, and nothing is sent on
    any channel but for such a message; the dead messages are the failed ones.
*)
Theorem results_reach_callers (mevs : list merger_event) (m : mergerState)
    (devs : list event) (d : dispatcher) :
  merger_run merger_start mevs = Some m ->
  run deadMessageCh_set start devs = Some d ->
  flat_map result_of devs = resultCh m ->
  replyCh d = flat_map acks (flat_map merged mevs) /\
  deadMessageCh d
  = flat_map (dead_letters deadMessageCh_set) (flat_map merged mevs) /\
  (forall topic key message ch,
     In (successes_recv (Produce topic key message ch)) mevs ->
     In (ch, None) (replyCh d)) /\
  (forall topic key message ch err,
     In (errors_recv {| pe_Msg := Produce topic key message ch;
                        pe_Err := err |}) mevs ->
     In (ch, err) (replyCh d)) /\
  (forall ch err,
     In (ch, err) (replyCh d) ->
     exists msg,
       Metadata msg = Some ch /\
       ((err = None /\ In (successes_recv msg) mevs) \/
        In (errors_recv {| pe_Msg := msg; pe_Err := err |}) mevs)).
Proof.
  intros Hm Hd Hlink.
  destruct (merger_run_ok mevs merger_start m) as (_ & Hr & _);
    [by split | exact Hm |].
  cbn in Hr.
  destruct (dispatcher_run deadMessageCh_set devs start d 0)
    as (_ & Hreply & Hdead & _);
    [unfold stroke_ok; cbn; repeat split; congruence | reflexivity |
     exact Hd |].
  cbn in Hreply, Hdead. rewrite Hlink, Hr in Hreply, Hdead.
  split; [exact Hreply |]. split; [exact Hdead |].
  rewrite Hreply. split_and!.
  - intros topic key message ch Hin.
    apply in_flat_map. eexists. split.
    + apply in_flat_map. eexists. split; [exact Hin |]. by left.
    + by left.
  - intros topic key message ch err Hin.
    apply in_flat_map. eexists. split.
    + apply in_flat_map. eexists. split; [exact Hin |]. by left.
    + by left.
  - intros ch err (r & (e & Hin & Hr')%in_flat_map & Ha)%in_flat_map.
    unfold acks in Ha.
    destruct (Metadata (Msg r)) as [ch' |] eqn:Hmeta; [| destruct Ha].
    destruct Ha as [[= <- <-] | []].
    destruct e as [msg | | [msg err] |]; cbn in Hr';
      try (destruct Hr'; fail); destruct Hr' as [<- | []]; cbn in *.
    + exists msg. split; [exact Hmeta |]. left. by split.
    + exists msg. split; [exact Hmeta |]. by right.
Qed.

(** One turn of the dispatcher, seen from its place in the shutdown. *)
Lemma closes_once_step (d d' : dispatcher) (e : event) :
  closes_once d -> step deadMessageCh_set d e = Some d' ->
  closes_once d' /\
  (phase_rank (at_ d) <= phase_rank (at_ d'))%nat /\
  (at_ d <> normal -> Input d' = Input d /\ accepted_of e = []).
Proof.
  intros [Hac Hpend] Hs. unfold step in Hs. unfold closes_once.
  destruct (at_ d) eqn:Hat, e as [m | | | r | |]; try discriminate.
  - destruct (nilOrDispatcherCh d); [| discriminate].
    injection Hs as <-. cbn. split_and!; done.
  - destruct (nilOrDispatcherCh d); [| discriminate].
    injection Hs as <-. unfold drain_head. cbn.
    destruct (0 <? pendingMsgCount d) eqn:Hp; cbn.
    + apply Z.ltb_lt in Hp. split_and!; try done; lia.
    + split_and!; try done; [by rewrite Hac | lia].
  - destruct (nilOrProdInputCh d), (prodMsg d); try discriminate.
    injection Hs as <-. cbn. split_and!; done.
  - injection Hs as <-. cbn. rewrite Hat. split_and!; done.
  - injection Hs as <-. unfold drain_head. cbn.
    destruct (0 <? wrap64 (pendingMsgCount d - 1)) eqn:Hp; cbn.
    + apply Z.ltb_lt in Hp. split_and!; try done; lia.
    + split_and!; try done; [by rewrite Hac | lia].
  - injection Hs as <-. cbn. split_and!; try done; [by rewrite Hac | lia].
  - injection Hs as <-. cbn. rewrite Hat. split_and!; done.
  - injection Hs as <-. cbn. split_and!; try done. lia.
Qed.

Lemma closes_once_run (evs : list event) :
  forall d d' : dispatcher,
    closes_once d -> run deadMessageCh_set d evs = Some d' ->
    closes_once d' /\
    (phase_rank (at_ d) <= phase_rank (at_ d'))%nat /\
    (at_ d <> normal -> Input d' = Input d /\ flat_map accepted_of evs = []).
Proof.
  induction evs as [| e evs IH]; intros d d' Hok; cbn [run flat_map].
  - intros [= <-]. split_and!; done.
  - destruct (step deadMessageCh_set d e) as [d1 |] eqn:Hs; [| discriminate].
    intros Hrun.
    destruct (closes_once_step d d1 e Hok Hs) as (Hok1 & Hle1 & Hin1).
    destruct (IH d1 d' Hok1 Hrun) as (Hok' & Hle' & Hin').
    split; [exact Hok' |]. split; [lia |].
    intros Hat. destruct (Hin1 Hat) as [Hi1 Ha1].
    destruct Hin' as [Hi' Ha'].
    { intros Hn. rewrite Hn in Hle1. destruct (at_ d); cbn in Hle1;
        try lia; done. }
    split; [congruence | by rewrite Ha1, Ha'].
Qed.

(** X21.  The shutdown of the dispatcher goes one way: from the normal loop to
    the drain loop, the final loop and the return, never back. [AsyncClose] is
    called exactly once, on entering the final loop, and not before; the drain
    loop is only ever waited in with results pending; and once the normal loop
    is left no submission is accepted and nothing more is passed to the sarama
    producer. *)
Theorem shutdown_goes_one_way (evs1 evs2 : list event) (d1 d2 : dispatcher) :
  run deadMessageCh_set start evs1 = Some d1 ->
  run deadMessageCh_set d1 evs2 = Some d2 ->
  asyncClose d2
  = match at_ d2 with
    | normal | gracefulShutdown => 0%nat
    | shutdownNow | returned => 1%nat
    end /\
  (at_ d2 = gracefulShutdown -> 0 < pendingMsgCount d2) /\
  (phase_rank (at_ d1) <= phase_rank (at_ d2))%nat /\
  (at_ d1 <> normal ->
   Input d2 = Input d1 /\ flat_map accepted_of evs2 = []).
Proof.
  intros H1 H2.
  destruct (closes_once_run evs1 start d1) as (Hok1 & _);
    [by split | exact H1 |].
  destruct (closes_once_run evs2 d1 d2 Hok1 H2) as ([Hac Hp] & Hle & Hin).
  split_and!; assumption.
Qed.

(** X22.  The drain loop waits for as many results as are pending, no more:
    with [n] results pending it handles the next [n] results, answering each,
    and with the last of them goes on to [AsyncClose]; until then it stays in
    the drain loop and [AsyncClose] is not called. *)
Theorem graceful_drain_counts (rs : list ProduceResult) :
  forall d : dispatcher,
    at_ d = gracefulShutdown ->
    0 < pendingMsgCount d <= MaxInt64 ->
    Z.of_nat (length rs) <= pendingMsgCount d ->
    exists d',
      run deadMessageCh_set d (map resultCh_recv rs) = Some d' /\
      pendingMsgCount d' = pendingMsgCount d - Z.of_nat (length rs) /\
      replyCh d' = replyCh d ++ flat_map acks rs /\
      deadMessageCh d'
      = deadMessageCh d ++ flat_map (dead_letters deadMessageCh_set) rs /\
      if Z.of_nat (length rs) =? pendingMsgCount d
      then at_ d' = shutdownNow /\ asyncClose d' = S (asyncClose d)
      else at_ d' = gracefulShutdown /\ asyncClose d' = asyncClose d.
Proof.
  induction rs as [| r rs IH]; intros d Hat Hp Hlen.
  - exists d. cbn. change (Z.of_nat 0) with 0. rewrite !app_nil_r.
    replace (0 =? pendingMsgCount d) with false
      by (symmetry; apply Z.eqb_neq; lia).
    split_and!; try done. lia.
  - cbn [map run length]. unfold step. rewrite Hat.
    cbn [length] in Hlen.
    assert (wrap64 (pendingMsgCount d - 1) = pendingMsgCount d - 1) as Hw
      by (apply wrap64_id; unfold int64, MinInt64, MaxInt64 in *; lia).
    pose proof (handleProduceResult_fields deadMessageCh_set
                  (set_pendingMsgCount (wrap64 (pendingMsgCount d - 1)) d) r)
      as Hf. cbv zeta in Hf.
    set (d1 := handleProduceResult deadMessageCh_set
                 (set_pendingMsgCount (wrap64 (pendingMsgCount d - 1)) d) r)
      in *.
    assert (asyncClose d1 = asyncClose d) as Hac1 by reflexivity.
    destruct Hf as (_ & _ & _ & _ & Hp1 & _ & Hr1 & Hd1).
    change (pendingMsgCount d1 = wrap64 (pendingMsgCount d - 1)) in Hp1.
    change (replyCh d1 = replyCh d ++ acks r) in Hr1.
    change (deadMessageCh d1
            = deadMessageCh d ++ dead_letters deadMessageCh_set r) in Hd1.
    rewrite Hw in Hp1. clearbody d1.
    destruct (drain_head_fields d1) as (_ & _ & _ & Hp2 & _ & Hr2 & Hd2 & _).
    destruct (decide (pendingMsgCount d = 1)) as [H1 | H1].
    + assert (rs = []) as -> by (destruct rs; [done | cbn in Hlen; lia]).
      cbn [map run length flat_map].
      eexists. split; [reflexivity |].
      rewrite Hp2, Hr2, Hd2, Hp1, Hr1, Hd1, !app_nil_r.
      replace (Z.of_nat 1 =? pendingMsgCount d) with true
        by (symmetry; apply Z.eqb_eq; lia).
      unfold drain_head. rewrite Hp1.
      replace (0 <? pendingMsgCount d - 1) with false
        by (symmetry; apply Z.ltb_ge; lia).
      cbn. rewrite Hac1. split_and!; try done; lia.
    + assert (at_ (drain_head d1) = gracefulShutdown /\
              asyncClose (drain_head d1) = asyncClose d) as [Hat2 Hac2].
      { unfold drain_head. rewrite Hp1.
        replace (0 <? pendingMsgCount d - 1) with true
          by (symmetry; apply Z.ltb_lt; lia).
        by split. }
      clear Hac1.
      destruct (IH (drain_head d1)) as (d' & Hrun & Hp' & Hr' & Hd' & Hend);
        [exact Hat2 | rewrite Hp2, Hp1; lia | rewrite Hp2, Hp1; lia |].
      exists d'. split; [exact Hrun |].
      rewrite Hp', Hr', Hd', Hp2, Hr2, Hd2, Hp1, Hr1, Hd1.
      cbn [flat_map]. rewrite <- !app_assoc.
      split_and!; try done; [lia |].
      rewrite Hp2, Hp1, Hac2 in Hend.
      destruct (Z.of_nat (length rs) =? pendingMsgCount d - 1) eqn:E.
      * apply Z.eqb_eq in E.
        replace (Z.of_nat (S (length rs)) =? pendingMsgCount d) with true
          by (symmetry; apply Z.eqb_eq; lia).
        exact Hend.
      * apply Z.eqb_neq in E.
        replace (Z.of_nat (S (length rs)) =? pendingMsgCount d) with false
          by (symmetry; apply Z.eqb_neq; lia).
        exact Hend.
Qed.

End producer_more.

Section producer_more_examples.

Import pixy inputs.

(** X19 on an acknowledgement, an error and the close of both channels. *)
Lemma merger_forwards_witness :
  exists m,
    merger_run merger_start reports = Some m /\
    resultCh m = [sync_ok; async_failed] /\ resultCh_closed_ m = true.
Proof.
  eexists. split; [vm_compute; reflexivity |].
  edestruct (merger_forwards reports) as (Hr & _ & _ & Hcl & _);
    [vm_compute; reflexivity |].
  split; [exact Hr | exact Hcl].
Defined.

(** X20 on a synchronous submission that is acknowledged and an asynchronous
    one that fails. *)
Lemma results_reach_callers_witness :
  exists m d,
    merger_run merger_start reports = Some m /\
    run true start
        [dispatcherCh_recv sync_msg; input_sent;
         dispatcherCh_recv async_msg; input_sent;
         resultCh_recv sync_ok; resultCh_recv async_failed;
         dispatcherCh_closed; resultCh_closed] = Some d /\
    replyCh d = [(5%nat, None)] /\ deadMessageCh d = [async_failed].
Proof.
  destruct (merger_run merger_start reports) as [m |] eqn:Hm;
    [| vm_compute in Hm; discriminate Hm].
  destruct (run true start
              [dispatcherCh_recv sync_msg; input_sent;
               dispatcherCh_recv async_msg; input_sent;
               resultCh_recv sync_ok; resultCh_recv async_failed;
               dispatcherCh_closed; resultCh_closed]) as [d |] eqn:Hd;
    [| vm_compute in Hd; discriminate Hd].
  assert (flat_map result_of
            [dispatcherCh_recv sync_msg; input_sent;
             dispatcherCh_recv async_msg; input_sent;
             resultCh_recv sync_ok; resultCh_recv async_failed;
             dispatcherCh_closed; resultCh_closed] = resultCh m) as Hlink
    by (vm_compute in Hm; injection Hm as <-; reflexivity).
  destruct (results_reach_callers true reports m _ d Hm Hd Hlink)
    as (Hr & Hdl & _).
  exists m, d. split; [reflexivity |]. split; [reflexivity |].
  split; [exact Hr | exact Hdl].
Defined.

(** X21 on a dispatcher that times out in its drain loop with one result
    pending. *)
Lemma shutdown_goes_one_way_witness :
  exists d2,
    run true waiting_for_one
        [shutdownTimeout; resultCh_recv sync_ok; resultCh_closed] = Some d2 /\
    at_ d2 = returned /\ asyncClose d2 = 1%nat /\ Input d2 = [sync_msg].
Proof.
  eexists. split; [vm_compute; reflexivity |].
  edestruct (shutdown_goes_one_way true
               [dispatcherCh_recv sync_msg; input_sent; dispatcherCh_closed]
               [shutdownTimeout; resultCh_recv sync_ok; resultCh_closed]
               waiting_for_one)
    as (Hac & _ & _ & Hin);
    [vm_compute; reflexivity | vm_compute; reflexivity |].
  split; [reflexivity |]. split; [exact Hac |].
  destruct Hin as [Hin _]; [discriminate | exact Hin].
Defined.

(** X22 on a dispatcher in its drain loop with one result pending, which
    arrives. *)
Lemma graceful_drain_counts_witness :
  exists d',
    run true waiting_for_one [resultCh_recv sync_ok] = Some d' /\
    at_ d' = shutdownNow /\ asyncClose d' = 1%nat /\
    replyCh d' = [(5%nat, None)].
Proof.
  destruct (graceful_drain_counts true [sync_ok] waiting_for_one)
    as (d' & Hrun & _ & Hr & _ & Hat & Hac).
  - reflexivity.
  - vm_compute. split; [reflexivity | discriminate].
  - vm_compute. discriminate.
  - exists d'. split; [exact Hrun |]. split; [exact Hat |].
    split; [exact Hac | exact Hr].
Defined.

End producer_more_examples.

(** ** The graceful producer: keys and values in the log *)

Section repr_more.

Import pixy.

Lemma length_sprintf_X (b : list Byte.byte) :
  length (sprintf_X b) = (2 * length b)%nat.
Proof.
  induction b as [| x b IH]; [reflexivity |].
  unfold sprintf_X in *. cbn [flat_map app length]. rewrite IH. lia.
Qed.

Lemma unhex_pair (x : Byte.byte) :
  default Byte.x00
    (Byte.of_N (16 * hex_value (hex_digit (Byte.to_N x / 16))
                + hex_value (hex_digit (Byte.to_N x mod 16))))
  = x.
Proof. destruct x; vm_compute; reflexivity. Qed.

Lemma unhex_sprintf_X (b : list Byte.byte) : unhex (sprintf_X b) = b.
Proof.
  induction b as [| x b IH]; [reflexivity |].
  unfold sprintf_X in *. cbn [flat_map app unhex].
  by rewrite unhex_pair, IH.
Qed.

Lemma take_sprintf_X (b : list Byte.byte) :
  forall n : nat, take (2 * n) (sprintf_X b) = sprintf_X (take n b).
Proof.
  induction b as [| x b IH]; intros n.
  - rewrite take_nil. unfold sprintf_X. cbn [flat_map]. apply take_nil.
  - destruct n as [| n]; [reflexivity |].
    replace (2 * S n)%nat with (S (S (2 * n))) by lia.
    unfold sprintf_X in *. cbn [flat_map app take].
    by rewrite IH.
Qed.

(** X23.  A byte value of at most 2048 bytes is shown in full: two hexadecimal
    digits for each byte, from which the value can be read back. *)
Theorem encoderRepr_bytes_round_trip (b : list Byte.byte) :
  (length b <= 2048)%nat ->
  length (encoderRepr (ByteEncoder b)) = (2 * length b)%nat /\
  unhex (encoderRepr (ByteEncoder b)) = b.
Proof.
  intros Hlen. unfold encoderRepr. cbv zeta.
  rewrite length_sprintf_X.
  replace (maxEncoderReprLength <? 2 * length b)%nat with false
    by (symmetry; apply Nat.ltb_ge; unfold maxEncoderReprLength; lia).
  split; [apply length_sprintf_X | apply unhex_sprintf_X].
Qed.

(** X24.  A byte value of more than 2048 bytes is cut: its first 2048 bytes
    are shown as 4096 hexadecimal digits, and the count that follows is the
    number of hexadecimal digits left out, twice the number of bytes. *)
Theorem encoderRepr_bytes_truncated (b : list Byte.byte) :
  (2048 < length b)%nat ->
  encoderRepr (ByteEncoder b)
  = sprintf_X (take 2048 b) ++ bytes "... ("
    ++ bytes (pretty (2 * (length b - 2048))%nat) ++ bytes " bytes more)".
Proof.
  intros Hlen. unfold encoderRepr. cbv zeta.
  rewrite length_sprintf_X.
  replace (maxEncoderReprLength <? 2 * length b)%nat with true
    by (symmetry; apply Nat.ltb_lt; unfold maxEncoderReprLength; lia).
  replace (2 * length b - maxEncoderReprLength)%nat
    with (2 * (length b - 2048))%nat
    by (unfold maxEncoderReprLength; lia).
  replace maxEncoderReprLength with (2 * 2048)%nat by reflexivity.
  by rewrite take_sprintf_X.
Qed.

(** X23 on the bytes 00 FF 4B. *)
Lemma encoderRepr_bytes_round_trip_witness :
  encoderRepr (ByteEncoder [Byte.x00; Byte.xff; Byte.x4b]) = bytes "00FF4B" /\
  unhex (encoderRepr (ByteEncoder [Byte.x00; Byte.xff; Byte.x4b]))
  = [Byte.x00; Byte.xff; Byte.x4b].
Proof.
  destruct (encoderRepr_bytes_round_trip [Byte.x00; Byte.xff; Byte.x4b])
    as [_ Hback]; [cbn; lia |].
  split; [vm_compute; reflexivity | exact Hback].
Defined.

(** X24 on 2049 bytes: 2048 are shown and the count says 2. *)
Lemma encoderRepr_bytes_truncated_witness :
  encoderRepr (ByteEncoder (replicate 2049 Byte.x4b))
  = sprintf_X (replicate 2048 Byte.x4b) ++ bytes "... (2 bytes more)".
Proof.
  rewrite (encoderRepr_bytes_truncated (replicate 2049 Byte.x4b))
    by (rewrite length_replicate; lia).
  vm_compute. reflexivity.
Defined.

End repr_more.
